(** * speakwise-app: similarity scorer, recording controller and their callers

    A shallow embedding of
    - [calculateLevenshteinDistance], [calculateTextSimilarity] and the
      figures of the report: [overallAccuracy], [challengingWords], the
      fluency stars and [handleDownload]
      (src/components/AnalysisResult.tsx),
    - the [useAudioRecorder] hook (src/hooks/useAudioRecorder.ts),
    - the [AudioUploader] component and, of the [AudioRecorder] component,
      the timer effect and [formatTime]
      (src/components/AudioUploader.tsx, both documents of the file),
    - [handleAudioReady], [resetState] and the results branch of
      [renderContent] of [App] (src/ScriptInput.tsx, third document),
    - the speaking rate of [useTTS] (src/hooks/useTTS.ts),
    together with the properties the specification states about them and
    further properties read off the code. *)

From Stdlib Require Import ZArith Lia String Ascii.
From Stdlib Require Import QArith Qpower Qround Lqa.
From Stdlib Require Import SpecFloat.
From Stdlib Require Import DecimalString DecimalN.
From stdpp Require Import base option list.

Local Open Scope nat_scope.

(** ** The similarity scorer *)
Module Scorer.

(** *** The dynamic-programming table

    [Array(b.length + 1).fill(null).map(() => Array(a.length + 1).fill(null))]:
    a cell is [null] until the loops assign a number to it. *)
Abbreviation cell := (option nat).
Abbreviation matrix := (list (list cell)).

Definition new_matrix (rows cols : nat) : matrix :=
  replicate rows (replicate cols None).

(** [matrix[j][i]] in a numeric position.  A read outside the table
    ([undefined]) or of a cell still holding [null] is reported as a failure
    of the whole computation; the correctness theorem shows that the loops
    never perform one. *)
Definition read (m : matrix) (j i : nat) : option nat :=
  row ← m !! j; c ← row !! i; c.

(** [matrix[j][i] = v].  A store past the end of a row would grow the row in
    JavaScript and a store into a missing row raises; both are reported as
    failure, and again the loops never reach them. *)
Definition write (m : matrix) (j i v : nat) : option matrix :=
  row ← m !! j;
  if decide (i < length row) then Some (<[j := <[i := Some v]> row]> m)
  else None.

(** [for (let k = lo; k < lo + count; k++) body], threading the loop state. *)
Fixpoint for_range {S : Type} (lo count : nat)
    (body : nat → S → option S) (s : S) : option S :=
  match count with
  | 0 => Some s
  | Datatypes.S c => s' ← body lo s; for_range (Datatypes.S lo) c body s'
  end.

(** [Math.min] of three numbers. *)
Definition min3 (x y z : nat) : nat := Nat.min x (Nat.min y z).

Section Distance.
Context {A : Type} `{EqDecision A}.

(** [a[i - 1] === b[j - 1] ? 0 : 1]; indexing a string out of range yields
    [undefined], which is what [None] stands for. *)
Definition substitutionCost (a b : list A) (i j : nat) : nat :=
  if decide (a !! (i - 1) = b !! (j - 1)) then 0 else 1.

Definition fill_cell (a b : list A) (j i : nat) (m : matrix) : option matrix :=
  deletion ← read m j (i - 1);
  insertion ← read m (j - 1) i;
  substitution ← read m (j - 1) (i - 1);
  write m j i
    (min3 (deletion + 1) (insertion + 1)
          (substitution + substitutionCost a b i j)).

Definition calculateLevenshteinDistance (a b : list A) : option nat :=
  if decide (length a = 0) then Some (length b)
  else if decide (length b = 0) then Some (length a)
  else
    let matrix := new_matrix (length b + 1) (length a + 1) in
    matrix ← for_range 0 (length a + 1) (λ i m, write m 0 i i) matrix;
    matrix ← for_range 0 (length b + 1) (λ j m, write m j 0 j) matrix;
    matrix ← for_range 1 (length b)
                (λ j m, for_range 1 (length a) (fill_cell a b j) m) matrix;
    read matrix (length b) (length a).

(** *** The edit distance as a recursive function

    The textbook recurrence on the first characters of both strings. *)
Fixpoint lev (a : list A) : list A → nat :=
  match a with
  | [] => λ b, length b
  | x :: a' =>
      fix lev_row (b : list A) : nat :=
        match b with
        | [] => Datatypes.S (length a')
        | y :: b' =>
            min3 (lev a' b + 1) (lev_row b' + 1)
                 (lev a' b' + (if decide (x = y) then 0 else 1))
        end
  end.

(** *** The edit distance as a minimum number of edits *)

(** One insertion, deletion or substitution of a single character, anywhere
    in the string. *)
Inductive edit1 : list A → list A → Prop :=
  | edit1_insert l x r : edit1 (l ++ r) (l ++ x :: r)
  | edit1_delete l x r : edit1 (l ++ x :: r) (l ++ r)
  | edit1_substitute l x y r : edit1 (l ++ x :: r) (l ++ y :: r).

(** [edits n a b]: [n] successive single-character edits turn [a] into [b]. *)
Inductive edits : nat → list A → list A → Prop :=
  | edits_refl a : edits 0 a a
  | edits_step n a b c : edit1 a b → edits n b c → edits (Datatypes.S n) a c.

(** [d] is the least number of edits that turns [a] into [b]. *)
Definition is_edit_distance (a b : list A) (d : nat) : Prop :=
  edits d a b ∧ ∀ n, edits n a b → d ≤ n.

(** *** What the table holds while the loops run

    [D a b i j] is the distance between the first [i] characters of [a] and
    the first [j] characters of [b], the value the loops store in
    [matrix[j][i]]. *)
Definition D (a b : list A) (i j : nat) : nat :=
  lev (rev (take i a)) (rev (take j b)).

(** The table has [lb + 1] rows of [la + 1] cells. *)
Definition table_shape (la lb : nat) (m : matrix) : Prop :=
  length m = lb + 1 ∧ ∀ j row, m !! j = Some row → length row = la + 1.

(** Every cell selected by [P] holds its distance. *)
Definition filled (a b : list A) (P : nat → nat → Prop) (m : matrix) : Prop :=
  ∀ j i, j ≤ length b → i ≤ length a → P j i → read m j i = Some (D a b i j).

(** Cells known once row [j] has been filled up to (excluding) column [i]. *)
Definition known (j i : nat) (j' i' : nat) : Prop :=
  j' = 0 ∨ i' = 0 ∨ j' < j ∨ (j' = j ∧ i' < i).

End Distance.

(** *** JavaScript numbers

    A [number] is an IEEE 754 binary64 value; the operations are those of the
    standard library's executable specification of binary floating point
    (round to nearest, ties to even). *)
Definition prec : Z := 53.
Definition emax : Z := 1024.
Definition number := spec_float.

(** The number denoted by an integer literal or an integer-valued expression
    such as [s.length]; exact below [2^53]. *)
Definition of_int (z : Z) : number := binary_normalize prec emax z 0 false.

Definition div (x y : number) : number := SFdiv prec emax x y.
Definition mul (x y : number) : number := SFmul prec emax x y.

(** [Math.round]: the nearest integer, ties towards [+∞]; [NaN] and the
    infinities (which [Math.round] returns unchanged) are [None]. *)
Definition Math_round (x : number) : option Z :=
  match x with
  | S754_zero _ => Some 0%Z
  | S754_finite s m e =>
      let v := if s then Zneg m else Zpos m in
      Some match e with
           | Z0 => v
           | Zpos _ => (v * 2 ^ e)%Z
           | Zneg _ => ((2 * v + 2 ^ (- e)) / 2 ^ (1 - e))%Z
           end
  | S754_infinity _ | S754_nan => None
  end.

(** *** Strings and their normalisation

    A string is its sequence of UTF-16 code units. *)
Definition code_unit := N.
Definition jsstring := list code_unit.

Definition utf16 (s : string) : jsstring :=
  map N_of_ascii (list_ascii_of_string s).

(** White space and line terminators of ECMAScript, removed by [trim]. *)
Definition is_white_space (c : code_unit) : bool :=
  bool_decide (c ∈ [0x09; 0x0A; 0x0B; 0x0C; 0x0D; 0x20; 0xA0; 0x1680;
                    0x2000; 0x2001; 0x2002; 0x2003; 0x2004; 0x2005; 0x2006;
                    0x2007; 0x2008; 0x2009; 0x200A; 0x2028; 0x2029; 0x202F;
                    0x205F; 0x3000; 0xFEFF]%N).

Fixpoint trim_start (s : jsstring) : jsstring :=
  match s with
  | c :: s' => if is_white_space c then trim_start s' else s
  | [] => []
  end.

(** [String.prototype.trim] *)
Definition trim (s : jsstring) : jsstring :=
  rev (trim_start (rev (trim_start s))).

(** [String.prototype.toLowerCase] on strings of ASCII code units; the
    scorer below is stated for an arbitrary case mapping, of which this is
    the restriction used in the worked examples. *)
Definition ascii_toLowerCase (s : jsstring) : jsstring :=
  map (λ c, if bool_decide (0x41 ≤ c ≤ 0x5A)%N then (c + 0x20)%N else c) s.

Section Similarity.
(** [String.prototype.toLowerCase]: the Unicode case mapping of the host,
    which may change the length of a string. *)
Variable toLowerCase : jsstring → jsstring.

Definition calculateTextSimilarity (a b : jsstring) : option Z :=
  let cleanA := toLowerCase (trim a) in
  let cleanB := toLowerCase (trim b) in
  let maxLength := Nat.max (length cleanA) (length cleanB) in
  if decide (maxLength = 0) then Some 100%Z
  else
    distance ← calculateLevenshteinDistance cleanA cleanB;
    let similarity :=
      div (of_int (Z.of_nat maxLength - Z.of_nat distance))
          (of_int (Z.of_nat maxLength)) in
    Z.max 0 <$> Math_round (mul similarity (of_int 100)).

End Similarity.

(** *** The real value of a number, and exact rounding

    [F2Q m e] is the rational [m·2^e]. *)
Definition bpow (e : Z) : Q := (2 ^ e)%Q.
Definition F2Q (m e : Z) : Q := (inject_Z m * bpow e)%Q.

(** [v] lies in the slot [[m·2^e, (m+1)·2^e)], at the position [l] with
    respect to the middle of the slot. *)
Definition located (v : Q) (m e : Z) (l : location) : Prop :=
  (F2Q m e <= v ∧ v < F2Q m e + bpow e)%Q ∧
  match l with
  | loc_Exact => (v == F2Q m e)%Q
  | loc_Inexact c => (¬ v == F2Q m e)%Q ∧ (v ?= F2Q m e + (1 # 2) * bpow e)%Q = c
  end.

Definition rec_located (v : Q) (r : shr_record) (e : Z) : Prop :=
  (0 ≤ shr_m r)%Z ∧ located v (shr_m r) e (loc_of_shr_record r).

(** Rounding to the nearest integer, ties upwards, of an exact rational. *)
Definition round_half_up (x : Q) : Z := Qfloor (x + (1 # 2)).

(** The exact percentage [100·k/m]. *)
Definition exact_percent (k m : Z) : Q := (inject_Z (100 * k) / inject_Z m)%Q.

(** [x] lies exactly halfway between two integers. *)
Definition is_tie (x : Q) : Prop :=
  (inject_Z (round_half_up x) == x + (1 # 2))%Q.

(** *** Two strings of forty characters, seventeen substitutions apart *)
Definition forty_a : jsstring := replicate 40 97%N.
Definition twenty_three_a_seventeen_b : jsstring :=
  replicate 23 97%N ++ replicate 17 98%N.

End Scorer.

(** ** The recording controller *)
Module Recorder.

Local Open Scope string_scope.

(** [RecordingStatus] of the hook. *)
Inductive RecordingStatus := inactive | recording | paused | stopped.

#[global] Instance RecordingStatus_eq_dec : EqDecision RecordingStatus.
Proof. solve_decision. Defined.

(** A [Blob]: its bytes and its MIME type. *)
Record Blob := { blob_bytes : list Byte.byte; blob_type : string }.

Definition blob_size (b : Blob) : nat := length (blob_bytes b).

(** [new Blob(parts, { type })]: the parts' bytes, concatenated in order. *)
Definition new_Blob (parts : list Blob) (type : string) : Blob :=
  {| blob_bytes := concat (map blob_bytes parts); blob_type := type |}.

(** A value that is thrown, or that an event carries as its [error]: an
    [Error] (a [DOMException] is one) with its [name] and [message]; any
    other truthy value, with the text that a template literal makes of its
    [name] property (the word [undefined] when it has none); or a falsy
    value ([undefined], [null], [false], [0], [NaN], the empty string). *)
Inductive Thrown :=
  | JsError (name message : string)
  | JsValue (name : string)
  | JsFalsy.

(** The state of the [stopped] promise a call of [startRecording] creates. *)
Inductive Promise :=
  | Pending
  | Resolved (blob : Blob) (mimeType : string)
  | Rejected (err : Thrown).

(** [MediaRecorder.state] *)
Inductive RecorderState := rec_inactive | rec_recording | rec_paused.

#[global] Instance RecorderState_eq_dec : EqDecision RecorderState.
Proof. solve_decision. Defined.

(** A [MediaRecorder] object as the hook sees it.  [ondataavailable],
    [onstart] and [onerror] stay assigned for the life of the object; only
    [onstop] is ever detached. *)
Record MediaRecorder := {
  rec_state : RecorderState;
  rec_mimeType : string;      (* [.mimeType], empty when none is reported *)
  rec_stream : nat;           (* the [stream] its handlers close over *)
  rec_onstop : bool;          (* is the [onstop] handler still assigned? *)
  rec_promise : Promise       (* the [stopped] promise of its session *)
}.

(** A [MediaStream]: its tracks, [true] while live, [false] once stopped. *)
Abbreviation MediaStream := (list bool).

(** [stream.getTracks().forEach(track => track.stop())] *)
Definition stop_tracks (tracks : MediaStream) : MediaStream :=
  map (λ _, false) tracks.

(** The hook's React state and refs, the recorder and stream objects they
    point into, the number of [startRecording] calls suspended at
    [await getUserMedia], and the exceptions that escaped an operation. *)
Record State := {
  status : RecordingStatus;
  error : option string;
  mediaRecorderRef : option nat;
  audioChunksRef : list Blob;
  streamRef : option nat;
  recorders : list MediaRecorder;
  streams : list MediaStream;
  pending : nat;
  uncaught : list string
}.

Definition initial : State :=
  {| status := inactive; error := None; mediaRecorderRef := None;
     audioChunksRef := []; streamRef := None; recorders := []; streams := [];
     pending := 0; uncaught := [] |}.

Definition setStatus (v : RecordingStatus) (s : State) : State :=
  {| status := v; error := error s; mediaRecorderRef := mediaRecorderRef s;
     audioChunksRef := audioChunksRef s; streamRef := streamRef s;
     recorders := recorders s; streams := streams s; pending := pending s;
     uncaught := uncaught s |}.

Definition setError (v : option string) (s : State) : State :=
  {| status := status s; error := v; mediaRecorderRef := mediaRecorderRef s;
     audioChunksRef := audioChunksRef s; streamRef := streamRef s;
     recorders := recorders s; streams := streams s; pending := pending s;
     uncaught := uncaught s |}.

Definition set_mediaRecorderRef (v : option nat) (s : State) : State :=
  {| status := status s; error := error s; mediaRecorderRef := v;
     audioChunksRef := audioChunksRef s; streamRef := streamRef s;
     recorders := recorders s; streams := streams s; pending := pending s;
     uncaught := uncaught s |}.

Definition set_audioChunksRef (v : list Blob) (s : State) : State :=
  {| status := status s; error := error s;
     mediaRecorderRef := mediaRecorderRef s; audioChunksRef := v;
     streamRef := streamRef s; recorders := recorders s; streams := streams s;
     pending := pending s; uncaught := uncaught s |}.

Definition set_streamRef (v : option nat) (s : State) : State :=
  {| status := status s; error := error s;
     mediaRecorderRef := mediaRecorderRef s;
     audioChunksRef := audioChunksRef s; streamRef := v;
     recorders := recorders s; streams := streams s; pending := pending s;
     uncaught := uncaught s |}.

Definition set_recorders (v : list MediaRecorder) (s : State) : State :=
  {| status := status s; error := error s;
     mediaRecorderRef := mediaRecorderRef s;
     audioChunksRef := audioChunksRef s; streamRef := streamRef s;
     recorders := v; streams := streams s; pending := pending s;
     uncaught := uncaught s |}.

Definition set_streams (v : list MediaStream) (s : State) : State :=
  {| status := status s; error := error s;
     mediaRecorderRef := mediaRecorderRef s;
     audioChunksRef := audioChunksRef s; streamRef := streamRef s;
     recorders := recorders s; streams := v; pending := pending s;
     uncaught := uncaught s |}.

Definition set_pending (v : nat) (s : State) : State :=
  {| status := status s; error := error s;
     mediaRecorderRef := mediaRecorderRef s;
     audioChunksRef := audioChunksRef s; streamRef := streamRef s;
     recorders := recorders s; streams := streams s; pending := v;
     uncaught := uncaught s |}.

(** An exception leaves the running operation. *)
Definition throw (name : string) (s : State) : State :=
  {| status := status s; error := error s;
     mediaRecorderRef := mediaRecorderRef s;
     audioChunksRef := audioChunksRef s; streamRef := streamRef s;
     recorders := recorders s; streams := streams s; pending := pending s;
     uncaught := uncaught s ++ [name] |}.

(** *** The [MediaRecorder] and [MediaStream] objects *)

Definition set_rec_state (v : RecorderState) (r : MediaRecorder) : MediaRecorder :=
  {| rec_state := v; rec_mimeType := rec_mimeType r; rec_stream := rec_stream r;
     rec_onstop := rec_onstop r; rec_promise := rec_promise r |}.

Definition set_rec_onstop (v : bool) (r : MediaRecorder) : MediaRecorder :=
  {| rec_state := rec_state r; rec_mimeType := rec_mimeType r;
     rec_stream := rec_stream r; rec_onstop := v; rec_promise := rec_promise r |}.

(** [resolve] and [reject] settle a promise once; later calls do nothing. *)
Definition settle (p : Promise) (r : MediaRecorder) : MediaRecorder :=
  {| rec_state := rec_state r; rec_mimeType := rec_mimeType r;
     rec_stream := rec_stream r; rec_onstop := rec_onstop r;
     rec_promise := match rec_promise r with Pending => p | settled => settled end |}.

(** [recorder.stop()].  On a recorder that is recording it makes the state
    [inactive] at once and leaves the final [dataavailable] and the [stop]
    event to be delivered later.  On an inactive recorder the call raises
    [InvalidStateError] (the contract the guard in [cancelRecording] is
    written against; engines that follow the current specification return
    silently instead, which changes nothing else below). *)
Definition MediaRecorder_stop (r : nat) (s : State) : State :=
  match recorders s !! r with
  | Some rec =>
      if decide (rec_state rec = rec_inactive) then throw "InvalidStateError" s
      else set_recorders (<[r := set_rec_state rec_inactive rec]> (recorders s)) s
  | None => s
  end.

(** *** [startRecording] *)

(** The answer of [navigator.mediaDevices.getUserMedia({ audio: true })]. *)
Inductive Acquisition :=
  | Granted (tracks : MediaStream)
  | Denied (err : Thrown).

(** What [new MediaRecorder(stream)] followed by [start()] does: the
    recorder runs and reports [mimeType], or [start()] throws. *)
Inductive RecorderOutcome :=
  | Runs (mimeType : string)
  | StartThrows (err : Thrown).

(** The value [startRecording] resolves to when it has passed the guard (at
    the guard it resolves to [undefined]). *)
Inductive StartResult :=
  | ReturnsStopped (session : nat)         (* [{ stopped }] *)
  | ReturnsRejected (err : Thrown).        (* [{ stopped: Promise.reject(err) }] *)

Definition PERMISSION_DENIED_MESSAGE : string :=
  "Microphone permission denied. Please allow microphone access in your browser settings.".

Definition DEFAULT_MIME_TYPE : string := "audio/webm".

(** [String.prototype.includes] *)
Fixpoint includes (search s : string) : bool :=
  match s with
  | EmptyString => String.prefix search EmptyString
  | String _ s' => String.prefix search s || includes search s'
  end.

(** [mediaRecorderRef.current && mediaRecorderRef.current.state === 'recording'] *)
Definition already_recording (s : State) : bool :=
  match mediaRecorderRef s with
  | Some r =>
      match recorders s !! r with
      | Some rec => bool_decide (rec_state rec = rec_recording)
      | None => false
      end
  | None => false
  end.

(** [startRecording] up to its [await]: the two state resets, then the
    guard.  The boolean tells whether the call went on to [getUserMedia]. *)
Definition startRecording_begin (s : State) : State * bool :=
  let s := setError None (setStatus inactive s) in
  if already_recording s then (s, false)
  else (set_pending (S (pending s)) s, true).

(** The [catch] block. *)
Definition startRecording_catch (err : Thrown) (s : State) : State * StartResult :=
  let errorMessage :=
    match err with
    | JsError _ message => message
    | JsValue _ | JsFalsy => "Could not access microphone."
    end in
  let s :=
    if includes "Permission denied" errorMessage
    then setError (Some PERMISSION_DENIED_MESSAGE) s
    else setError (Some errorMessage) s in
  (setStatus inactive s, ReturnsRejected err).

(** [startRecording] from the [await] on, when [getUserMedia] resolved. *)
Definition startRecording_granted (tracks : MediaStream) (o : RecorderOutcome)
    (s : State) : State * StartResult :=
  let sid := length (streams s) in
  let s := set_streams (streams s ++ [tracks]) s in
  let s := set_streamRef (Some sid) s in
  let s := setStatus recording s in
  let rid := length (recorders s) in
  let fresh mimeType :=
    {| rec_state := rec_inactive; rec_mimeType := mimeType; rec_stream := sid;
       rec_onstop := true; rec_promise := Pending |} in
  match o with
  | Runs mimeType =>
      let s := set_recorders (recorders s ++ [fresh mimeType]) s in
      let s := set_mediaRecorderRef (Some rid) s in
      let s := set_recorders (alter (set_rec_state rec_recording) rid (recorders s)) s in
      (s, ReturnsStopped rid)
  | StartThrows err =>
      let s := set_recorders (recorders s ++ [fresh EmptyString]) s in
      let s := set_mediaRecorderRef (Some rid) s in
      startRecording_catch err s
  end.

(** [startRecording] from the [await] on, with the answer of the device. *)
Definition startRecording_resume (a : Acquisition) (o : RecorderOutcome)
    (s : State) : State * StartResult :=
  let s := set_pending (pred (pending s)) s in
  match a with
  | Granted tracks => startRecording_granted tracks o s
  | Denied err => startRecording_catch err s
  end.

(** *** The handlers [startRecording] assigns *)

(** [ondataavailable] *)
Definition ondataavailable (data : Blob) (s : State) : State :=
  if decide (0 < blob_size data)
  then set_audioChunksRef (audioChunksRef s ++ [data]) s
  else s.

(** [onstart] *)
Definition onstart (s : State) : State := setStatus recording s.

(** [onstop], as assigned to recorder [r] whose handlers close over
    [rec_stream].  It reads [mimeType] through [mediaRecorderRef.current]. *)
Definition onstop (r : nat) (s : State) : State :=
  match mediaRecorderRef s ≫= (recorders s !!.), recorders s !! r with
  | Some current, Some rec =>
      let mimeType :=
        if String.eqb (rec_mimeType current) EmptyString
        then DEFAULT_MIME_TYPE else rec_mimeType current in
      let audioBlob := new_Blob (audioChunksRef s) mimeType in
      let s := set_audioChunksRef [] s in
      let s := setStatus stopped s in
      let s := set_streams (alter stop_tracks (rec_stream rec) (streams s)) s in
      let s := set_streamRef None s in
      set_recorders (alter (settle (Resolved audioBlob mimeType)) r (recorders s)) s
  | None, _ => throw "TypeError" s
  | _, None => s
  end.

(** [onerror]; [error] is the [error] property of the event.  A falsy one
    (the property is missing, for instance) is replaced by
    [new Error("MediaRecorder error")], whose name is [Error]; of any other
    value the handler prints the [name]. *)
Definition onerror (r : nat) (error : Thrown) (s : State) : State :=
  let '(mediaRecorderError, name) :=
    match error with
    | JsError name _ => (error, name)
    | JsValue name => (error, name)
    | JsFalsy => (JsError "Error" "MediaRecorder error", "Error")
    end in
  let s := setError (Some ("Recording error: " ++ name)) s in
  set_recorders (alter (settle (Rejected mediaRecorderError)) r (recorders s)) s.

(** *** [stopRecording] and [cancelRecording] *)

(** [stopRecording]; [status] is the value its closure captured when the
    component last rendered. *)
Definition stopRecording (closure_status : RecordingStatus) (s : State) : State :=
  match mediaRecorderRef s with
  | Some r =>
      if decide (closure_status = recording) then MediaRecorder_stop r s else s
  | None => s
  end.

Definition cancelRecording (s : State) : State :=
  let s :=
    match mediaRecorderRef s with
    | Some r =>
        let s := set_recorders (alter (set_rec_onstop false) r (recorders s)) s in
        match recorders s !! r with
        | Some rec =>
            if decide (rec_state rec = rec_recording)
            then MediaRecorder_stop r s else s
        | None => s
        end
    | None => s
    end in
  let s :=
    match streamRef s with
    | Some sid =>
        set_streamRef None
          (set_streams (alter stop_tracks sid (streams s)) s)
    | None => s
    end in
  setStatus inactive (set_audioChunksRef [] s).

(** *** The event loop

    Calls of the hook's operations and the events the browser delivers.  A
    call of [startRecording] takes two events: [CallStart] runs it up to its
    [await], and [Resume] runs the rest once the device has answered;
    whatever the browser delivers in the meantime runs in between.  A [stop]
    event reaches its recorder once the recorder is inactive, whether
    [stop()] was called or the device ended on its own. *)
Inductive Event :=
  | CallStart
  | Resume (a : Acquisition) (o : RecorderOutcome)
  | CallStop
  | CallCancel
  | DataAvailable (r : nat) (data : Blob)
  | Started (r : nat)
  | Stopped (r : nat)
  | Errored (r : nat) (error : Thrown).

Definition dispatch_stop (r : nat) (s : State) : State :=
  match recorders s !! r with
  | Some rec =>
      let s := set_recorders (<[r := set_rec_state rec_inactive rec]> (recorders s)) s in
      if rec_onstop rec then onstop r s else s
  | None => s
  end.

Definition step (e : Event) (s : State) : State :=
  match e with
  | CallStart => fst (startRecording_begin s)
  | Resume a o =>
      if decide (pending s = 0) then s else fst (startRecording_resume a o s)
  | CallStop => stopRecording (status s) s
  | CallCancel => cancelRecording s
  | DataAvailable r data =>
      if decide (r < length (recorders s)) then ondataavailable data s else s
  | Started r => if decide (r < length (recorders s)) then onstart s else s
  | Stopped r => dispatch_stop r s
  | Errored r err =>
      if decide (r < length (recorders s)) then onerror r err s else s
  end.

Definition run (events : list Event) (s : State) : State :=
  foldl (λ s e, step e s) s events.

(** The promise of session [r] holds a payload. *)
Definition delivered (r : nat) (s : State) : Prop :=
  ∃ rec blob mimeType,
    recorders s !! r = Some rec ∧ rec_promise rec = Resolved blob mimeType.

(** *** The [AudioRecorder] component: elapsed time and the duration cap *)

Definition MAX_DURATION_SECONDS : nat := 300.

(** The hook, the [duration] state and whether the interval is running. *)
Record Component := { hook : State; duration : nat; timer : bool }.

Definition mounted : Component :=
  {| hook := initial; duration := 0; timer := false |}.

(** The effect keyed on [status]: it runs again, after the clean-up of its
    previous run, whenever a render sees a new [status]. *)
Definition effect (previous : RecordingStatus) (c : Component) : Component :=
  if decide (status (hook c) = previous) then c
  else if decide (status (hook c) = recording)
  then {| hook := hook c; duration := 0; timer := true |}
  else {| hook := hook c; duration := duration c; timer := false |}.

(** One firing of the interval.  Its [handleStop] is the one of the render
    that started the interval, whose [status] was [recording]. *)
Definition tick (c : Component) : Component :=
  if timer c then
    let newDuration := duration c + 1 in
    if decide (MAX_DURATION_SECONDS ≤ newDuration)
    then {| hook := stopRecording recording (hook c);
            duration := MAX_DURATION_SECONDS; timer := timer c |}
    else {| hook := hook c; duration := newDuration; timer := timer c |}
  else c.

Inductive ComponentEvent :=
  | Tick
  | Hook (e : Event).

Definition component_step (e : ComponentEvent) (c : Component) : Component :=
  match e with
  | Tick => effect (status (hook c)) (tick c)
  | Hook e =>
      effect (status (hook c))
        {| hook := step e (hook c); duration := duration c; timer := timer c |}
  end.

Definition component_run (events : list ComponentEvent) (c : Component) : Component :=
  foldl (λ c e, component_step e c) c events.

(** *** Notions used to state the properties *)

(** What [cancelRecording] leaves of the recorder it finds. *)
Definition cancelled (rec : MediaRecorder) : MediaRecorder :=
  {| rec_state :=
       if decide (rec_state rec = rec_recording) then rec_inactive
       else rec_state rec;
     rec_mimeType := rec_mimeType rec; rec_stream := rec_stream rec;
     rec_onstop := false; rec_promise := rec_promise rec |}.

(** The fragments that [ondataavailable] keeps. *)
Definition kept (fragments : list Blob) : list Blob :=
  filter (λ data, 0 < blob_size data) fragments.

(** [mimeType || 'audio/webm'] *)
Definition reported_type (rec : MediaRecorder) : string :=
  if String.eqb (rec_mimeType rec) EmptyString
  then DEFAULT_MIME_TYPE else rec_mimeType rec.

(** Session [r] has lost its finalize callback and holds no payload. *)
Definition detached (r : nat) (s : State) : Prop :=
  ∃ rec, recorders s !! r = Some rec ∧ rec_onstop rec = false ∧
         ∀ blob mimeType, rec_promise rec ≠ Resolved blob mimeType.

(** *** A session, step by step *)

(** A one-byte fragment. *)
Definition fragment (b : Byte.byte) : Blob :=
  {| blob_bytes := [b]; blob_type := "audio/webm" |}.

(** The hook after one successful [startRecording] on a one-track device. *)
Definition recording_session : State :=
  run [CallStart; Resume (Granted [true]) (Runs "audio/webm")] initial.

(** The recorder of that session. *)
Definition session_recorder : MediaRecorder :=
  {| rec_state := rec_recording; rec_mimeType := "audio/webm"; rec_stream := 0;
     rec_onstop := true; rec_promise := Pending |}.

(** The same session once [stopRecording] has been called. *)
Definition stop_requested : State :=
  stopRecording (status recording_session) recording_session.

(** The component after the user pressed Start and the device answered. *)
Definition recording_component : Component :=
  component_run
    [Hook CallStart; Hook (Resume (Granted [true]) (Runs "audio/webm"))] mounted.

(** *** Permission denials

    [getUserMedia] reports a refusal of the permission by rejecting with a
    [DOMException] named [NotAllowedError]; its message is for the browser
    to word. *)
Definition permission_denial (err : Thrown) : bool :=
  match err with
  | JsError name _ => String.eqb name "NotAllowedError"
  | JsValue _ | JsFalsy => false
  end.

(** The refusal as Chromium words it, and as Firefox does. *)
Definition chromium_denial : Thrown :=
  JsError "NotAllowedError" "Permission denied".

Definition FIREFOX_DENIAL_MESSAGE : string :=
  "The request is not allowed by the user agent or the platform in the current context.".

Definition firefox_denial : Thrown :=
  JsError "NotAllowedError" FIREFOX_DENIAL_MESSAGE.

(** *** A session started after a cancellation

    A one-track session is cancelled and a new one is started.  The
    recorder that [cancelRecording] stopped delivers its last fragment, one
    byte, while the new call waits for the device ... *)
Definition restart_after_cancel : list Event :=
  [CallStart; Resume (Granted [true]) (Runs "audio/webm");
   CallCancel;
   CallStart;
   DataAvailable 0 (fragment Byte.x01);
   Resume (Granted [true]) (Runs "audio/webm")].

(** ... or before the new call is made. *)
Definition restart_after_cancel_late : list Event :=
  [CallStart; Resume (Granted [true]) (Runs "audio/webm");
   CallCancel;
   DataAvailable 0 (fragment Byte.x01);
   CallStart;
   Resume (Granted [true]) (Runs "audio/webm")].

(** The new session then records a byte of its own and is stopped. *)
Definition finish_session : list Event :=
  [DataAvailable 1 (fragment Byte.x02); CallStop; Stopped 1].

(** In the component: a session of two seconds is stopped with the button
    and finalized, and a new one is started. *)
Definition restart_after_stop : list ComponentEvent :=
  [Hook CallStart; Hook (Resume (Granted [true]) (Runs "audio/webm"));
   Tick; Tick;
   Hook CallStop;
   Hook (DataAvailable 0 (fragment Byte.x01));
   Hook (Stopped 0);
   Hook CallStart;
   Hook (Resume (Granted [true]) (Runs "audio/webm"))].

End Recorder.

(** ** Numbers as text *)
Module Formatting.
Import Scorer.

Local Open Scope string_scope.

(** [Math.floor]; [NaN] and the infinities, which it returns unchanged, are
    [None]. *)
Definition Math_floor (x : number) : option Z :=
  match x with
  | S754_zero _ => Some 0%Z
  | S754_finite s m e =>
      let v := if s then Zneg m else Zpos m in
      Some match e with
           | Z0 => v
           | Zpos _ => (v * 2 ^ e)%Z
           | Zneg _ => (v / 2 ^ (- e))%Z
           end
  | S754_infinity _ | S754_nan => None
  end.

(** The decimal digits of a natural number, without leading zeros. *)
Definition digits (n : N) : string := NilEmpty.string_of_uint (N.to_uint n).

(** [Number.prototype.toString] of an integer. *)
Definition toString (z : Z) : string :=
  if (z <? 0)%Z then "-" ++ digits (Z.to_N (- z)) else digits (Z.to_N z).

Fixpoint repeat_string (n : nat) (p : string) : string :=
  match n with
  | 0 => EmptyString
  | S n' => p ++ repeat_string n' p
  end.

(** [String.prototype.padStart]: the filler is [pad] repeated, cut to the
    missing length. *)
Definition padStart (targetLength : nat) (pad s : string) : string :=
  let len := String.length s in
  if Nat.leb targetLength len || String.eqb pad EmptyString then s
  else
    let missing := targetLength - len in
    substring 0 missing (repeat_string missing pad) ++ s.

(** [formatTime] of the [AudioRecorder] component.  [seconds] is the
    integer-valued counter of the component; the quotient by 60 is computed
    on numbers as the code does, and the remainder of two integers is
    exact. *)
Definition formatTime (seconds : nat) : option string :=
  minutes ← Math_floor (div (of_int (Z.of_nat seconds)) (of_int 60));
  let secs := seconds mod 60 in
  Some (padStart 2 "0" (toString minutes) ++ ":" ++
        padStart 2 "0" (toString (Z.of_nat secs))).

(** [Number.prototype.toFixed(0)]: the integer nearest to the number, the
    larger one when two are equally near, in decimal; a negative number is
    formatted as its opposite with a sign in front.  From [10^21] on the
    method switches to the exponent notation, which is not modelled
    ([None]). *)
Definition toFixed0 (x : number) : option string :=
  match x with
  | S754_zero _ => Some "0"
  | S754_finite s m e =>
      n ← Math_round (S754_finite false m e);
      if (n <? 10 ^ 21)%Z then Some ((if s then "-" else "") ++ toString n)
      else None
  | S754_infinity s => Some (if s then "-Infinity" else "Infinity")
  | S754_nan => Some "NaN"
  end.

(** A digit as a character. *)
Definition digit (d : nat) : ascii := ascii_of_nat (48 + d).

(** The clock face [MM:SS]. *)
Definition clock (minutes secs : nat) : string :=
  String (digit (minutes / 10)) (String (digit (minutes mod 10))
    (String ":" (String (digit (secs / 10)) (String (digit (secs mod 10))
       EmptyString)))).

End Formatting.

(** ** The analysis report ([AnalysisResult]) *)
Module Report.
Import Scorer Formatting.

Local Open Scope string_scope.

#[global] Instance string_eq_decision : EqDecision string := string_dec.

(** The fields of [WordFeedback] that the report computes with.  [types.ts]
    declares four ratings for [accuracy]; the schema that the analysis
    service is given ([wordFeedbackSchema]) asks for a string, the answer
    is not checked against the type, and the report is written for any
    string: [|| 0] in [overallAccuracy], [default:] in
    [getAccuracyClasses]. *)
Record WordFeedback := { word : string; accuracy : string }.

(** The four ratings of [types.ts]. *)
Definition ratings : list string := ["Excellent"; "Good"; "Fair"; "Poor"].

Definition rated (w : WordFeedback) : Prop := accuracy w ∈ ratings.

(** What [scoreMap[key]] evaluates to: the number of an entry of the
    literal; a member that the literal inherits from [Object.prototype] (a
    function or, under [__proto__], the prototype itself: truthy, and not a
    number); or [undefined]. *)
Inductive Looked := Entry (points : Z) | Inherited | Missing.

#[global] Instance Looked_eq_dec : EqDecision Looked.
Proof. solve_decision. Defined.

(** The names under which an object literal finds a member of
    [Object.prototype]. *)
Definition Object_prototype : list string :=
  ["constructor"; "hasOwnProperty"; "isPrototypeOf"; "propertyIsEnumerable";
   "toLocaleString"; "toString"; "valueOf"; "__proto__";
   "__defineGetter__"; "__defineSetter__"; "__lookupGetter__";
   "__lookupSetter__"].

(** [scoreMap] *)
Definition scoreMap (key : string) : Looked :=
  if decide (key = "Excellent") then Entry 4
  else if decide (key = "Good") then Entry 3
  else if decide (key = "Fair") then Entry 2
  else if decide (key = "Poor") then Entry 1
  else if decide (key ∈ Object_prototype) then Inherited
  else Missing.

(** What a JSX expression renders: a string or a number. *)
Inductive Rendered := Text (s : string) | Numeral (z : Z).

(** The accumulator of [reduce]: a number or, once an inherited member has
    been added to it, a string (the digits of the sum so far followed by
    the text of the member), which spells no number. *)
Inductive Accumulator := Sum (n : Z) | Concatenation.

(** [acc + (scoreMap[word.accuracy] || 0)] *)
Definition add_score (acc : Accumulator) (word : WordFeedback) : Accumulator :=
  match acc, scoreMap (accuracy word) with
  | Sum n, Entry points =>
      Sum (n + (if (points =? 0)%Z then 0 else points))%Z
  | Sum n, Missing => Sum (n + 0)%Z
  | Sum _, Inherited => Concatenation
  | Concatenation, _ => Concatenation
  end.

(** The accumulator as an operand of [/]. *)
Definition to_number (acc : Accumulator) : number :=
  match acc with
  | Sum n => of_int n
  | Concatenation => S754_nan
  end.

(** [overallAccuracy].  The running total is a sum of small integers, which
    numbers hold exactly below [2^53]. *)
Definition totalScore (words : list WordFeedback) : Accumulator :=
  foldl add_score (Sum 0) words.

Definition maxScore (words : list WordFeedback) : Z :=
  (Z.of_nat (length words) * 4)%Z.

Definition overallAccuracy (words : list WordFeedback) : option Rendered :=
  if (0 <? maxScore words)%Z
  then Text <$> toFixed0 (mul (div (to_number (totalScore words))
                                   (of_int (maxScore words)))
                              (of_int 100))
  else Some (Numeral 0).

(** [challengingWords] *)
Definition challengingWords (words : list WordFeedback) : list WordFeedback :=
  filter (λ w, accuracy w = "Fair" ∨ accuracy w = "Poor") words.

(** The points a word is worth: those of its entry, none without one. *)
Definition points (w : WordFeedback) : Z :=
  match scoreMap (accuracy w) with
  | Entry points => points
  | Inherited | Missing => 0
  end.

Definition sum_points (words : list WordFeedback) : Z :=
  foldr (λ w total, points w + total)%Z 0%Z words.

(** The rating of the word does not name an inherited member. *)
Definition numeric (w : WordFeedback) : Prop :=
  scoreMap (accuracy w) ≠ Inherited.

(** The five fluency stars:
    [[...Array(5)].map((_, i) => i < result.fluency_score)]. *)
Definition stars (fluency_score : Z) : list bool :=
  map (λ i, bool_decide (Z.of_nat i < fluency_score)%Z) (seq 0 5).

End Report.

(** ** Data URLs

    Strings here are sequences of 8-bit characters, which is what MIME types
    and base64 text are made of. *)
Module DataURL.
Import Recorder.

Local Open Scope string_scope.

(** [`data:${audioData.mimeType};base64,${audioData.data}`] of
    [handleAudioReady]. *)
Definition dataUri (mimeType data : string) : string :=
  "data:" ++ mimeType ++ ";base64," ++ data.

(** [String.prototype.split] with a one-character separator. *)
Fixpoint split (separator : ascii) (s : string) : list string :=
  match s with
  | EmptyString => [EmptyString]
  | String c s' =>
      if (c =? separator)%char then EmptyString :: split separator s'
      else
        match split separator s' with
        | piece :: rest => String c piece :: rest
        | [] => [String c EmptyString]
        end
  end.

(** [(reader.result as string).split(',')[1]]; [None] is [undefined]. *)
Definition base64_part (result : string) : option string :=
  split "," result !! 1.

(** The characters that [.] does not match: the line terminators. *)
Definition is_line_terminator (c : ascii) : bool :=
  (c =? "010")%char || (c =? "013")%char.

(** No line terminator occurs in [s]. *)
Fixpoint one_line (s : string) : bool :=
  match s with
  | EmptyString => true
  | String c s' => negb (is_line_terminator c) && one_line s'
  end.

(** The longest prefix of [s] that the group can run over. *)
Fixpoint same_line (s : string) : string :=
  match s with
  | EmptyString => EmptyString
  | String c s' =>
      if is_line_terminator c then EmptyString else String c (same_line s')
  end.

(** What the group captures when the expression's group and its
    [;base64,] are matched at the start of [line]: the greedy star first
    takes the longest run and gives characters back until [;base64,]
    follows, so the capture ends at the last [;base64,] of the line. *)
Fixpoint greedy_capture (line : string) : option string :=
  match line with
  | EmptyString => None
  | String c line' =>
      match greedy_capture line' with
      | Some capture => Some (String c capture)
      | None => if String.prefix ";base64," line then Some EmptyString else None
      end
  end.

Definition drop_string (n : nat) (s : string) : string :=
  substring n (String.length s - n) s.

(** [s.match(...)] for the expression of [handleDownload] (the literal
    [data:], a group of any number of characters of one line, the literal
    [;base64,]): group 1 of the leftmost match, [None] when the expression
    does not match. *)
Fixpoint match_data_url (s : string) : option string :=
  let here :=
    if String.prefix "data:" s
    then greedy_capture (same_line (drop_string 5 s)) else None in
  match here with
  | Some capture => Some capture
  | None =>
      match s with
      | EmptyString => None
      | String _ s' => match_data_url s'
      end
  end.

(** [handleDownload]: the value given to [link.download]. *)
Definition download_name (audioURL : string) : string :=
  let mimeType :=
    match match_data_url audioURL with
    | Some group1 => group1
    | None => "audio/webm"
    end in
  let extension :=
    if includes "webm" mimeType then "webm"
    else if includes "mpeg" mimeType || includes "mp3" mimeType then "mp3"
    else "audio" in
  "speakwise_recording." ++ extension.

End DataURL.

(** ** The file uploader ([AudioUploader]) *)
Module Uploader.
Import Formatting DataURL.

Local Open Scope string_scope.

Definition MAX_FILE_SIZE_MB : N := 10.
Definition MAX_FILE_SIZE_BYTES : N := MAX_FILE_SIZE_MB * 1024 * 1024.

(** A [File] of the input's [FileList]. *)
Record File := { file_name : string; file_type : string; file_size : N }.

(** The argument of [onUploadComplete]; [data] is [None] when
    [split(',')[1]] is [undefined]. *)
Record AudioData := { data : option string; mimeType : string }.

(** The component's state, the [FileReader]s it has created (the file each
    one reads and whether it has finished), the calls of [onUploadComplete]
    made so far and the exceptions that escaped a handler. *)
Record State := {
  error : option string;
  fileName : option string;
  readers : list (File * bool);
  uploaded : list AudioData;
  uncaught : list string
}.

Definition initial : State :=
  {| error := None; fileName := None; readers := []; uploaded := [];
     uncaught := [] |}.

Definition setError (v : option string) (s : State) : State :=
  {| error := v; fileName := fileName s; readers := readers s;
     uploaded := uploaded s; uncaught := uncaught s |}.

Definition setFileName (v : option string) (s : State) : State :=
  {| error := error s; fileName := v; readers := readers s;
     uploaded := uploaded s; uncaught := uncaught s |}.

Definition set_readers (v : list (File * bool)) (s : State) : State :=
  {| error := error s; fileName := fileName s; readers := v;
     uploaded := uploaded s; uncaught := uncaught s |}.

Definition onUploadComplete (audioData : AudioData) (s : State) : State :=
  {| error := error s; fileName := fileName s; readers := readers s;
     uploaded := uploaded s ++ [audioData]; uncaught := uncaught s |}.

Definition throw (name : string) (s : State) : State :=
  {| error := error s; fileName := fileName s; readers := readers s;
     uploaded := uploaded s; uncaught := uncaught s ++ [name] |}.

(** [handleFileChange]; [files] is [event.target.files], which may be
    [null]. *)
Definition handleFileChange (files : option (list File)) (s : State) : State :=
  match files ≫= head with
  | None => s
  | Some file =>
      let s := setError None s in
      if negb (file_type file =? "audio/mpeg") then
        setFileName None
          (setError (Some "Invalid file type. Please upload an MP3 file.") s)
      else if (MAX_FILE_SIZE_BYTES <? file_size file)%N then
        setFileName None
          (setError (Some ("File is too large. Maximum size is " ++
                           toString (Z.of_N MAX_FILE_SIZE_MB) ++ "MB.")) s)
      else
        let s := setFileName (Some (file_name file)) s in
        set_readers (readers s ++ [(file, false)]) s
  end.

(** [reader.onloadend]; [result] is [reader.result], [null] after a failed
    read, and calling [split] on [null] raises a [TypeError]. *)
Definition onloadend (result : option string) (s : State) : State :=
  match result with
  | Some result =>
      onUploadComplete {| data := base64_part result; mimeType := "audio/mp3" |} s
  | None => throw "TypeError" s
  end.

(** [reader.onerror] *)
Definition onerror (s : State) : State :=
  setFileName None (setError (Some "Failed to read the file.") s).

(** The user picks files, or a read ends: with success ([load], then
    [loadend], the result being the data URL) or with failure ([error],
    then [loadend], the result being [null]).  A reader ends once. *)
Inductive Event :=
  | Change (files : option (list File))
  | Load (reader : nat) (result : string)
  | Fail (reader : nat).

Definition finish (reader : nat) (s : State) : State :=
  set_readers (alter (λ r, (r.1, true)) reader (readers s)) s.

Definition step (e : Event) (s : State) : State :=
  match e with
  | Change files => handleFileChange files s
  | Load reader result =>
      match readers s !! reader with
      | Some (_, false) => onloadend (Some result) (finish reader s)
      | _ => s
      end
  | Fail reader =>
      match readers s !! reader with
      | Some (_, false) => onloadend None (onerror (finish reader s))
      | _ => s
      end
  end.

Definition run (events : list Event) (s : State) : State :=
  foldl (λ s e, step e s) s events.

(** A file that [handleFileChange] hands to a reader. *)
Definition accepted (file : File) : Prop :=
  file_type file = "audio/mpeg" ∧ (file_size file ≤ 10485760)%N.

(** The number of readers that have finished. *)
Definition finished_reads (s : State) : nat :=
  length (filter (λ r, r.2 = true) (readers s)).

(** What holds of the uploader at all times. *)
Definition consistent (s : State) : Prop :=
  Forall (λ r, accepted r.1) (readers s) ∧
  Forall (λ a, mimeType a = "audio/mp3") (uploaded s) ∧
  Forall (λ name, name = "TypeError") (uncaught s) ∧
  length (uploaded s) + length (uncaught s) = finished_reads s ∧
  (error s = None ∨ fileName s = None).

End Uploader.

(** ** The speed of the spoken model ([useTTS]) *)
Module Speech.
Import Scorer.

(** [x + y] on numbers. *)
Definition add (x y : number) : number := SFadd prec emax x y.

(** [Math.min] and [Math.max] of two numbers: [NaN] as soon as one of them
    is [NaN]; [-0] counts as smaller than [+0]. *)
Definition Math_min (x y : number) : number :=
  match SFcompare x y with
  | None => S754_nan
  | Some Lt => x
  | Some Gt => y
  | Some Eq => match x with S754_zero false => y | _ => x end
  end.

Definition Math_max (x y : number) : number :=
  match SFcompare x y with
  | None => S754_nan
  | Some Lt => y
  | Some Gt => x
  | Some Eq => match x with S754_zero true => y | _ => x end
  end.

(** The literals [0.5], [2], [0.25], [-0.25] and [0.9] (the number nearest
    to nine tenths). *)
Definition half : number := S754_finite false 4503599627370496 (-53).
Definition two : number := S754_finite false 4503599627370496 (-51).
Definition quarter : number := S754_finite false 4503599627370496 (-54).
Definition minus_quarter : number := S754_finite true 4503599627370496 (-54).
Definition INITIAL_RATE : number := S754_finite false 8106479329266893 (-53).

(** [updateRate]: the value it stores in [rate]. *)
Definition updateRate (newRate : number) : number :=
  let clampedRate := Math_max half (Math_min two newRate) in
  clampedRate.

(** [changeRate] of the report, whose [setRate] is [updateRate]. *)
Definition changeRate (delta : number) (rate : number) : number :=
  updateRate (add rate delta).

(** The buttons Faster and Slower. *)
Inductive Press := Faster | Slower.

Definition press (rate : number) (p : Press) : number :=
  match p with
  | Faster => changeRate quarter rate
  | Slower => changeRate minus_quarter rate
  end.

(** [0.5 <= rate && rate <= 2], for a finite positive number. *)
Definition in_range (rate : number) : Prop :=
  (∃ m e, rate = S754_finite false m e) ∧
  SFleb half rate = true ∧ SFleb rate two = true.

End Speech.

(** ** The application ([App]) *)
Module App.
Import Scorer Report DataURL.

Local Open Scope string_scope.

(** [AppStatus] *)
Inductive AppStatus :=
  idle | recording | uploading | analyzing | results | error_status.

(** The fields of [AnalysisReport] that the application and the report
    compute with, in the shape that the schema given to the analysis service
    ([analysisSchema]) asks for: an integer, an array of words, a string. *)
Record AnalysisReport := {
  fluency_score : Z;
  word_by_word_feedback : list WordFeedback;
  transcription : jsstring
}.

(** The React state of [App] that [handleAudioReady], [resetState] and the
    results branch of [renderContent] read and write, and the number of
    calls of [analyzeSpeech] that have not answered yet. *)
Record State := {
  script : jsstring;
  status : AppStatus;
  analysis : option AnalysisReport;
  error : option string;
  audioURL : option string;
  apiKey : option string;
  analyses : nat
}.

(** The state at mount; [storedKey] is [localStorage.getItem('user-api-key')]. *)
Definition initial (storedKey : option string) : State :=
  {| script := []; status := idle; analysis := None; error := None;
     audioURL := None; apiKey := storedKey; analyses := 0 |}.

Definition setScript (v : jsstring) (s : State) : State :=
  {| script := v; status := status s; analysis := analysis s;
     error := error s; audioURL := audioURL s; apiKey := apiKey s;
     analyses := analyses s |}.

Definition setStatus (v : AppStatus) (s : State) : State :=
  {| script := script s; status := v; analysis := analysis s;
     error := error s; audioURL := audioURL s; apiKey := apiKey s;
     analyses := analyses s |}.

Definition setAnalysis (v : option AnalysisReport) (s : State) : State :=
  {| script := script s; status := status s; analysis := v;
     error := error s; audioURL := audioURL s; apiKey := apiKey s;
     analyses := analyses s |}.

Definition setError (v : option string) (s : State) : State :=
  {| script := script s; status := status s; analysis := analysis s;
     error := v; audioURL := audioURL s; apiKey := apiKey s;
     analyses := analyses s |}.

Definition setAudioURL (v : option string) (s : State) : State :=
  {| script := script s; status := status s; analysis := analysis s;
     error := error s; audioURL := v; apiKey := apiKey s;
     analyses := analyses s |}.

Definition setApiKey (v : option string) (s : State) : State :=
  {| script := script s; status := status s; analysis := analysis s;
     error := error s; audioURL := audioURL s; apiKey := v;
     analyses := analyses s |}.

Definition set_analyses (v : nat) (s : State) : State :=
  {| script := script s; status := status s; analysis := analysis s;
     error := error s; audioURL := audioURL s; apiKey := apiKey s;
     analyses := v |}.

(** [!apiKey]: the key is [null] or the empty string. *)
Definition no_key (key : option string) : bool :=
  match key with
  | Some key => key =? EmptyString
  | None => true
  end.

(** A value in a template literal; [undefined] prints as its name. *)
Definition interpolate (v : option string) : string :=
  match v with
  | Some v => v
  | None => "undefined"
  end.

(** [handleAudioReady] up to its [await].  [script] and [apiKey] are the
    values its closure captured. *)
Definition handleAudioReady_begin (closure_script : jsstring)
    (closure_apiKey : option string) (audioData : Uploader.AudioData)
    (s : State) : State :=
  if decide (trim closure_script = []) then
    setStatus error_status
      (setError (Some "Please provide a script to analyze against.") s)
  else if no_key closure_apiKey then
    setStatus error_status
      (setError (Some "Please enter your Google Gemini API key to proceed.") s)
  else
    let dataUri :=
      dataUri (Uploader.mimeType audioData)
              (interpolate (Uploader.data audioData)) in
    let s := setAudioURL (Some dataUri) s in
    let s := setStatus analyzing s in
    let s := setError None s in
    let s := setAnalysis None s in
    set_analyses (S (analyses s)) s.

(** How a call of [analyzeSpeech] ends. *)
Inductive Outcome :=
  | Returned (result : option AnalysisReport)
  | Threw (err : Recorder.Thrown).

(** The [catch] block of [handleAudioReady]. *)
Definition handleAudioReady_catch (err : Recorder.Thrown) (s : State) : State :=
  let errorMessage :=
    match err with
    | Recorder.JsError _ message => message
    | Recorder.JsValue _ | Recorder.JsFalsy =>
        "An unknown error occurred during analysis."
    end in
  setStatus error_status (setError (Some ("Analysis Failed: " ++ errorMessage)) s).

(** [handleAudioReady] from its [await] on. *)
Definition handleAudioReady_resume (o : Outcome) (s : State) : State :=
  let s := set_analyses (pred (analyses s)) s in
  match o with
  | Returned (Some result) =>
      if decide (0 < length (word_by_word_feedback result))
      then setStatus results (setAnalysis (Some result) s)
      else handleAudioReady_catch
             (Recorder.JsError "Error"
                "Analysis returned an empty or invalid result. Please try again.")
             s
  | Returned None =>
      handleAudioReady_catch
        (Recorder.JsError "Error"
           "Analysis returned an empty or invalid result. Please try again.")
        s
  | Threw err => handleAudioReady_catch err s
  end.

(** [resetState] *)
Definition resetState (s : State) : State :=
  setAudioURL None (setError None (setAnalysis None (setStatus idle s))).

(** What the user and the analysis service can do. *)
Inductive Event :=
  | ChangeScript (v : jsstring)
  | SetApiKey (key : string)
  | PressRecord
  | PressUpload
  | PressCancel
  | AudioReady (closure_script : jsstring) (closure_apiKey : option string)
               (audioData : Uploader.AudioData)
  | Analysed (o : Outcome)
  | Reset.

Definition step (e : Event) (s : State) : State :=
  match e with
  | ChangeScript v => setScript v s
  | SetApiKey key => setApiKey (Some key) s
  | PressRecord => setStatus recording s
  | PressUpload => setStatus uploading s
  | PressCancel => setStatus idle s
  | AudioReady closure_script closure_apiKey audioData =>
      handleAudioReady_begin closure_script closure_apiKey audioData s
  | Analysed o =>
      if decide (analyses s = 0) then s else handleAudioReady_resume o s
  | Reset => resetState s
  end.

Definition run (events : list Event) (s : State) : State :=
  foldl (λ s e, step e s) s events.

(** The props [result] and [audioURL] that the results branch of
    [renderContent] gives to [AnalysisResult], when it renders one (the
    key is set; the settings panel, which would hide it, is closed). *)
Definition shown_report (s : State) : option (AnalysisReport * string) :=
  if no_key (apiKey s) then None
  else
    match status s with
    | results =>
        match analysis s, audioURL s with
        | Some result, Some audioURL => Some (result, audioURL)
        | _, _ => None
        end
    | _ => None
    end.

(** What holds of the application at all times. *)
Definition sound (s : State) : Prop :=
  (∀ result, analysis s = Some result → word_by_word_feedback result ≠ []) ∧
  (∀ url, audioURL s = Some url → ∃ mimeType data, url = dataUri mimeType data) ∧
  (status s = results → is_Some (analysis s)).

End App.

(** ** Notions about the recording controller *)
Module RecorderNotions.
Import Recorder.

(** The refs point into the objects created so far: [mediaRecorderRef] at
    the last recorder created (it is [null] only before the first one),
    [streamRef] and the recorders' closures at existing streams. *)
Definition refs_valid (s : State) : Prop :=
  match mediaRecorderRef s with
  | None => recorders s = []
  | Some r => S r = length (recorders s)
  end ∧
  (∀ sid, streamRef s = Some sid → sid < length (streams s)) ∧
  Forall (λ rec, rec_stream rec < length (streams s)) (recorders s).

(** No [TypeError] has escaped. *)
Definition no_TypeError (s : State) : Prop :=
  Forall (λ name, name ≠ "TypeError"%string) (uncaught s).

(** The state the hook can be in. *)
Definition well_formed (s : State) : Prop := refs_valid s ∧ no_TypeError s.

(** Recorder [r] exists and satisfies [P]. *)
Definition keeps (P : MediaRecorder → Prop) (r : nat) (s : State) : Prop :=
  ∃ rec, recorders s !! r = Some rec ∧ P rec.


End RecorderNotions.
(** ** Inputs of the worked examples *)
Module Samples.

Local Open Scope string_scope.

(** A report of two words, one [Poor] and one [Fair]. *)
Definition two_words : list Report.WordFeedback :=
  [{| Report.word := "rural"; Report.accuracy := "Poor" |};
   {| Report.word := "juror"; Report.accuracy := "Fair" |}].

(** Two words spoken flawlessly. *)
Definition fluent_words : list Report.WordFeedback :=
  [{| Report.word := "red"; Report.accuracy := "Excellent" |};
   {| Report.word := "lorry"; Report.accuracy := "Excellent" |}].

Definition two_word_report : App.AnalysisReport :=
  {| App.fluency_score := 3; App.word_by_word_feedback := two_words;
     App.transcription := Scorer.utf16 "rural juror" |}.

(** An MP3 file of one mebibyte. *)
Definition song : Uploader.File :=
  {| Uploader.file_name := "song.mp3"; Uploader.file_type := "audio/mpeg";
     Uploader.file_size := 1048576 |}.

(** The user types a script, records, and the analysis answers. *)
Definition report_session : list App.Event :=
  [App.ChangeScript (Scorer.utf16 "rural juror");
   App.PressRecord;
   App.AudioReady (Scorer.utf16 "rural juror") (Some "key")
     {| Uploader.data := Some "AAAA"; Uploader.mimeType := "audio/webm" |};
   App.Analysed (App.Returned (Some two_word_report))].

End Samples.

(** * Properties *)

(** ** The edit distance computed by the table *)
Module Levenshtein.
Import Scorer.

Section LevFacts.
Context {A : Type} `{EqDecision A}.
Implicit Types a b c : list A.

Lemma lev_nil_l b : lev [] b = length b.
Proof. reflexivity. Qed.

Lemma lev_nil_r a : lev a [] = length a.
Proof. by destruct a. Qed.

Lemma lev_cons_cons x y a b :
  lev (x :: a) (y :: b) =
  min3 (lev a (y :: b) + 1) (lev (x :: a) b + 1)
       (lev a b + (if decide (x = y) then 0 else 1)).
Proof. reflexivity. Qed.

Lemma lev_sym a b : lev a b = lev b a.
Proof.
  revert b. induction a as [|x a IHa]; intros b.
  - by rewrite lev_nil_l, lev_nil_r.
  - induction b as [|y b IHb].
    + by rewrite lev_nil_l, lev_nil_r.
    + rewrite !lev_cons_cons, IHb, !IHa. unfold min3.
      destruct (decide (x = y)), (decide (y = x)); try congruence; lia.
Qed.

Lemma lev_le_max a b : lev a b ≤ Nat.max (length a) (length b).
Proof.
  revert b. induction a as [|x a IHa]; intros b.
  - rewrite lev_nil_l. lia.
  - destruct b as [|y b].
    + rewrite lev_nil_r. lia.
    + rewrite lev_cons_cons. specialize (IHa b). unfold min3. simpl length.
      destruct (decide (x = y)); lia.
Qed.

(** Dropping or adding a leading character moves the distance by at most one. *)
Lemma lev_cons_l_le x a c : lev (x :: a) c ≤ S (lev a c).
Proof.
  destruct c as [|z c].
  - rewrite !lev_nil_r. simpl. lia.
  - rewrite lev_cons_cons. unfold min3. lia.
Qed.

Lemma lev_cons_r_le y a c : lev a (y :: c) ≤ S (lev a c).
Proof. rewrite (lev_sym a (y :: c)), (lev_sym a c). apply lev_cons_l_le. Qed.

Lemma lev_uncons_l_le x a c : lev a c ≤ S (lev (x :: a) c).
Proof.
  induction c as [|z c IH].
  - rewrite !lev_nil_r. simpl. lia.
  - rewrite lev_cons_cons. unfold min3.
    pose proof (lev_cons_r_le z a c).
    destruct (decide (x = z)); lia.
Qed.

Lemma lev_subst_l_le x y a c : lev (x :: a) c ≤ S (lev (y :: a) c).
Proof.
  induction c as [|z c IH].
  - rewrite !lev_nil_r. simpl. lia.
  - rewrite !lev_cons_cons. unfold min3.
    destruct (decide (x = z)), (decide (y = z)); lia.
Qed.

Lemma lev_cons_both_le h a b :
  (∀ c, lev a c ≤ S (lev b c)) → ∀ c, lev (h :: a) c ≤ S (lev (h :: b) c).
Proof.
  intros Hab c. induction c as [|z c IH].
  - rewrite !lev_nil_r. specialize (Hab []). rewrite !lev_nil_r in Hab.
    simpl. lia.
  - rewrite !lev_cons_cons. unfold min3.
    pose proof (Hab (z :: c)). pose proof (Hab c).
    destruct (decide (h = z)); lia.
Qed.

Lemma lev_edit1 a b : edit1 a b → ∀ c, lev a c ≤ S (lev b c).
Proof.
  intros Hab. destruct Hab as [l x r|l x r|l x y r];
    (induction l as [|h l IH]; [simpl app|simpl app; by apply lev_cons_both_le]).
  - intros c. apply lev_uncons_l_le.
  - intros c. apply lev_cons_l_le.
  - intros c. apply lev_subst_l_le.
Qed.

Lemma lev_lower_bound n a b : edits n a b → lev a b ≤ n.
Proof.
  induction 1 as [a|n a b c Hab Hbc IH].
  - induction a as [|x a IHa]; [done|].
    rewrite lev_cons_cons. unfold min3. rewrite decide_True by done. lia.
  - pose proof (lev_edit1 a b Hab c). lia.
Qed.

Lemma edit1_cons h a b : edit1 a b → edit1 (h :: a) (h :: b).
Proof.
  destruct 1 as [l x r|l x r|l x y r].
  - apply (edit1_insert (h :: l)).
  - apply (edit1_delete (h :: l)).
  - apply (edit1_substitute (h :: l)).
Qed.

Lemma edits_cons h n a b : edits n a b → edits n (h :: a) (h :: b).
Proof.
  induction 1 as [a|n a b c Hab Hbc IH]; [constructor|].
  eapply edits_step; [by apply edit1_cons|done].
Qed.

Lemma edits_delete_all a : edits (length a) a [].
Proof.
  induction a as [|x a IH]; [constructor|].
  simpl. eapply edits_step; [apply (edit1_delete [] x a)|done].
Qed.

Lemma edits_insert_all b : edits (length b) [] b.
Proof.
  induction b as [|y b IH]; [constructor|].
  simpl. eapply edits_step; [apply (edit1_insert [] y [])|].
  simpl. by apply edits_cons.
Qed.

Lemma lev_edits a b : edits (lev a b) a b.
Proof.
  revert b. induction a as [|x a IHa]; intros b.
  - rewrite lev_nil_l. apply edits_insert_all.
  - induction b as [|y b IHb].
    + rewrite lev_nil_r. apply edits_delete_all.
    + rewrite lev_cons_cons. unfold min3.
      destruct (Nat.min_spec (lev a (y :: b) + 1)
                  (Nat.min (lev (x :: a) b + 1)
                     (lev a b + (if decide (x = y) then 0 else 1))))
        as [[_ ->]|[_ ->]].
      * rewrite Nat.add_1_r.
        eapply edits_step; [apply (edit1_delete [] x a)|apply IHa].
      * destruct (Nat.min_spec (lev (x :: a) b + 1)
                    (lev a b + (if decide (x = y) then 0 else 1)))
          as [[_ ->]|[_ ->]].
        -- rewrite Nat.add_1_r.
           eapply edits_step; [apply (edit1_insert [] y (x :: a))|].
           simpl. by apply edits_cons.
        -- destruct (decide (x = y)) as [->|Hxy].
           ++ rewrite Nat.add_0_r. apply edits_cons, IHa.
           ++ rewrite Nat.add_1_r.
              eapply edits_step; [apply (edit1_substitute [] x y a)|].
              simpl. apply edits_cons, IHa.
Qed.

Lemma lev_is_edit_distance a b : is_edit_distance a b (lev a b).
Proof. split; [apply lev_edits|intros n; apply lev_lower_bound]. Qed.

Lemma is_edit_distance_unique a b d d' :
  is_edit_distance a b d → is_edit_distance a b d' → d = d'.
Proof. intros [H1 H2] [H3 H4]. apply H2 in H3. apply H4 in H1. lia. Qed.

Lemma edit1_rev a b : edit1 a b → edit1 (rev a) (rev b).
Proof.
  destruct 1 as [l x r|l x r|l x y r];
    rewrite ?rev_app_distr; simpl; rewrite ?rev_app_distr, <- ?app_assoc; simpl.
  - apply (edit1_insert (rev r) x (rev l)).
  - apply (edit1_delete (rev r) x (rev l)).
  - apply (edit1_substitute (rev r) x y (rev l)).
Qed.

Lemma edits_rev n a b : edits n a b → edits n (rev a) (rev b).
Proof.
  induction 1 as [a|n a b c Hab Hbc IH]; [constructor|].
  eapply edits_step; [by apply edit1_rev|done].
Qed.

Lemma lev_rev a b : lev (rev a) (rev b) = lev a b.
Proof.
  apply Nat.le_antisymm.
  - apply lev_lower_bound, edits_rev, lev_edits.
  - rewrite <- (rev_involutive a), <- (rev_involutive b) at 1.
    apply lev_lower_bound, edits_rev, lev_edits.
Qed.

End LevFacts.

Lemma for_range_inv {S : Type} (I : nat → S → Prop) lo n body (s : S) :
  I lo s →
  (∀ k s, lo ≤ k < lo + n → I k s → ∃ s', body k s = Some s' ∧ I (Datatypes.S k) s') →
  ∃ s', for_range lo n body s = Some s' ∧ I (lo + n) s'.
Proof.
  revert lo s. induction n as [|n IH]; intros lo s Hs Hbody.
  - exists s. rewrite Nat.add_0_r. done.
  - destruct (Hbody lo s) as (s1 & Hs1 & HI1); [lia|done|].
    destruct (IH (Datatypes.S lo) s1) as (s2 & Hs2 & HI2); [done| |].
    + intros k s' Hk. apply Hbody. lia.
    + exists s2. simpl. rewrite Hs1. simpl. rewrite Hs2.
      by replace (lo + Datatypes.S n) with (Datatypes.S lo + n) by lia.
Qed.

Section Table.
Context {A : Type} `{EqDecision A}.
Implicit Types a b : list A.

Lemma new_matrix_shape la lb : table_shape la lb (new_matrix (lb + 1) (la + 1)).
Proof.
  split; [apply length_replicate|].
  intros j row [-> _]%lookup_replicate. apply length_replicate.
Qed.

Lemma write_spec la lb m j i v :
  table_shape la lb m → j ≤ lb → i ≤ la →
  ∃ m', write m j i v = Some m' ∧ table_shape la lb m' ∧
        read m' j i = Some v ∧
        ∀ j' i', (j', i') ≠ (j, i) → read m' j' i' = read m j' i'.
Proof.
  intros [Hlen Hrows] Hj Hi.
  destruct (lookup_lt_is_Some_2 m j) as [row Hrow]; [lia|].
  pose proof (Hrows _ _ Hrow) as Hrl.
  exists (<[j := <[i := Some v]> row]> m). unfold write. rewrite Hrow. simpl.
  rewrite decide_True by lia. split; [done|]. split; [|split].
  - split; [by rewrite length_insert|].
    intros j' row'. destruct (decide (j = j')) as [<-|Hne].
    + rewrite list_lookup_insert_eq by lia. intros [= <-].
      by rewrite length_insert.
    + rewrite list_lookup_insert_ne by done. apply Hrows.
  - unfold read. rewrite list_lookup_insert_eq by lia. simpl.
    rewrite list_lookup_insert_eq by lia. done.
  - intros j' i' Hne. unfold read.
    destruct (decide (j = j')) as [<-|Hj'].
    + rewrite list_lookup_insert_eq by lia. rewrite Hrow. simpl.
      rewrite list_lookup_insert_ne by congruence. done.
    + by rewrite list_lookup_insert_ne.
Qed.

Lemma D_0_l a b j : j ≤ length b → D a b 0 j = j.
Proof.
  intros Hj. unfold D. rewrite take_0. simpl.
  rewrite length_rev, length_take. lia.
Qed.

Lemma D_0_r a b i : i ≤ length a → D a b i 0 = i.
Proof.
  intros Hi. unfold D. rewrite (take_0 b). simpl. rewrite lev_nil_r.
  rewrite length_rev, length_take. lia.
Qed.

Lemma D_full a b : D a b (length a) (length b) = lev a b.
Proof. unfold D. rewrite !firstn_all. apply lev_rev. Qed.

Lemma D_step a b i j :
  1 ≤ i ≤ length a → 1 ≤ j ≤ length b →
  D a b i j =
  min3 (D a b (i - 1) j + 1) (D a b i (j - 1) + 1)
       (D a b (i - 1) (j - 1) + substitutionCost a b i j).
Proof.
  intros Hi Hj. unfold D, substitutionCost.
  destruct i as [|i]; [lia|]. destruct j as [|j]; [lia|].
  replace (Datatypes.S i - 1) with i by lia.
  replace (Datatypes.S j - 1) with j by lia.
  destruct (lookup_lt_is_Some_2 a i) as [x Hx]; [lia|].
  destruct (lookup_lt_is_Some_2 b j) as [y Hy]; [lia|].
  rewrite (take_S_r a i x Hx), (take_S_r b j y Hy), !rev_unit, Hx, Hy.
  rewrite lev_cons_cons.
  destruct (decide (x = y)), (decide (Some x = Some y)); congruence.
Qed.

Lemma first_row_ok a b :
  ∃ m, for_range 0 (length a + 1) (λ i m, write m 0 i i)
         (new_matrix (length b + 1) (length a + 1)) = Some m ∧
       table_shape (length a) (length b) m ∧
       filled a b (λ j i, j = 0) m.
Proof.
  destruct (for_range_inv
    (λ k m, table_shape (length a) (length b) m ∧
            filled a b (λ j i, j = 0 ∧ i < k) m)
    0 (length a + 1) (λ i m, write m 0 i i)
    (new_matrix (length b + 1) (length a + 1))) as (m & Hm & Hsh & Hf).
  - split; [apply new_matrix_shape|]. intros j i _ _ [_ ?]. lia.
  - intros k m Hk [Hsh Hf].
    destruct (write_spec _ _ m 0 k k Hsh) as (m' & Hw & Hsh' & Hr & Ho);
      [lia|lia|].
    exists m'. split; [done|]. split; [done|].
    intros j i Hj Hi [-> Hlt]. destruct (decide (i = k)) as [-> | Hne].
    + rewrite Hr, D_0_r by lia. done.
    + rewrite Ho by congruence. apply Hf; [lia|lia|]. split; [done|lia].
  - exists m. split; [done|]. split; [done|].
    intros j i Hj Hi ->. apply Hf; [lia|lia|]. split; [done|lia].
Qed.

Lemma first_column_ok a b m :
  table_shape (length a) (length b) m → filled a b (λ j i, j = 0) m →
  ∃ m', for_range 0 (length b + 1) (λ j m, write m j 0 j) m = Some m' ∧
        table_shape (length a) (length b) m' ∧
        filled a b (λ j i, j = 0 ∨ i = 0) m'.
Proof.
  intros Hsh0 Hf0.
  destruct (for_range_inv
    (λ k m, table_shape (length a) (length b) m ∧
            filled a b (λ j i, j = 0 ∨ (i = 0 ∧ j < k)) m)
    0 (length b + 1) (λ j m, write m j 0 j) m) as (m' & Hm & Hsh & Hf).
  - split; [done|]. intros j i Hj Hi [->|[_ ?]]; [by apply Hf0|lia].
  - intros k m1 Hk [Hsh Hf].
    destruct (write_spec _ _ m1 k 0 k Hsh) as (m' & Hw & Hsh' & Hr & Ho);
      [lia|lia|].
    exists m'. split; [done|]. split; [done|].
    intros j i Hj Hi HP.
    destruct (decide ((j, i) = (k, 0))) as [[= -> ->]|Hne].
    + rewrite Hr, D_0_l by lia. done.
    + rewrite Ho by done. apply Hf; [lia|lia|].
      destruct HP as [-> | [-> Hlt]]; [by left|right].
      split; [done|]. destruct (decide (j = k)) as [-> | ]; [congruence|lia].
  - exists m'. split; [done|]. split; [done|].
    intros j i Hj Hi [-> | ->]; (apply Hf; [lia|lia|]); [by left|right; lia].
Qed.

Lemma fill_cell_ok a b j i m :
  1 ≤ j ≤ length b → 1 ≤ i ≤ length a →
  table_shape (length a) (length b) m → filled a b (known j i) m →
  ∃ m', fill_cell a b j i m = Some m' ∧
        table_shape (length a) (length b) m' ∧
        filled a b (known j (Datatypes.S i)) m'.
Proof.
  intros Hj Hi Hsh Hf. unfold fill_cell.
  rewrite (Hf j (i - 1)) by (unfold known; lia). simpl.
  rewrite (Hf (j - 1) i) by (unfold known; lia). simpl.
  rewrite (Hf (j - 1) (i - 1)) by (unfold known; lia). simpl.
  rewrite <- D_step by done.
  destruct (write_spec _ _ m j i (D a b i j) Hsh) as (m' & Hw & Hsh' & Hr & Ho);
    [lia|lia|].
  exists m'. split; [done|]. split; [done|].
  intros j' i' Hj' Hi' HP.
  destruct (decide ((j', i') = (j, i))) as [[= -> ->]|Hne]; [done|].
  rewrite Ho by done. apply Hf; [done|done|].
  unfold known in *.
  destruct (decide (j' = j)) as [-> | ]; [|lia].
  destruct (decide (i' = i)) as [-> | ]; [congruence|lia].
Qed.

Lemma fill_row_ok a b j m :
  1 ≤ j ≤ length b →
  table_shape (length a) (length b) m → filled a b (known j 1) m →
  ∃ m', for_range 1 (length a) (fill_cell a b j) m = Some m' ∧
        table_shape (length a) (length b) m' ∧
        filled a b (known (Datatypes.S j) 1) m'.
Proof.
  intros Hj Hsh0 Hf0.
  destruct (for_range_inv
    (λ k m, table_shape (length a) (length b) m ∧ filled a b (known j k) m)
    1 (length a) (fill_cell a b j) m) as (m' & Hm & Hsh & Hf).
  - done.
  - intros k m1 Hk [Hsh Hf]. apply fill_cell_ok; [done|lia|done|done].
  - exists m'. split; [done|]. split; [done|].
    intros j' i' Hj' Hi' HP. apply Hf; [done|done|]. unfold known in *. lia.
Qed.

Lemma fill_table_ok a b m :
  table_shape (length a) (length b) m → filled a b (λ j i, j = 0 ∨ i = 0) m →
  ∃ m', for_range 1 (length b)
          (λ j m, for_range 1 (length a) (fill_cell a b j) m) m = Some m' ∧
        filled a b (λ _ _, True) m'.
Proof.
  intros Hsh0 Hf0.
  destruct (for_range_inv
    (λ k m, table_shape (length a) (length b) m ∧ filled a b (known k 1) m)
    1 (length b) (λ j m, for_range 1 (length a) (fill_cell a b j) m) m)
    as (m' & Hm & Hsh & Hf).
  - split; [done|]. intros j i Hj Hi HP. apply Hf0; [done|done|].
    unfold known in HP. lia.
  - intros k m1 Hk [Hsh Hf]. apply fill_row_ok; [lia|done|done].
  - exists m'. split; [done|].
    intros j i Hj Hi _. apply Hf; [done|done|]. unfold known. lia.
Qed.

Theorem calculateLevenshteinDistance_lev a b :
  calculateLevenshteinDistance a b = Some (lev a b).
Proof.
  unfold calculateLevenshteinDistance.
  destruct (decide (length a = 0)) as [Ha|Ha].
  { apply nil_length_inv in Ha as ->. done. }
  destruct (decide (length b = 0)) as [Hb|Hb].
  { apply nil_length_inv in Hb as ->. by rewrite lev_nil_r. }
  destruct (first_row_ok a b) as (m1 & E1 & Hsh1 & Hf1).
  rewrite E1. simpl.
  destruct (first_column_ok a b m1 Hsh1 Hf1) as (m2 & E2 & Hsh2 & Hf2).
  rewrite E2. simpl.
  destruct (fill_table_ok a b m2 Hsh2 Hf2) as (m3 & E3 & Hf3).
  rewrite E3. simpl.
  rewrite Hf3 by done. by rewrite D_full.
Qed.

(** The value the table yields is the least number of edits. *)
Lemma distance_from_table a b d :
  calculateLevenshteinDistance a b = Some d → is_edit_distance a b d.
Proof.
  rewrite calculateLevenshteinDistance_lev. intros [= <-].
  apply lev_is_edit_distance.
Qed.

End Table.

End Levenshtein.

(** ** Rounding of binary64 numbers *)
Module Rounding.
Import Scorer.
Local Open Scope Z_scope.

Lemma bpow_pos e : (0 < bpow e)%Q.
Proof. apply Qpower_0_lt. reflexivity. Qed.

Lemma bpow_add a b : (bpow (a + b) == bpow a * bpow b)%Q.
Proof. apply Qpower_plus. discriminate. Qed.

Lemma bpow_succ e : (bpow (e + 1) == 2 * bpow e)%Q.
Proof. rewrite bpow_add. unfold bpow at 2. simpl. lra. Qed.

Lemma bpow_inject n : 0 ≤ n → (bpow n == inject_Z (2 ^ n))%Q.
Proof. intros Hn. unfold bpow. by rewrite Zpower_Qpower. Qed.

Lemma shr_1_nonneg m r s :
  0 ≤ m →
  shr_1 (Build_shr_record m r s) = Build_shr_record (m / 2) (Z.odd m) (r || s).
Proof.
  intros Hm. rewrite <- Z.div2_div.
  destruct m as [|[p|p|]|p]; try reflexivity. lia.
Qed.

Lemma F2Q_half m e :
  (F2Q (m / 2) (e + 1) == F2Q m e - (if Z.odd m then bpow e else 0))%Q.
Proof.
  unfold F2Q. rewrite bpow_succ.
  assert (Hinj : (inject_Z m ==
                  2 * inject_Z (m / 2) + (if Z.odd m then 1 else 0))%Q).
  { pose proof (Z.div2_odd m) as Hdiv. rewrite Z.div2_div in Hdiv.
    rewrite Hdiv at 1. rewrite inject_Z_plus, inject_Z_mult.
    destruct (Z.odd m); reflexivity. }
  rewrite Hinj. destruct (Z.odd m); ring.
Qed.

Lemma shr_1_located v r e :
  rec_located v r e → rec_located v (shr_1 r) (e + 1).
Proof.
  destruct r as [m r s]. intros [Hm [[Hlo Hhi] Hl]]. simpl in Hm, Hlo, Hhi, Hl.
  rewrite shr_1_nonneg by done. split; simpl.
  { apply Z.div_pos; lia. }
  pose proof (bpow_pos e) as Hpos. pose proof (bpow_succ e) as Hsucc.
  pose proof (F2Q_half m e) as Hhalf.
  assert (Hexact : (r || s = false → v == F2Q m e)%Q).
  { destruct r, s; simpl; try discriminate. intros _. exact Hl. }
  assert (Hinexact : (r || s = true → ¬ v == F2Q m e)%Q).
  { destruct r, s; simpl; try discriminate; intros _; apply Hl. }
  assert (Hstrict : r || s = true → (F2Q m e < v)%Q).
  { intros H. specialize (Hinexact H).
    destruct (Qle_lt_or_eq _ _ Hlo) as [?|Heq]; [done|].
    by rewrite Heq in Hinexact. }
  clear Hl. unfold located.
  destruct (Z.odd m); destruct (r || s); simpl;
    [specialize (Hstrict eq_refl)|specialize (Hexact eq_refl)
    |specialize (Hstrict eq_refl)|specialize (Hexact eq_refl)];
    rewrite ?Qgt_alt', ?Qeq_alt', ?Qlt_alt'.
  all: rewrite <- ?Qgt_alt, <- ?Qeq_alt, <- ?Qlt_alt.
  all: rewrite ?Hhalf, ?Hsucc.
  all: repeat split; lra.
Qed.

Lemma iter_pos_located v p : ∀ r e,
  rec_located v r e → rec_located v (SpecFloat.iter_pos shr_1 p r) (e + Zpos p).
Proof.
  induction p as [p IH|p IH|]; intros r e Hr; simpl.
  - replace (e + Z.pos p~1) with (e + 1 + Z.pos p + Z.pos p) by lia.
    by apply IH, IH, shr_1_located.
  - replace (e + Z.pos p~0) with (e + Z.pos p + Z.pos p) by lia.
    by apply IH, IH.
  - by apply shr_1_located.
Qed.

Lemma shr_1_m r : 0 ≤ shr_m r → shr_m (shr_1 r) = shr_m r / 2.
Proof.
  destruct r as [m r s]. intros Hm. simpl in Hm.
  by rewrite shr_1_nonneg.
Qed.

Lemma iter_pos_m p : ∀ r,
  0 ≤ shr_m r → shr_m (SpecFloat.iter_pos shr_1 p r) = shr_m r / 2 ^ Zpos p.
Proof.
  assert (Hnn : ∀ p r, 0 ≤ shr_m r → 0 ≤ shr_m (SpecFloat.iter_pos shr_1 p r)).
  { clear. induction p as [p IH|p IH|]; intros r Hr; simpl.
    - apply IH, IH. rewrite shr_1_m by done. apply Z.div_pos; lia.
    - by apply IH, IH.
    - rewrite shr_1_m by done. apply Z.div_pos; lia. }
  induction p as [p IH|p IH|]; intros r Hr; simpl.
  - rewrite IH, IH, shr_1_m; try done.
    + rewrite !Z.div_div by lia. f_equal.
      replace (Z.pos p~1) with (1 + Z.pos p + Z.pos p) by lia.
      rewrite !Z.pow_add_r, Z.pow_1_r by lia. ring.
    + rewrite shr_1_m by done. apply Z.div_pos; lia.
    + apply Hnn. rewrite shr_1_m by done. apply Z.div_pos; lia.
  - rewrite IH, IH; try done.
    + rewrite !Z.div_div by lia. f_equal.
      replace (Z.pos p~0) with (Z.pos p + Z.pos p) by lia.
      rewrite !Z.pow_add_r by lia. ring.
    + by apply Hnn.
  - rewrite shr_1_m by done. by rewrite Z.pow_1_r.
Qed.

Lemma shr_record_of_loc_m m l : shr_m (shr_record_of_loc m l) = m.
Proof. by destruct l as [|[]]. Qed.

Lemma loc_of_shr_record_of_loc m l :
  loc_of_shr_record (shr_record_of_loc m l) = l.
Proof. by destruct l as [|[]]. Qed.

(** The binary64 exponent function. *)
Lemma fexp_eq x : fexp prec emax x = Z.max (x - 53) (-1074).
Proof. reflexivity. Qed.

Lemma shr_fexp_located v m e l :
  0 ≤ m → located v m e l →
  ∃ r' e', shr_fexp prec emax m e l = (r', e') ∧
           rec_located v r' e' ∧
           e' = Z.max e (fexp prec emax (Zdigits2 m + e)) ∧
           shr_m r' = m / 2 ^ (e' - e).
Proof.
  intros Hm Hl. unfold shr_fexp, shr.
  assert (Hr : rec_located v (shr_record_of_loc m l) e).
  { split; [by rewrite shr_record_of_loc_m|].
    by rewrite shr_record_of_loc_m, loc_of_shr_record_of_loc. }
  destruct (fexp prec emax (Zdigits2 m + e) - e) as [|p|p] eqn:Hn.
  - eexists _, _. split; [done|]. split; [done|]. split; [lia|].
    rewrite shr_record_of_loc_m, Z.sub_diag. simpl. by rewrite Z.div_1_r.
  - eexists _, _. split; [done|]. split; [by apply iter_pos_located|].
    split; [lia|].
    rewrite iter_pos_m, shr_record_of_loc_m by (by rewrite shr_record_of_loc_m).
    do 2 f_equal. lia.
  - eexists _, _. split; [done|]. split; [done|]. split; [lia|].
    rewrite shr_record_of_loc_m, Z.sub_diag. simpl. by rewrite Z.div_1_r.
Qed.

Lemma F2Q_succ m e : (F2Q (m + 1) e == F2Q m e + bpow e)%Q.
Proof. unfold F2Q. rewrite inject_Z_plus. ring. Qed.

(** Rounding to nearest picks one end of the slot, within half a unit. *)
Lemma round_nearest_even_located v f e l :
  located v f e l →
  let M := round_nearest_even f l in
  (M = f ∨ M = f + 1) ∧
  (l = loc_Exact → M = f) ∧
  (M = f + 1 → (F2Q f e < v)%Q) ∧
  (F2Q M e - (1 # 2) * bpow e <= v ∧ v <= F2Q M e + (1 # 2) * bpow e)%Q.
Proof.
  intros [[Hlo Hhi] Hl]. pose proof (bpow_pos e) as Hpos.
  pose proof (F2Q_succ f e) as Hsucc.
  assert (Hstrict : l ≠ loc_Exact → (F2Q f e < v)%Q).
  { destruct l as [|c]; [done|]. intros _. destruct Hl as [Hne _].
    destruct (Qle_lt_or_eq _ _ Hlo) as [?|Heq]; [done|].
    by rewrite Heq in Hne. }
  destruct l as [|[]]; simpl.
  - split; [by left|]. split; [done|]. split; [lia|]. lra.
  - destruct Hl as [_ Hc%Qeq_alt].
    destruct (Z.even f).
    + split; [by left|]. split; [done|]. split; [lia|]. lra.
    + split; [by right|]. split; [done|]. split; [intros _; by apply Hstrict|].
      rewrite Hsucc. lra.
  - destruct Hl as [_ Hc%Qlt_alt].
    split; [by left|]. split; [done|]. split; [lia|]. lra.
  - destruct Hl as [_ Hc%Qgt_alt].
    split; [by right|]. split; [done|]. split; [intros _; by apply Hstrict|].
    rewrite Hsucc. lra.
Qed.

Lemma digits2_pos_size p : digits2_pos p = Pos.size p.
Proof. induction p; simpl; congruence. Qed.

Lemma Zdigits2_bounds m :
  0 < m → 2 ^ (Zdigits2 m - 1) ≤ m < 2 ^ Zdigits2 m.
Proof.
  destruct m as [|p|p]; try lia. intros _. simpl. rewrite digits2_pos_size.
  pose proof (Pos.size_gt p) as Hgt. pose proof (Pos.size_le p) as Hle.
  split.
  - assert (2 ^ Z.pos (Pos.size p) ≤ 2 * Z.pos p) as H.
    { rewrite <- Pos2Z.inj_pow. lia. }
    replace (Z.pos (Pos.size p)) with (Z.pos (Pos.size p) - 1 + 1) in H by lia.
    rewrite Z.pow_add_r in H by lia. lia.
  - rewrite <- Pos2Z.inj_pow. lia.
Qed.

Lemma Zdigits2_unique m d :
  2 ^ (d - 1) ≤ m < 2 ^ d → 0 < d → Zdigits2 m = d.
Proof.
  intros Hm Hd.
  assert (0 < m) as Hpos. { pose proof (Z.pow_pos_nonneg 2 (d - 1)). lia. }
  pose proof (Zdigits2_bounds m Hpos) as Hb.
  assert (0 < Zdigits2 m) as Hd'. { destruct m; simpl in *; lia. }
  destruct (Z.lt_trichotomy (Zdigits2 m) d) as [Hlt|[->|Hgt]]; [|done|].
  - assert (2 ^ Zdigits2 m ≤ 2 ^ (d - 1)) by (apply Z.pow_le_mono_r; lia). lia.
  - assert (2 ^ d ≤ 2 ^ (Zdigits2 m - 1)) by (apply Z.pow_le_mono_r; lia). lia.
Qed.

Lemma located_exact m e : located (F2Q m e) m e loc_Exact.
Proof.
  pose proof (bpow_pos e). split; [|reflexivity]. split; lra.
Qed.

Lemma F2Q_le m n e : m ≤ n → (F2Q m e <= F2Q n e)%Q.
Proof.
  intros Hmn. unfold F2Q. apply Qmult_le_compat_r.
  - by rewrite <- Zle_Qle.
  - apply Qlt_le_weak, bpow_pos.
Qed.

Lemma F2Q_lt_inv m n e : (F2Q m e < F2Q n e)%Q → m < n.
Proof.
  intros Hlt. destruct (Z.lt_ge_cases m n) as [?|Hge]; [done|].
  apply (F2Q_le _ _ e) in Hge. lra.
Qed.

Lemma F2Q_shift m k e : 0 ≤ k → (F2Q (m * 2 ^ k) e == F2Q m (e + k))%Q.
Proof.
  intros Hk. unfold F2Q. rewrite inject_Z_mult, bpow_add, (bpow_inject k) by done.
  ring.
Qed.

(** Rounding a value whose integer part already has at least 53 digits, away
    from the subnormal and overflow ranges. *)
Lemma binary_round_aux_normal s v mx ex lx :
  0 < mx → located v mx ex lx →
  53 ≤ Zdigits2 mx → -1074 ≤ Zdigits2 mx + ex - 53 → Zdigits2 mx + ex ≤ 1023 →
  let E1 := Zdigits2 mx + ex - 53 in
  ∃ m e,
    binary_round_aux prec emax s mx ex lx = S754_finite s m e ∧
    2 ^ 52 ≤ Zpos m < 2 ^ 53 ∧ E1 ≤ e ≤ E1 + 1 ∧
    (F2Q (Zpos m) e - (1 # 2) * bpow E1 <= v ∧
     v <= F2Q (Zpos m) e + (1 # 2) * bpow E1)%Q ∧
    (∀ b, (v <= F2Q b E1)%Q → (F2Q (Zpos m) e <= F2Q b E1)%Q) ∧
    (∀ b, (F2Q b E1 <= v)%Q → (F2Q b E1 <= F2Q (Zpos m) e)%Q).
Proof.
  intros Hmx Hloc Hd Hlo Hhi E1.
  pose proof (Zdigits2_bounds mx Hmx) as Hdig.
  destruct (shr_fexp_located v mx ex lx) as (r1 & e1 & Hs1 & [Hf0 Hl1] & He1 & Hm1);
    [lia|done|].
  rewrite fexp_eq in He1.
  assert (e1 = E1) as -> by (subst E1; lia).
  set (f := shr_m r1) in *.
  assert (2 ^ 52 ≤ f < 2 ^ 53) as Hf.
  { rewrite Hm1. replace (E1 - ex) with (Zdigits2 mx - 53) by (subst E1; lia).
    assert (2 ^ Zdigits2 mx = 2 ^ 53 * 2 ^ (Zdigits2 mx - 53)) as Hp1.
    { rewrite <- Z.pow_add_r by lia. f_equal. lia. }
    assert (2 ^ (Zdigits2 mx - 1) = 2 ^ 52 * 2 ^ (Zdigits2 mx - 53)) as Hp2.
    { rewrite <- Z.pow_add_r by lia. f_equal. lia. }
    assert (0 < 2 ^ (Zdigits2 mx - 53)) as Hp3 by (apply Z.pow_pos_nonneg; lia).
    split.
    - apply Z.div_le_lower_bound; [done|]. lia.
    - apply Z.div_lt_upper_bound; [done|]. lia. }
  destruct (round_nearest_even_located v f E1 _ Hl1) as (HM & _ & Hup & Hnear).
  set (M1 := round_nearest_even f (loc_of_shr_record r1)) in *.
  destruct (shr_fexp_located (F2Q M1 E1) M1 E1 loc_Exact)
    as (r2 & e2 & Hs2 & _ & He2 & Hm2); [lia|apply located_exact|].
  unfold binary_round_aux. rewrite Hs1. fold f. fold M1. rewrite Hs2.
  rewrite fexp_eq in He2.
  assert (Hmono_up : ∀ b, (v <= F2Q b E1)%Q → (F2Q M1 E1 <= F2Q b E1)%Q).
  { intros b Hb. destruct HM as [->| HM1].
    - destruct Hl1 as [[? _] _]. lra.
    - apply F2Q_le. specialize (Hup HM1).
      assert (f < b); [|lia]. apply (F2Q_lt_inv _ _ E1). lra. }
  assert (Hmono_lo : ∀ b, (F2Q b E1 <= v)%Q → (F2Q b E1 <= F2Q M1 E1)%Q).
  { intros b Hb. destruct Hl1 as [[? Hlt] _].
    assert (b < f + 1) as Hbf.
    { apply (F2Q_lt_inv _ _ E1). rewrite F2Q_succ. lra. }
    apply F2Q_le. lia. }
  destruct (decide (M1 = 2 ^ 53)) as [HM1|HM1].
  - (* the mantissa overflowed to [2^53]: one more exact shift *)
    assert (Zdigits2 M1 = 54) as HdM by (by rewrite HM1).
    rewrite HdM in He2. assert (e2 = E1 + 1) as -> by lia.
    replace (E1 + 1 - E1) with 1 in Hm2 by lia.
    rewrite HM1 in Hm2. change (2 ^ 53 / 2 ^ 1) with (2 ^ 52) in Hm2.
    rewrite Hm2. change (2 ^ 52) with (Z.pos (2 ^ 52)%positive).
    rewrite (proj2 (Z.leb_le _ _)) by (unfold emax, prec; subst E1; lia).
    eexists _, _. split; [done|]. split; [done|]. split; [lia|].
    assert (F2Q (Z.pos (2 ^ 52)) (E1 + 1) == F2Q M1 E1)%Q as Heq.
    { rewrite HM1. rewrite <- (F2Q_shift _ 1) by lia. reflexivity. }
    split; [by rewrite Heq|].
    split; intros b Hb; rewrite Heq; auto.
  - assert (Zdigits2 M1 = 53) as HdM by (apply Zdigits2_unique; lia).
    rewrite HdM in He2. assert (e2 = E1) as -> by lia.
    rewrite Z.sub_diag in Hm2. change (2 ^ 0) with 1 in Hm2.
    rewrite Z.div_1_r in Hm2. rewrite Hm2.
    destruct M1 as [|pm|pm] eqn:HM1e; [lia| |lia].
    rewrite (proj2 (Z.leb_le _ _)) by (unfold emax, prec; subst E1; lia).
    eexists _, _. split; [done|]. split; [lia|]. split; [lia|]. done.
Qed.

Lemma bpow_le a b : a ≤ b → (bpow a <= bpow b)%Q.
Proof.
  intros Hab. replace b with (a + (b - a)) by lia.
  rewrite bpow_add, (bpow_inject (b - a)) by lia.
  pose proof (bpow_pos a) as Ha.
  assert (1 <= inject_Z (2 ^ (b - a)))%Q as Hp.
  { change 1%Q with (inject_Z 1). rewrite <- Zle_Qle.
    pose proof (Z.pow_pos_nonneg 2 (b - a)). lia. }
  nra.
Qed.

Lemma bpow_lt_inv a b : (bpow a < bpow b)%Q → a < b.
Proof.
  intros Hlt. destruct (Z.lt_ge_cases a b) as [?|Hge]; [done|].
  apply bpow_le in Hge. lra.
Qed.

Lemma F2Q_pow2 k e : 0 ≤ k → (F2Q (2 ^ k) e == bpow (k + e))%Q.
Proof.
  intros Hk. unfold F2Q. rewrite bpow_add, (bpow_inject k) by done. reflexivity.
Qed.

(** A value in a slot whose integer part has [d] digits lies in the binade
    [[2^(d+e-1), 2^(d+e))]. *)
Lemma located_binade v m e l :
  0 < m → located v m e l →
  (bpow (Zdigits2 m + e - 1) <= v ∧ v < bpow (Zdigits2 m + e))%Q.
Proof.
  intros Hm [[Hlo Hhi] _]. pose proof (Zdigits2_bounds m Hm) as [Hd1 Hd2].
  assert (0 < Zdigits2 m) as Hd by (destruct m; simpl in *; lia).
  rewrite <- F2Q_succ in Hhi. split.
  - replace (Zdigits2 m + e - 1) with (Zdigits2 m - 1 + e) by lia.
    rewrite <- F2Q_pow2 by lia. apply (F2Q_le _ _ e) in Hd1. lra.
  - rewrite <- F2Q_pow2 by lia.
    assert (m + 1 ≤ 2 ^ Zdigits2 m) as Hd3 by lia.
    apply (F2Q_le _ _ e) in Hd3. lra.
Qed.

Lemma binary_round_aux_canonical s m e :
  Zdigits2 (Zpos m) = 53 → -1074 ≤ e ≤ 971 →
  binary_round_aux prec emax s (Zpos m) e loc_Exact = S754_finite s m e.
Proof.
  intros Hd He.
  assert (shr_fexp prec emax (Z.pos m) e loc_Exact =
          (Build_shr_record (Z.pos m) false false, e)) as Hs.
  { unfold shr_fexp. rewrite Hd, fexp_eq.
    replace (Z.max (53 + e - 53) (-1074) - e) with 0 by lia. reflexivity. }
  unfold binary_round_aux. rewrite Hs. simpl shr_m. simpl loc_of_shr_record.
  simpl round_nearest_even. rewrite Hs. simpl shr_m.
  by rewrite (proj2 (Z.leb_le _ _)) by (unfold emax, prec; lia).
Qed.

Lemma Pos_iter_xO p k : Z.pos (Pos.iter xO p k) = Z.pos p * 2 ^ Z.pos k.
Proof.
  rewrite <- Z.shiftl_mul_pow2 by lia. simpl.
  apply (Pos.iter_swap_gen _ _ Z.pos xO (Z.mul 2)). reflexivity.
Qed.

(** Integers below [2^53] are represented exactly, with a full mantissa. *)
Lemma of_int_pos z :
  0 < z < 2 ^ 53 →
  ∃ m e, of_int z = S754_finite false m e ∧
         2 ^ 52 ≤ Z.pos m < 2 ^ 53 ∧ -52 ≤ e ≤ 0 ∧
         (F2Q (Z.pos m) e == inject_Z z)%Q.
Proof.
  intros Hz. destruct z as [|p|p]; try lia.
  pose proof (Zdigits2_bounds (Z.pos p) ltac:(lia)) as Hd.
  assert (0 < Zdigits2 (Z.pos p) ≤ 53) as Hd53.
  { split; [simpl; lia|].
    destruct (Z.le_gt_cases (Zdigits2 (Z.pos p)) 53) as [?|Hgt]; [done|].
    assert (2 ^ 53 ≤ 2 ^ (Zdigits2 (Z.pos p) - 1)) by (apply Z.pow_le_mono_r; lia).
    lia. }
  unfold of_int, binary_normalize, binary_round, shl_align.
  change (Z.pos (digits2_pos p)) with (Zdigits2 (Z.pos p)).
  set (d := Zdigits2 (Z.pos p)) in *. rewrite fexp_eq.
  replace (Z.max (d + 0 - 53) (-1074) - 0) with (d - 53) by lia.
  replace (Z.max (d + 0 - 53) (-1074)) with (d - 53) by lia.
  destruct (d - 53) as [|k|k] eqn:Hk; try lia.
  - assert (d = 53) as Hd' by lia. rewrite Hd' in *.
    rewrite binary_round_aux_canonical by (fold d; lia).
    eexists _, _. split; [done|]. split; [lia|]. split; [lia|].
    unfold F2Q, bpow. simpl. ring.
  - assert (Z.pos (Pos.iter xO p k) = Z.pos p * 2 ^ (53 - d)) as Hm.
    { rewrite Pos_iter_xO. do 2 f_equal. lia. }
    assert (2 ^ 52 ≤ Z.pos (Pos.iter xO p k) < 2 ^ 53) as Hb.
    { rewrite Hm.
      assert (2 ^ 53 = 2 ^ d * 2 ^ (53 - d)) as ->.
      { rewrite <- Z.pow_add_r by lia. f_equal. lia. }
      assert (2 ^ 52 = 2 ^ (d - 1) * 2 ^ (53 - d)) as ->.
      { rewrite <- Z.pow_add_r by lia. f_equal. lia. }
      assert (0 < 2 ^ (53 - d)) by (apply Z.pow_pos_nonneg; lia). nia. }
    rewrite binary_round_aux_canonical;
      [|apply Zdigits2_unique; lia|lia].
    eexists _, _. split; [done|]. split; [done|]. split; [lia|].
    rewrite Hm, F2Q_shift by lia.
    replace (Z.neg k + (53 - d)) with 0 by lia.
    unfold F2Q, bpow. simpl. ring.
Qed.

Lemma new_location_eq D r :
  0 < D → 0 ≤ r < D →
  new_location D r =
  if r =? 0 then loc_Exact else loc_Inexact (2 * r ?= D).
Proof.
  intros HD Hr. unfold new_location, new_location_even, new_location_odd.
  destruct (Z.even D) eqn:Hev; [done|].
  destruct (r =? 0); [done|]. f_equal.
  assert (Z.odd D = true) as [k Hk]%Z.odd_spec by (by rewrite <- Z.negb_even, Hev).
  destruct (Z.compare_spec (2 * r + 1) D), (Z.compare_spec (2 * r) D);
    try done; lia.
Qed.

Section QuotientQ.
Local Open Scope Q_scope.
Lemma quotient_located_Q (v qq b dd rr : Q) :
  0 < b → 0 < dd → 0 <= rr → rr < dd →
  v * dd == (dd * qq + rr) * b →
  (qq * b <= v ∧ v < qq * b + b) ∧
  (rr == 0 → v == qq * b) ∧
  (0 < rr → ¬ v == qq * b) ∧
  (2 * rr == dd → v == qq * b + (1 # 2) * b) ∧
  (2 * rr < dd → v < qq * b + (1 # 2) * b) ∧
  (dd < 2 * rr → qq * b + (1 # 2) * b < v).
Proof.
  intros Hb Hd Hr0 Hr1 Hv.
  assert ((v - qq * b) * dd == rr * b) as Hv' by lra.
  clear Hv. set (t := v - qq * b) in *.
  assert (v == qq * b + t) as -> by (subst t; ring). clearbody t.
  assert (0 <= rr * b) as Hrb by nra.
  assert (rr * b < dd * b) as Hrb' by nra.
  split; [split|split; [|split; [|split; [|split]]]].
  - assert (0 <= t); [|lra]. apply (Qmult_le_r _ _ dd); [done|]. lra.
  - assert (t < b); [|lra]. apply (Qmult_lt_r _ _ dd); [done|]. lra.
  - intros H. assert (t == 0); [|lra]. apply (Qmult_inj_r _ _ dd); [lra|]. nra.
  - intros H Heq. assert (t == 0) as Ht by lra. rewrite Ht in Hv'. nra.
  - intros H. assert (t == (1 # 2) * b); [|lra].
    apply (Qmult_inj_r _ _ dd); [lra|]. nra.
  - intros H. assert (t < (1 # 2) * b); [|lra].
    apply (Qmult_lt_r _ _ dd); [done|]. nra.
  - intros H. assert ((1 # 2) * b < t); [|lra].
    apply (Qmult_lt_r _ _ dd); [done|]. nra.
Qed.
End QuotientQ.

(** The quotient [v] of [N·2^e] by [D], located by Euclidean division. *)
Lemma new_location_located v N D q r e :
  0 < D → 0 ≤ r < D → N = D * q + r →
  (v * inject_Z D == F2Q N e)%Q →
  located v q e (new_location D r).
Proof.
  intros HD Hr HN Hv. rewrite new_location_eq by done.
  pose proof (bpow_pos e) as Hb. unfold located, F2Q in *.
  rewrite HN, inject_Z_plus, inject_Z_mult in Hv.
  assert (0 < inject_Z D)%Q as HD' by (by rewrite <- (Zlt_Qlt 0)).
  assert (0 <= inject_Z r)%Q as Hr0 by (rewrite <- (Zle_Qle 0); lia).
  assert (inject_Z r < inject_Z D)%Q as Hr1 by (rewrite <- Zlt_Qlt; lia).
  destruct (quotient_located_Q v (inject_Z q) (bpow e) (inject_Z D) (inject_Z r)
              Hb HD' Hr0 Hr1 Hv) as (Hslot & Hex & Hinex & Heq & Hlt & Hgt).
  split; [done|].
  assert (inject_Z (2 * r) == 2 * inject_Z r)%Q as H2r by (by rewrite inject_Z_mult).
  destruct (Z.eqb_spec r 0) as [Hr0'|Hr0'].
  - apply Hex. by rewrite Hr0'.
  - split.
    + apply Hinex. rewrite <- (Zlt_Qlt 0). lia.
    + destruct (Z.compare_spec (2 * r) D) as [Hc|Hc|Hc].
      * apply Qeq_alt, Heq. by rewrite <- H2r, Hc.
      * apply Qlt_alt, Hlt. rewrite <- H2r. by rewrite <- Zlt_Qlt.
      * apply Qgt_alt, Hgt. rewrite <- H2r. by rewrite <- Zlt_Qlt.
Qed.

(** Division of two positive numbers with full mantissas. *)
Lemma div_normal mx ex my ey v :
  2 ^ 52 ≤ Z.pos mx < 2 ^ 53 → 2 ^ 52 ≤ Z.pos my < 2 ^ 53 →
  -400 ≤ ex ≤ 400 → -400 ≤ ey ≤ 400 →
  (v * F2Q (Z.pos my) ey == F2Q (Z.pos mx) ex)%Q →
  ∃ m e E,
    div (S754_finite false mx ex) (S754_finite false my ey) =
      S754_finite false m e ∧
    2 ^ 52 ≤ Z.pos m < 2 ^ 53 ∧ E ≤ e ≤ E + 1 ∧
    ex - ey - 53 ≤ E ≤ ex - ey - 52 ∧
    (bpow (E + 52) <= v ∧ v < bpow (E + 53))%Q ∧
    (F2Q (Z.pos m) e - (1 # 2) * bpow E <= v ∧
     v <= F2Q (Z.pos m) e + (1 # 2) * bpow E)%Q ∧
    (∀ b, (v <= F2Q b E)%Q → (F2Q (Z.pos m) e <= F2Q b E)%Q) ∧
    (∀ b, (F2Q b E <= v)%Q → (F2Q b E <= F2Q (Z.pos m) e)%Q).
Proof.
  intros Hmx Hmy Hex Hey Hv.
  assert (Zdigits2 (Z.pos mx) = 53) as Hdx by (apply Zdigits2_unique; lia).
  assert (Zdigits2 (Z.pos my) = 53) as Hdy by (apply Zdigits2_unique; lia).
  unfold div, SFdiv, SFdiv_core_binary. rewrite Hdx, Hdy, fexp_eq.
  replace (Z.min (Z.max (53 + ex - (53 + ey) - 53) (-1074)) (ex - ey))
    with (ex - ey - 53) by lia.
  replace (ex - ey - (ex - ey - 53)) with 53 by lia.
  rewrite Z.shiftl_mul_pow2 by lia.
  set (N := Z.pos mx * 2 ^ 53). set (e' := ex - ey - 53).
  pose proof (Z.div_eucl_eq N (Z.pos my) ltac:(lia)) as Hdiv.
  pose proof (Z.mod_pos_bound N (Z.pos my) ltac:(lia)) as Hmod.
  unfold Z.modulo in Hmod. destruct (Z.div_eucl N (Z.pos my)) as [q r].
  assert (2 ^ 52 ≤ q < 2 ^ 54) as Hq by (subst N; nia).
  assert (located v q e' (new_location (Z.pos my) r)) as Hloc.
  { apply (new_location_located v N); [lia|done|done|].
    unfold F2Q in *. subst N e'.
    rewrite inject_Z_mult, <- (bpow_inject 53) by lia.
    assert (bpow ex == bpow (ex - ey - 53) * bpow 53 * bpow ey)%Q as Hbp.
    { rewrite <- !bpow_add. f_equiv. lia. }
    rewrite Hbp in Hv. pose proof (bpow_pos ey).
    apply (Qmult_inj_r _ _ (bpow ey)); [lra|]. lra. }
  assert (53 ≤ Zdigits2 q ≤ 54) as Hdq.
  { destruct (decide (q < 2 ^ 53)).
    - rewrite (Zdigits2_unique q 53); lia.
    - rewrite (Zdigits2_unique q 54); lia. }
  destruct (binary_round_aux_normal false v q e' _ ltac:(lia) Hloc)
    as (m & e & Hres & Hm & He & Hnear & Hup & Hdown); [lia|subst e'; lia|subst e'; lia|].
  pose proof (located_binade v q e' _ ltac:(lia) Hloc) as Hbin.
  exists m, e, (Zdigits2 q + e' - 53). simpl xorb. split; [done|].
  split; [done|]. split; [done|]. split; [subst e'; lia|].
  split; [|done].
  replace (Zdigits2 q + e' - 53 + 52) with (Zdigits2 q + e' - 1) by lia.
  replace (Zdigits2 q + e' - 53 + 53) with (Zdigits2 q + e') by lia. done.
Qed.

(** Multiplication of two positive numbers with full mantissas. *)
Lemma mul_normal mx ex my ey :
  2 ^ 52 ≤ Z.pos mx < 2 ^ 53 → 2 ^ 52 ≤ Z.pos my < 2 ^ 53 →
  -400 ≤ ex ≤ 400 → -400 ≤ ey ≤ 400 →
  let v := (F2Q (Z.pos mx) ex * F2Q (Z.pos my) ey)%Q in
  ∃ m e E,
    mul (S754_finite false mx ex) (S754_finite false my ey) =
      S754_finite false m e ∧
    2 ^ 52 ≤ Z.pos m < 2 ^ 53 ∧ E ≤ e ≤ E + 1 ∧
    ex + ey + 52 ≤ E ≤ ex + ey + 53 ∧
    (bpow (E + 52) <= v ∧ v < bpow (E + 53))%Q ∧
    (F2Q (Z.pos m) e - (1 # 2) * bpow E <= v ∧
     v <= F2Q (Z.pos m) e + (1 # 2) * bpow E)%Q ∧
    (∀ b, (v <= F2Q b E)%Q → (F2Q (Z.pos m) e <= F2Q b E)%Q) ∧
    (∀ b, (F2Q b E <= v)%Q → (F2Q b E <= F2Q (Z.pos m) e)%Q).
Proof.
  intros Hmx Hmy Hex Hey v.
  unfold mul, SFmul. simpl xorb. rewrite Pos2Z.inj_mul.
  set (P := Z.pos mx * Z.pos my). set (eP := ex + ey).
  assert (2 ^ 104 ≤ P < 2 ^ 106) as HP by (subst P; nia).
  assert (v == F2Q P eP)%Q as HvP.
  { subst v P eP. unfold F2Q. rewrite inject_Z_mult, bpow_add. ring. }
  assert (located v P eP loc_Exact) as Hloc.
  { pose proof (bpow_pos eP). split; [|done]. split; lra. }
  assert (105 ≤ Zdigits2 P ≤ 106) as HdP.
  { destruct (decide (P < 2 ^ 105)).
    - rewrite (Zdigits2_unique P 105); lia.
    - rewrite (Zdigits2_unique P 106); lia. }
  destruct (binary_round_aux_normal false v P eP _ ltac:(lia) Hloc)
    as (m & e & Hres & Hm & He & Hnear & Hup & Hdown); [lia|subst eP; lia|subst eP; lia|].
  pose proof (located_binade v P eP _ ltac:(lia) Hloc) as Hbin.
  exists m, e, (Zdigits2 P + eP - 53). split; [done|].
  split; [done|]. split; [done|]. split; [subst eP; lia|].
  split; [|done].
  replace (Zdigits2 P + eP - 53 + 52) with (Zdigits2 P + eP - 1) by lia.
  replace (Zdigits2 P + eP - 53 + 53) with (Zdigits2 P + eP) by lia. done.
Qed.

Lemma Qfloor_unique n x :
  (inject_Z n <= x)%Q → (x < inject_Z (n + 1))%Q → Qfloor x = n.
Proof.
  intros Hlo Hhi.
  pose proof (Qfloor_le x) as H1. pose proof (Qlt_floor x) as H2.
  assert (inject_Z (Qfloor x) < inject_Z (n + 1))%Q as H3 by lra.
  assert (inject_Z n < inject_Z (Qfloor x + 1))%Q as H4 by lra.
  rewrite <- Zlt_Qlt in H3, H4. lia.
Qed.

(** [Math.round] is [⌊x + 1/2⌋] on the value of a finite number. *)
Lemma Math_round_finite s m e :
  Math_round (S754_finite s m e) =
  Some (Qfloor (F2Q (if s then Z.neg m else Z.pos m) e + (1 # 2))).
Proof.
  unfold Math_round. f_equal. set (v := if s then Z.neg m else Z.pos m).
  clearbody v. symmetry. destruct e as [|k|k].
  - apply Qfloor_unique; unfold F2Q, bpow; simpl;
      rewrite ?inject_Z_plus; change (inject_Z 1) with 1%Q; lra.
  - apply Qfloor_unique; unfold F2Q; rewrite (bpow_inject (Z.pos k)) by lia;
      rewrite ?inject_Z_plus, ?inject_Z_mult; change (inject_Z 1) with 1%Q; lra.
  - change (- Z.neg k) with (Z.pos k). change (1 - Z.neg k) with (1 + Z.pos k).
    set (T := 2 * v + 2 ^ Z.pos k). set (W := 2 ^ (1 + Z.pos k)).
    assert (0 < W) as HW by (apply Z.pow_pos_nonneg; lia).
    pose proof (Z.div_mod T W ltac:(lia)) as Hdm.
    pose proof (Z.mod_pos_bound T W HW) as Hmod.
    set (y := (F2Q v (Z.neg k) + (1 # 2))%Q).
    assert (y * inject_Z W == inject_Z T)%Q as Hy.
    { subst y W T. unfold F2Q.
      rewrite Z.pow_add_r, Z.pow_1_r, inject_Z_plus, !inject_Z_mult by lia.
      rewrite <- (bpow_inject (Z.pos k)) by lia.
      assert (bpow (Z.neg k) * bpow (Z.pos k) == 1)%Q as Hinv.
      { rewrite <- bpow_add. replace (Z.neg k + Z.pos k) with 0 by lia.
        reflexivity. }
      change (inject_Z 2) with 2%Q.
      transitivity (2 * inject_Z v * (bpow (Z.neg k) * bpow (Z.pos k))
                    + bpow (Z.pos k))%Q; [ring|].
      rewrite Hinv. ring. }
    assert (0 < inject_Z W)%Q as HW' by (by rewrite <- (Zlt_Qlt 0)).
    apply Qfloor_unique.
    + apply (Qmult_le_r _ _ (inject_Z W)); [done|].
      rewrite Hy, <- inject_Z_mult, <- Zle_Qle. nia.
    + apply (Qmult_lt_r _ _ (inject_Z W)); [done|].
      rewrite Hy, <- inject_Z_mult, <- Zlt_Qlt. nia.
Qed.

Lemma bpow_le_inv a b : (bpow a <= bpow b)%Q → a ≤ b.
Proof.
  intros Hle. destruct (Z.le_gt_cases a b) as [?|Hgt]; [done|].
  assert (b + 1 ≤ a) as Hba by lia. apply bpow_le in Hba.
  rewrite bpow_succ in Hba. pose proof (bpow_pos b). lra.
Qed.

Lemma of_int_100 : of_int 100 = S754_finite false 7036874417766400 (-46).
Proof. reflexivity. Qed.

(** The number [Math.round(k / m * 100)] for integers [0 < k ≤ m < 2^53]:
    the floor of [p + 1/2] for a [p] in [[0, 100]] within [2^-45] of the
    exact percentage. *)
Lemma percent_number k m :
  0 < k ≤ m → m < 2 ^ 53 →
  ∃ p : Q,
    Math_round (mul (div (of_int k) (of_int m)) (of_int 100)) =
      Some (Qfloor (p + (1 # 2))) ∧
    (0 <= p ∧ p <= 100)%Q ∧
    ∀ x, (x * inject_Z m == inject_Z (100 * k))%Q →
         (x - bpow (-45) <= p ∧ p <= x + bpow (-45))%Q.
Proof.
  intros Hk Hm.
  destruct (of_int_pos k) as (mk & ek & -> & Hmk & Hek & Hvk); [lia|].
  destruct (of_int_pos m) as (mm & em & -> & Hmm & Hem & Hvm); [lia|].
  rewrite of_int_100.
  assert (0 < inject_Z m)%Q as Hmpos by (rewrite <- (Zlt_Qlt 0); lia).
  assert (0 < inject_Z k)%Q as Hkpos by (rewrite <- (Zlt_Qlt 0); lia).
  assert (inject_Z k <= inject_Z m)%Q as Hkm by (rewrite <- Zle_Qle; lia).
  set (v := (inject_Z k * / inject_Z m)%Q).
  assert (v * inject_Z m == inject_Z k)%Q as Hv.
  { subst v. field. lra. }
  assert (0 < v ∧ v <= 1)%Q as [Hv0 Hv1].
  { split.
    - apply (Qmult_lt_r _ _ (inject_Z m)); [done|]. lra.
    - apply (Qmult_le_r _ _ (inject_Z m)); [done|]. lra. }
  destruct (div_normal mk ek mm em v) as
    (mq & eq & E & -> & Hmq & Heq & HE & [Hbin _] & [Hn1 Hn2] & Hup & _);
    [done|done|lia|lia|by rewrite Hvk, Hvm|].
  assert (E ≤ -52) as HE52.
  { assert (E + 52 ≤ 0); [|lia]. apply bpow_le_inv.
    change (bpow 0) with 1%Q. lra. }
  set (vq := F2Q (Z.pos mq) eq) in *.
  assert (vq <= 1)%Q as Hvq1.
  { specialize (Hup (2 ^ (- E))). rewrite F2Q_pow2 in Hup by lia.
    replace (- E + E) with 0 in Hup by lia. apply Hup. by change (bpow 0) with 1%Q. }
  assert (bpow E <= bpow (-52))%Q as HbE by (by apply bpow_le).
  assert (bpow (-52) == 1 # 4503599627370496)%Q as Hb52 by reflexivity.
  destruct (mul_normal mq eq 7036874417766400 (-46)) as
    (mp & ep & E' & -> & Hmp & Hep & HE' & [Hbin' Hbin''] & [Hn1' Hn2'] & Hup' & _);
    [done|lia|lia|lia|].
  assert (F2Q 7036874417766400 (-46) == 100)%Q as H100 by reflexivity.
  fold vq in Hbin', Hbin'', Hn1', Hn2', Hup'.
  set (v' := (vq * F2Q 7036874417766400 (-46))%Q) in *.
  assert (v' == vq * 100)%Q as Hv' by (subst v'; by rewrite H100).
  assert (0 < vq)%Q as Hvq0.
  { subst vq. unfold F2Q. pose proof (bpow_pos eq).
    assert (0 < inject_Z (Z.pos mq))%Q by (by rewrite <- (Zlt_Qlt 0)). nra. }
  assert (E' ≤ -46) as HE46.
  { assert (E' + 52 < 7); [|lia]. apply bpow_lt_inv.
    assert (bpow 7 == 128)%Q as -> by reflexivity. lra. }
  set (p := F2Q (Z.pos mp) ep) in *.
  assert (p <= 100)%Q as Hp100.
  { specialize (Hup' (100 * 2 ^ (- E'))). rewrite F2Q_shift in Hup' by lia.
    replace (E' + - E') with 0 in Hup' by lia.
    assert (F2Q 100 0 == 100)%Q as H100' by reflexivity.
    rewrite H100' in Hup'. apply Hup'. lra. }
  assert (bpow E' <= bpow (-46))%Q as HbE' by (by apply bpow_le).
  assert (bpow (-46) == 1 # 70368744177664)%Q as Hb46 by reflexivity.
  assert (bpow (-45) == 1 # 35184372088832)%Q as Hb45 by reflexivity.
  exists p. rewrite Math_round_finite. split; [done|]. split.
  - split; [|done]. subst p. unfold F2Q. pose proof (bpow_pos ep).
    assert (0 < inject_Z (Z.pos mp))%Q by (by rewrite <- (Zlt_Qlt 0)). nra.
  - intros x Hx.
    assert (x == 100 * v)%Q as ->.
    { apply (Qmult_inj_r _ _ (inject_Z m)); [lra|].
      rewrite Hx, inject_Z_mult. change (inject_Z 100) with 100%Q.
      rewrite <- Hv. ring. }
    rewrite Hb45. lra.
Qed.

Lemma Qfloor_range x lo hi :
  (inject_Z lo <= x)%Q → (x < inject_Z (hi + 1))%Q → lo ≤ Qfloor x ≤ hi.
Proof.
  intros Hlo Hhi.
  pose proof (Qfloor_le x) as H1. pose proof (Qlt_floor x) as H2.
  assert (inject_Z (Qfloor x) < inject_Z (hi + 1))%Q as H3 by lra.
  assert (inject_Z lo < inject_Z (Qfloor x + 1))%Q as H4 by lra.
  rewrite <- Zlt_Qlt in H3, H4. lia.
Qed.

Lemma percent_zero m :
  0 < m < 2 ^ 53 →
  Math_round (mul (div (of_int 0) (of_int m)) (of_int 100)) = Some 0.
Proof.
  intros Hm. destruct (of_int_pos m) as (mm & em & -> & _); [lia|].
  reflexivity.
Qed.

(** The rounded percentage lies in [[0, 100]]. *)
Lemma percent_range k m :
  0 ≤ k ≤ m → 0 < m < 2 ^ 53 →
  ∃ r, Math_round (mul (div (of_int k) (of_int m)) (of_int 100)) = Some r ∧
       0 ≤ r ≤ 100.
Proof.
  intros Hk Hm. destruct (decide (k = 0)) as [->|Hk0].
  { exists 0. by rewrite percent_zero. }
  destruct (percent_number k m) as (p & -> & [Hp0 Hp1] & _); [lia|lia|].
  eexists. split; [done|].
  apply Qfloor_range; [change (inject_Z 0) with 0%Q; lra|].
  change (inject_Z (100 + 1)) with 101%Q. lra.
Qed.

(** A perturbation of [X] smaller than [1/W], where [X·W] is an integer,
    changes [⌊X⌋] only if [X] is itself an integer, and then by at most one. *)
Lemma Qfloor_perturb (X y : Q) (T W : Z) :
  0 < W → (X * inject_Z W == inject_Z T)%Q →
  ((X - y) * inject_Z W < 1)%Q → ((y - X) * inject_Z W < 1)%Q →
  (¬ (inject_Z (Qfloor X) == X)%Q → Qfloor y = Qfloor X) ∧
  ((inject_Z (Qfloor X) == X)%Q →
   Qfloor y = Qfloor X ∨ Qfloor y = Qfloor X - 1).
Proof.
  intros HW HXW Hd1 Hd2.
  pose proof (Qfloor_le X) as HN1. pose proof (Qlt_floor X) as HN2.
  set (N := Qfloor X) in *. clearbody N.
  rewrite inject_Z_plus in HN2. change (inject_Z 1) with 1%Q in HN2.
  assert (1 <= inject_Z W)%Q as HW1.
  { change 1%Q with (inject_Z 1). rewrite <- Zle_Qle. lia. }
  split.
  - intros Hnt.
    assert (inject_Z N < X)%Q as Hlt.
    { destruct (Qle_lt_or_eq _ _ HN1) as [?|Heq]; [done|]. by destruct Hnt. }
    assert (N * W < T) as Hint1.
    { rewrite Zlt_Qlt, inject_Z_mult.
      apply Qlt_le_trans with (X * inject_Z W)%Q; [apply Qmult_lt_r; lra|lra]. }
    assert (T < (N + 1) * W) as Hint2.
    { rewrite Zlt_Qlt, inject_Z_mult, inject_Z_plus. change (inject_Z 1) with 1%Q.
      apply Qle_lt_trans with (X * inject_Z W)%Q; [lra|apply Qmult_lt_r; lra]. }
    assert (inject_Z (N * W + 1) <= inject_Z T)%Q as Hint1'.
    { rewrite <- Zle_Qle. lia. }
    assert (inject_Z (T + 1) <= inject_Z ((N + 1) * W))%Q as Hint2'.
    { rewrite <- Zle_Qle. lia. }
    rewrite inject_Z_plus, inject_Z_mult in Hint1'.
    rewrite inject_Z_plus, inject_Z_mult, inject_Z_plus in Hint2'.
    change (inject_Z 1) with 1%Q in Hint1', Hint2'.
    apply Qfloor_unique.
    + apply (Qmult_le_r _ _ (inject_Z W)); [lra|]. lra.
    + rewrite inject_Z_plus. change (inject_Z 1) with 1%Q.
      apply (Qmult_lt_r _ _ (inject_Z W)); [lra|]. lra.
  - intros Htie.
    assert (X - y < 1 ∧ y - X < 1)%Q as [Hy1 Hy2].
    { split.
      - destruct (Qlt_le_dec (X - y) 1) as [?|Hge]; [done|]. nra.
      - destruct (Qlt_le_dec (y - X) 1) as [?|Hge]; [done|]. nra. }
    destruct (Qlt_le_dec y (inject_Z N)) as [Hlt|Hge].
    + right. apply Qfloor_unique.
      * replace (N - 1) with (N + -1) by lia. rewrite inject_Z_plus.
        change (inject_Z (-1)) with (-1)%Q. lra.
      * replace (N - 1 + 1) with N by lia. done.
    + left. apply Qfloor_unique; [done|].
      rewrite inject_Z_plus. change (inject_Z 1) with 1%Q. lra.
Qed.

(** The rounded percentage is the exact percentage rounded half up, except
    possibly at an exact tie, where it may be one less. *)
Lemma percent_round k m :
  0 ≤ k ≤ m → 0 < m < 2 ^ 44 →
  ∃ r, Math_round (mul (div (of_int k) (of_int m)) (of_int 100)) = Some r ∧
       0 ≤ r ≤ 100 ∧
       (¬ is_tie (exact_percent k m) → r = round_half_up (exact_percent k m)) ∧
       (is_tie (exact_percent k m) →
        r = round_half_up (exact_percent k m) ∨
        r = round_half_up (exact_percent k m) - 1).
Proof.
  intros Hk Hm.
  assert (0 < inject_Z m)%Q as Hmpos by (rewrite <- (Zlt_Qlt 0); lia).
  assert (exact_percent k m * inject_Z m == inject_Z (100 * k))%Q as Hx.
  { unfold exact_percent. field. lra. }
  destruct (decide (k = 0)) as [->|Hk0].
  { exists 0. rewrite percent_zero by lia. split; [done|]. split; [lia|].
    assert (round_half_up (exact_percent 0 m) = 0) as Hr.
    { assert (exact_percent 0 m == 0)%Q as Hx0.
      { unfold exact_percent. change (100 * 0) with 0.
        change (inject_Z 0) with 0%Q. field. lra. }
      unfold round_half_up. by rewrite Hx0. }
    rewrite Hr. split; [done|]. by left. }
  destruct (percent_number k m) as (p & -> & [Hp0 Hp1] & Herr);
    [lia|assert (2 ^ 44 < 2 ^ 53) by done; lia|].
  destruct (Herr _ Hx) as [He1 He2]. clear Herr.
  exists (Qfloor (p + (1 # 2))). split; [done|]. split.
  { apply Qfloor_range; [change (inject_Z 0) with 0%Q; lra|].
    change (inject_Z (100 + 1)) with 101%Q. lra. }
  unfold is_tie, round_half_up.
  assert (bpow (-45) == 1 # 35184372088832)%Q as Hb45 by reflexivity.
  rewrite Hb45 in He1, He2.
  assert (inject_Z (2 * m) == 2 * inject_Z m)%Q as HW by (by rewrite inject_Z_mult).
  assert (inject_Z (2 * m) < 35184372088832)%Q as HWlt.
  { change 35184372088832%Q with (inject_Z (2 ^ 45)). rewrite <- Zlt_Qlt.
    change (2 ^ 45) with (2 * 2 ^ 44). lia. }
  assert (0 < inject_Z (2 * m))%Q as HWpos by lra.
  destruct (Qfloor_perturb (exact_percent k m + (1 # 2)) (p + (1 # 2))
              (200 * k + m) (2 * m)) as [H1 H2]; [lia| | | |].
  - rewrite HW, inject_Z_plus, inject_Z_mult.
    change (inject_Z 200) with 200%Q.
    rewrite inject_Z_mult in Hx. change (inject_Z 100) with 100%Q in Hx.
    assert ((exact_percent k m + (1 # 2)) * (2 * inject_Z m) ==
            2 * (exact_percent k m * inject_Z m) + inject_Z m)%Q as -> by ring.
    rewrite Hx. ring.
  - generalize dependent (exact_percent k m). intros x _ He1 He2.
    generalize dependent (inject_Z (2 * m)). intros w _ Hw1 Hw2. nra.
  - generalize dependent (exact_percent k m). intros x _ He1 He2.
    generalize dependent (inject_Z (2 * m)). intros w _ Hw1 Hw2. nra.
  - split; [exact H1|]. intros Htie. by apply H2.
Qed.

End Rounding.

(** ** The similarity score *)
Module Similarity.
Import Scorer Levenshtein Rounding.
Local Open Scope string_scope.

Section SimilarityFacts.
Variable toLowerCase : jsstring → jsstring.

Lemma calculateTextSimilarity_eq a b :
  let cleanA := toLowerCase (trim a) in
  let cleanB := toLowerCase (trim b) in
  let maxLength := Nat.max (length cleanA) (length cleanB) in
  calculateTextSimilarity toLowerCase a b =
  if decide (maxLength = 0) then Some 100%Z
  else Z.max 0 <$>
         Math_round
           (mul (div (of_int (Z.of_nat maxLength - Z.of_nat (lev cleanA cleanB)))
                     (of_int (Z.of_nat maxLength)))
                (of_int 100)).
Proof.
  intros cleanA cleanB maxLength. unfold calculateTextSimilarity.
  fold cleanA cleanB maxLength. destruct (decide (maxLength = 0)); [done|].
  by rewrite calculateLevenshteinDistance_lev.
Qed.

(** C9. For every pair of strings the score is the same in both orders:
    [similarity(a, b) = similarity(b, a)]. *)
Theorem similarity_symmetric (a b : jsstring) :
  calculateTextSimilarity toLowerCase a b =
  calculateTextSimilarity toLowerCase b a.
Proof.
  rewrite !calculateTextSimilarity_eq. cbv zeta.
  rewrite (Nat.max_comm (length (toLowerCase (trim b)))).
  by rewrite (lev_sym (toLowerCase (trim b))).
Qed.

(** C1, as amended.  [calculateTextSimilarity] trims and lower-cases both
    strings.  If the longer normalised string is empty the score is 100.
    Otherwise, with [d] the least number of single-character insertions,
    deletions and substitutions that turn one normalised string into the
    other, the score is an integer between 0 and 100 (the clamp at 0 changes
    nothing): the exact percentage [100·(maxLen - d)/maxLen] rounded half up,
    unless that percentage lies exactly halfway between two integers, where
    the score is that rounding or one less.  In particular
    [similarity("kitten", "sitting") = 57].  Stated for normalised strings
    shorter than [2^44] code units. *)
Theorem similarity_spec (a b : jsstring) :
  let cleanA := toLowerCase (trim a) in
  let cleanB := toLowerCase (trim b) in
  let maxLen := Nat.max (length cleanA) (length cleanB) in
  (Z.of_nat maxLen < 2 ^ 44)%Z →
  (maxLen = 0 → calculateTextSimilarity toLowerCase a b = Some 100%Z) ∧
  (maxLen ≠ 0 →
   ∃ (d : nat) (r : Z),
     is_edit_distance cleanA cleanB d ∧ d ≤ maxLen ∧
     calculateTextSimilarity toLowerCase a b = Some r ∧ (0 ≤ r ≤ 100)%Z ∧
     let exact := exact_percent (Z.of_nat maxLen - Z.of_nat d) (Z.of_nat maxLen) in
     (¬ is_tie exact → r = round_half_up exact) ∧
     (is_tie exact → r = round_half_up exact ∨ r = (round_half_up exact - 1)%Z)) ∧
  calculateTextSimilarity ascii_toLowerCase (utf16 "kitten") (utf16 "sitting")
    = Some 57%Z.
Proof.
  intros cleanA cleanB maxLen Hlen.
  pose proof (calculateTextSimilarity_eq a b) as Heq. cbv zeta in Heq.
  fold cleanA cleanB maxLen in Heq. rewrite Heq.
  split; [|split].
  - intros ->. done.
  - intros Hne. rewrite decide_False by done.
    pose proof (lev_le_max cleanA cleanB) as Hle. fold maxLen in Hle.
    destruct (percent_round (Z.of_nat maxLen - Z.of_nat (lev cleanA cleanB))
                (Z.of_nat maxLen)) as (r & Hr & Hrange & Hnt & Ht); [lia|lia|].
    exists (lev cleanA cleanB), r. split; [apply lev_is_edit_distance|].
    split; [done|]. rewrite Hr. simpl. rewrite Z.max_r by lia. done.
  - by vm_compute.
Qed.

(** C10.  [calculateLevenshteinDistance] returns at most the length of the
    longer string; hence, in [calculateTextSimilarity], the value handed to
    [Math.max(0, ...)] is already non-negative, so the clamp never decides,
    and the score is an integer between 0 and 100.  Stated for normalised
    strings shorter than [2^53] code units, the lengths a number holds
    exactly. *)
Theorem similarity_range (a b : jsstring) :
  let cleanA := toLowerCase (trim a) in
  let cleanB := toLowerCase (trim b) in
  let maxLen := Nat.max (length cleanA) (length cleanB) in
  (Z.of_nat maxLen < 2 ^ 53)%Z →
  (∀ x y : jsstring,
     ∃ d, calculateLevenshteinDistance x y = Some d ∧
          d ≤ Nat.max (length x) (length y)) ∧
  (maxLen ≠ 0 →
   ∃ (d : nat) (r : Z),
     calculateLevenshteinDistance cleanA cleanB = Some d ∧ d ≤ maxLen ∧
     Math_round
       (mul (div (of_int (Z.of_nat maxLen - Z.of_nat d)) (of_int (Z.of_nat maxLen)))
            (of_int 100)) = Some r ∧
     (0 ≤ r)%Z ∧ Z.max 0 r = r ∧
     calculateTextSimilarity toLowerCase a b = Some r) ∧
  ∃ r, calculateTextSimilarity toLowerCase a b = Some r ∧ (0 ≤ r ≤ 100)%Z.
Proof.
  intros cleanA cleanB maxLen Hlen.
  pose proof (calculateTextSimilarity_eq a b) as Heq. cbv zeta in Heq.
  fold cleanA cleanB maxLen in Heq. rewrite Heq.
  pose proof (lev_le_max cleanA cleanB) as Hle. fold maxLen in Hle.
  split; [|split].
  - intros x y. exists (lev x y).
    split; [apply calculateLevenshteinDistance_lev|apply lev_le_max].
  - intros Hne. rewrite decide_False by done.
    destruct (percent_range (Z.of_nat maxLen - Z.of_nat (lev cleanA cleanB))
                (Z.of_nat maxLen)) as (r & Hr & Hrange); [lia|lia|].
    exists (lev cleanA cleanB), r.
    split; [apply calculateLevenshteinDistance_lev|]. split; [done|].
    split; [done|]. split; [lia|]. split; [lia|].
    rewrite Hr. simpl. by rewrite Z.max_r by lia.
  - destruct (decide (maxLen = 0)); [exists 100%Z; split; [done|lia]|].
    destruct (percent_range (Z.of_nat maxLen - Z.of_nat (lev cleanA cleanB))
                (Z.of_nat maxLen)) as (r & Hr & Hrange); [lia|lia|].
    exists r. rewrite Hr. simpl. rewrite Z.max_r by lia. done.
Qed.

End SimilarityFacts.

(** C1, counterexample.  The score is not always
    [round(100·(maxLen - d)/maxLen)]: forty [a]s against twenty-three [a]s
    followed by seventeen [b]s are at distance 17, the exact percentage is
    57.5, which rounds to 58, and the code returns 57, because the quotient
    [23/40] is rounded to a binary64 number before it is multiplied by 100. *)
Lemma similarity_formula_fails :
  ¬ ∀ (a b : jsstring) (d : nat),
      let cleanA := ascii_toLowerCase (trim a) in
      let cleanB := ascii_toLowerCase (trim b) in
      let maxLen := Nat.max (length cleanA) (length cleanB) in
      maxLen ≠ 0 → is_edit_distance cleanA cleanB d →
      calculateTextSimilarity ascii_toLowerCase a b =
      Some (Z.max 0 (round_half_up
                       (exact_percent (Z.of_nat maxLen - Z.of_nat d)
                                      (Z.of_nat maxLen)))).
Proof.
  intros H.
  assert (is_edit_distance (ascii_toLowerCase (trim forty_a))
            (ascii_toLowerCase (trim twenty_three_a_seventeen_b)) 17) as Hd.
  { apply distance_from_table. vm_compute. reflexivity. }
  specialize (H forty_a twenty_three_a_seventeen_b 17). cbv zeta in H.
  assert (Nat.max (length (ascii_toLowerCase (trim forty_a)))
            (length (ascii_toLowerCase (trim twenty_three_a_seventeen_b))) ≠ 0)
    as Hne.
  { vm_compute. discriminate. }
  specialize (H Hne Hd). vm_compute in H. discriminate H.
Qed.

(** C1, witness: the amended statement at ["kitten"] and ["sitting"]. *)
Lemma similarity_spec_kitten :
  (Z.of_nat (Nat.max (length (ascii_toLowerCase (trim (utf16 "kitten"))))
                     (length (ascii_toLowerCase (trim (utf16 "sitting")))))
   < 2 ^ 44)%Z ∧
  calculateTextSimilarity ascii_toLowerCase (utf16 "kitten") (utf16 "sitting")
    = Some 57%Z.
Proof.
  split; [by vm_compute|].
  apply (similarity_spec ascii_toLowerCase (utf16 "kitten") (utf16 "sitting")).
  by vm_compute.
Defined.

(** C10, witness: the range statement at ["kitten"] and ["sitting"]. *)
Lemma similarity_range_kitten :
  (Z.of_nat (Nat.max (length (ascii_toLowerCase (trim (utf16 "kitten"))))
                     (length (ascii_toLowerCase (trim (utf16 "sitting")))))
   < 2 ^ 53)%Z ∧
  ∃ r, calculateTextSimilarity ascii_toLowerCase (utf16 "kitten") (utf16 "sitting")
       = Some r ∧ (0 ≤ r ≤ 100)%Z.
Proof.
  split; [by vm_compute|].
  apply (similarity_range ascii_toLowerCase (utf16 "kitten") (utf16 "sitting")).
  by vm_compute.
Defined.

End Similarity.

(** ** The recording controller and the duration cap *)
Module Controller.
Import Recorder.
Local Open Scope string_scope.
Local Open Scope list_scope.

Lemma cancelRecording_status s : status (cancelRecording s) = inactive.
Proof. reflexivity. Qed.

(** [onerror] records a message and rejects the promise of its session. *)
Lemma onerror_eq r error s :
  ∃ rejected name,
    onerror r error s =
    set_recorders (alter (settle (Rejected rejected)) r (recorders s))
      (setError (Some ("Recording error: " ++ name)%string) s).
Proof. destruct error; by eexists _, _. Qed.

Lemma cancelRecording_chunks s : audioChunksRef (cancelRecording s) = [].
Proof. reflexivity. Qed.

(** Two states with the same fields are the same state. *)
Lemma State_eq (a b : State) :
  status a = status b → error a = error b →
  mediaRecorderRef a = mediaRecorderRef b →
  audioChunksRef a = audioChunksRef b → streamRef a = streamRef b →
  recorders a = recorders b → streams a = streams b →
  pending a = pending b → uncaught a = uncaught b → a = b.
Proof. destruct a, b; simpl; intros; by subst. Qed.

Lemma cancelRecording_eq s :
  cancelRecording s =
  {| status := inactive; error := error s;
     mediaRecorderRef := mediaRecorderRef s; audioChunksRef := [];
     streamRef := None;
     recorders :=
       match mediaRecorderRef s with
       | Some r => alter cancelled r (recorders s)
       | None => recorders s
       end;
     streams :=
       match streamRef s with
       | Some sid => alter stop_tracks sid (streams s)
       | None => streams s
       end;
     pending := pending s; uncaught := uncaught s |}.
Proof.
  unfold cancelRecording. destruct s as [st er mr ch sr recs strs pe un]. simpl.
  destruct mr as [r|]; simpl.
  - rewrite list_lookup_alter_eq.
    destruct (recs !! r) as [rec|] eqn:Hr; simpl.
    + destruct (decide (rec_state rec = rec_recording)) as [Hs|Hs].
      * unfold MediaRecorder_stop. simpl. rewrite list_lookup_alter_eq, Hr. simpl.
        rewrite decide_False by (rewrite Hs; discriminate). simpl.
        assert (<[r:=set_rec_state rec_inactive (set_rec_onstop false rec)]>
                  (alter (set_rec_onstop false) r recs) = alter cancelled r recs)
          as ->.
        { apply list_eq. intros i. destruct (decide (i = r)) as [->|Hne].
          - rewrite list_lookup_insert_eq by
              (rewrite length_alter; by apply lookup_lt_Some in Hr).
            rewrite list_lookup_alter_eq, Hr. simpl. f_equal.
            unfold cancelled. by rewrite decide_True.
          - rewrite list_lookup_insert_ne by done.
            by rewrite !list_lookup_alter_ne. }
        by destruct sr.
      * assert (alter (set_rec_onstop false) r recs = alter cancelled r recs) as ->.
        { apply list_eq. intros i. destruct (decide (i = r)) as [->|Hne].
          - rewrite !list_lookup_alter_eq, Hr. simpl. f_equal.
            unfold cancelled. by rewrite decide_False.
          - by rewrite !list_lookup_alter_ne. }
        by destruct sr.
    + assert (alter (set_rec_onstop false) r recs = alter cancelled r recs) as ->.
      { apply list_eq. intros i. destruct (decide (i = r)) as [->|Hne].
        - by rewrite !list_lookup_alter_eq, Hr.
        - by rewrite !list_lookup_alter_ne. }
      by destruct sr.
  - by destruct sr.
Qed.

Lemma cancelled_idemp rec : cancelled (cancelled rec) = cancelled rec.
Proof.
  unfold cancelled. simpl. f_equal.
  destruct (decide (rec_state rec = rec_recording)); simpl; [done|].
  by rewrite decide_False.
Qed.

Lemma cancelRecording_not_recording s :
  already_recording (cancelRecording s) = false.
Proof.
  rewrite cancelRecording_eq. unfold already_recording. simpl.
  destruct (mediaRecorderRef s) as [r|]; [|done].
  rewrite list_lookup_alter_eq. destruct (recorders s !! r) as [rec|]; [|done].
  simpl. apply bool_decide_eq_false.
  destruct (decide (rec_state rec = rec_recording)); [discriminate|done].
Qed.

(** [stop()] on every track: the stream keeps each of its tracks, and none
    of them is live. *)
Lemma stop_tracks_all tracks :
  stop_tracks tracks = replicate (length tracks) false.
Proof.
  induction tracks as [|live tracks IH]; [done|].
  unfold stop_tracks in *. simpl. by rewrite IH.
Qed.

(** C7.  [cancelRecording] can be called in every state and raises nothing.
    It stops the recorder if it is recording (and detaches its [onstop]),
    stops every track of the stream the hook holds (the stream keeps all its
    tracks, each of them stopped; no other stream is touched) and drops the
    handle, empties the chunk buffer and sets the status to [inactive].  On
    the initial state, where no session was ever started, it changes
    nothing, and calling it twice is the same as calling it once. *)
Theorem cancel_from_every_state (s : State) :
  let s' := cancelRecording s in
  status s' = inactive ∧ audioChunksRef s' = [] ∧ streamRef s' = None ∧
  uncaught s' = uncaught s ∧
  (∀ r rec, mediaRecorderRef s = Some r → recorders s !! r = Some rec →
     recorders s' !! r = Some (cancelled rec) ∧
     rec_state (cancelled rec) ≠ rec_recording ∧
     rec_onstop (cancelled rec) = false) ∧
  (∀ sid tracks, streamRef s = Some sid → streams s !! sid = Some tracks →
     streams s' !! sid = Some (replicate (length tracks) false)) ∧
  (∀ sid, streamRef s ≠ Some sid → streams s' !! sid = streams s !! sid) ∧
  already_recording s' = false ∧
  cancelRecording initial = initial ∧
  cancelRecording s' = s'.
Proof.
  intros s'. subst s'. rewrite !cancelRecording_eq. simpl.
  split; [done|]. split; [done|]. split; [done|]. split; [done|].
  split; [|split; [|split; [|split; [|split]]]].
  - intros r rec -> Hr. rewrite list_lookup_alter_eq, Hr. simpl.
    split; [done|]. split; [|done].
    destruct (decide (rec_state rec = rec_recording)); [discriminate|done].
  - intros sid tracks -> Hs. rewrite list_lookup_alter_eq, Hs. simpl.
    by rewrite stop_tracks_all.
  - intros sid Hne. destruct (streamRef s) as [sid'|]; [|done].
    rewrite list_lookup_alter_ne; [done|congruence].
  - unfold already_recording. simpl. destruct (mediaRecorderRef s) as [r|]; [|done].
    rewrite list_lookup_alter_eq. destruct (recorders s !! r) as [rec|]; [|done].
    simpl. apply bool_decide_eq_false.
    destruct (decide (rec_state rec = rec_recording)); [discriminate|done].
  - reflexivity.
  - f_equal. destruct (mediaRecorderRef s) as [r|]; [|done].
    apply list_eq. intros i. destruct (decide (i = r)) as [->|Hne].
    + rewrite !list_lookup_alter_eq. destruct (recorders s !! r); [|done].
      simpl. by rewrite cancelled_idemp.
    + by rewrite !list_lookup_alter_ne.
Qed.


Lemma already_recording_setStatus v s :
  already_recording (setStatus v s) = already_recording s.
Proof. reflexivity. Qed.

Lemma already_recording_setError v s :
  already_recording (setError v s) = already_recording s.
Proof. reflexivity. Qed.

Lemma start_begin_proceeds s :
  already_recording s = false →
  fst (startRecording_begin s) =
  set_pending (S (pending s)) (setError None (setStatus inactive s)).
Proof.
  intros Hrec. unfold startRecording_begin.
  by rewrite already_recording_setError, already_recording_setStatus, Hrec.
Qed.

Lemma startRecording_granted_runs tracks mimeType s :
  startRecording_granted tracks (Runs mimeType) s =
  ({| status := recording; error := error s;
      mediaRecorderRef := Some (length (recorders s));
      audioChunksRef := audioChunksRef s;
      streamRef := Some (length (streams s));
      recorders :=
        recorders s ++
        [{| rec_state := rec_recording; rec_mimeType := mimeType;
            rec_stream := length (streams s); rec_onstop := true;
            rec_promise := Pending |}];
      streams := streams s ++ [tracks];
      pending := pending s; uncaught := uncaught s |},
   ReturnsStopped (length (recorders s))).
Proof.
  unfold startRecording_granted. simpl. f_equal. f_equal.
  by rewrite alter_app_r_alt, Nat.sub_diag by lia.
Qed.

Lemma run_app l1 l2 s : run (l1 ++ l2) s = run l2 (run l1 s).
Proof. apply foldl_app. Qed.

Lemma run_cons e l s : run (e :: l) s = run l (step e s).
Proof. reflexivity. Qed.

(** What the [catch] block records for a thrown value. *)
Lemma startRecording_catch_eq err s :
  startRecording_catch err s =
  (setStatus inactive
     (setError
        (Some match err with
              | JsError _ message =>
                  if includes "Permission denied" message
                  then PERMISSION_DENIED_MESSAGE else message
              | JsValue _ | JsFalsy => "Could not access microphone."
              end) s),
   ReturnsRejected err).
Proof.
  unfold startRecording_catch. f_equal.
  destruct err as [name message| |]; [|done..].
  by destruct (includes _ message).
Qed.

(** When [getUserMedia] fails, whatever it rejects with, the call ends with
    status [inactive] and a message recorded, throws nothing and returns a
    rejected [stopped] promise; recorder, stream and chunk buffer are
    untouched, and a new call that is granted the device records. *)
Lemma acquisition_failure (s : State) (err : Thrown) (o : RecorderOutcome) :
  let '(s', result) := startRecording_resume (Denied err) o s in
  status s' = inactive ∧ is_Some (error s') ∧
  result = ReturnsRejected err ∧
  uncaught s' = uncaught s ∧
  mediaRecorderRef s' = mediaRecorderRef s ∧ recorders s' = recorders s ∧
  streamRef s' = streamRef s ∧ streams s' = streams s ∧
  audioChunksRef s' = audioChunksRef s ∧
  ∀ tracks mimeType,
    already_recording s = false →
    status (run [CallStart; Resume (Granted tracks) (Runs mimeType)] s')
      = recording.
Proof.
  unfold startRecording_resume. rewrite startRecording_catch_eq.
  cbn [status error uncaught mediaRecorderRef recorders streamRef streams
       audioChunksRef setStatus setError set_pending].
  repeat (split; [done|]).
  intros tracks mimeType Hrec. rewrite !run_cons.
  change (step CallStart ?x) with (fst (startRecording_begin x)).
  rewrite start_begin_proceeds by (by rewrite <- Hrec).
  unfold step. rewrite decide_False by done.
  unfold startRecording_resume. by rewrite startRecording_granted_runs.
Qed.

(** C6, the code at the failing input.  The [catch] block recognises a
    permission denial by the words [Permission denied] in the error's
    message.  Chromium words its [NotAllowedError] so, and the denial gets
    the permission message.  Firefox words the same [NotAllowedError]
    otherwise, and its denial is recorded with the browser's own message,
    like any other device failure.  For the rest the failure is handled as
    the specification says: status [inactive], nothing thrown, a rejected
    [stopped] promise, and a new call that is granted the device records. *)
Theorem permission_denial_unrecognised (s : State) (o : RecorderOutcome) :
  permission_denial firefox_denial = true ∧
  permission_denial chromium_denial = true ∧
  (let '(s', result) := startRecording_resume (Denied firefox_denial) o s in
   error s' = Some FIREFOX_DENIAL_MESSAGE ∧
   error s' ≠ Some PERMISSION_DENIED_MESSAGE ∧
   status s' = inactive ∧ result = ReturnsRejected firefox_denial ∧
   uncaught s' = uncaught s ∧
   ∀ tracks mimeType,
     already_recording s = false →
     status (run [CallStart; Resume (Granted tracks) (Runs mimeType)] s')
       = recording) ∧
  error (fst (startRecording_resume (Denied chromium_denial) o s)) =
    Some PERMISSION_DENIED_MESSAGE.
Proof.
  split; [done|]. split; [done|]. split; [|done].
  pose proof (acquisition_failure s firefox_denial o) as Hfail.
  unfold startRecording_resume in *. rewrite startRecording_catch_eq in *.
  destruct Hfail as (Hstatus & _ & Hresult & Huncaught & _ & _ & _ & _ & _ & Hagain).
  split; [done|]. split; [done|]. split; [done|]. split; [done|].
  split; [done|]. exact Hagain.
Qed.

Lemma run_DataAvailable r fragments s :
  r < length (recorders s) →
  run (map (DataAvailable r) fragments) s =
  set_audioChunksRef (audioChunksRef s ++ kept fragments) s.
Proof.
  revert s. induction fragments as [|d l IH]; intros s Hr.
  - unfold kept. simpl. rewrite app_nil_r. by destruct s.
  - simpl map. rewrite run_cons. unfold step at 1.
    rewrite decide_True by done. unfold ondataavailable, kept.
    rewrite filter_cons. fold (kept l).
    destruct (decide (0 < blob_size d)).
    + rewrite IH by done. simpl. by rewrite <- app_assoc.
    + by rewrite IH.
Qed.

Lemma kept_bytes fragments :
  concat (map blob_bytes (kept fragments)) = concat (map blob_bytes fragments).
Proof.
  induction fragments as [|d l IH]; [done|]. unfold kept. rewrite filter_cons.
  fold (kept l). destruct (decide (0 < blob_size d)) as [|Hz]; simpl.
  - by rewrite IH.
  - rewrite IH. unfold blob_size in Hz.
    destruct (blob_bytes d); [done|simpl in Hz; lia].
Qed.

Lemma kept_app l1 l2 : kept (l1 ++ l2) = kept l1 ++ kept l2.
Proof. apply filter_app. Qed.

Lemma finalize_after_stop (s : State) (r : nat) (rec : MediaRecorder)
    (tracks : MediaStream) (before after : list Blob) :
  status s = recording → mediaRecorderRef s = Some r →
  recorders s !! r = Some rec → rec_state rec = rec_recording →
  rec_onstop rec = true → rec_promise rec = Pending →
  streams s !! rec_stream rec = Some tracks →
  let requested := run (map (DataAvailable r) before ++ [CallStop]) s in
  let s' := run (map (DataAvailable r) after ++ [Stopped r]) requested in
  let payload :=
    new_Blob (audioChunksRef s ++ kept (before ++ after)) (reported_type rec) in
  recorders requested !! r = Some (set_rec_state rec_inactive rec) ∧
  status s' = stopped ∧
  (∃ rec', recorders s' !! r = Some rec' ∧
           rec_promise rec' = Resolved payload (reported_type rec)) ∧
  blob_bytes payload =
    concat (map blob_bytes (audioChunksRef s)) ++
    concat (map blob_bytes (before ++ after)) ∧
  blob_type payload = reported_type rec ∧
  streams s' !! rec_stream rec = Some (stop_tracks tracks) ∧
  Forall (λ live, live = false) (stop_tracks tracks) ∧
  streamRef s' = None ∧ audioChunksRef s' = [] ∧ uncaught s' = uncaught s.
Proof.
  intros Hst Hmr Hr Hrs Hon Hpr Hstr requested s' payload.
  pose proof (lookup_lt_Some _ _ _ Hr) as Hlt.
  assert (Hreq : requested =
    set_recorders (<[r := set_rec_state rec_inactive rec]> (recorders s))
      (set_audioChunksRef (audioChunksRef s ++ kept before) s)).
  { subst requested. rewrite run_app, run_DataAvailable by done.
    unfold run. simpl foldl. unfold step, stopRecording. simpl.
    rewrite Hst, Hmr. rewrite decide_True by done.
    unfold MediaRecorder_stop. simpl. rewrite Hr.
    rewrite decide_False by (rewrite Hrs; discriminate). done. }
  assert (Hs' : s' =
    {| status := stopped; error := error s; mediaRecorderRef := Some r;
       audioChunksRef := []; streamRef := None;
       recorders :=
         <[r := settle (Resolved payload (reported_type rec))
                  (set_rec_state rec_inactive rec)]> (recorders s);
       streams := alter stop_tracks (rec_stream rec) (streams s);
       pending := pending s; uncaught := uncaught s |}).
  { subst s'. rewrite run_app, run_DataAvailable
      by (rewrite Hreq; simpl; by rewrite length_insert).
    rewrite Hreq. unfold run. simpl foldl. unfold step, dispatch_stop. simpl.
    rewrite list_lookup_insert_eq by done. simpl. rewrite Hon.
    unfold onstop. simpl. rewrite Hmr. simpl.
    rewrite list_insert_insert_eq, list_lookup_insert_eq by done. simpl.
    fold (reported_type rec). rewrite <- !app_assoc, <- kept_app.
    fold payload.
    apply State_eq; simpl; try done.
    apply list_eq. intros i. destruct (decide (i = r)) as [->|Hne].
    - rewrite list_lookup_alter_eq, !list_lookup_insert_eq by done. done.
    - rewrite list_lookup_alter_ne, !list_lookup_insert_ne by done. done. }
  split. { rewrite Hreq. simpl. by rewrite list_lookup_insert_eq. }
  rewrite Hs'. simpl. split; [done|]. split.
  { eexists. rewrite list_lookup_insert_eq by done. split; [done|].
    simpl. by rewrite Hpr. }
  split. { by rewrite map_app, concat_app, kept_bytes. }
  split; [done|]. split. { by rewrite list_lookup_alter_eq, Hstr. }
  split. { unfold stop_tracks. by apply Forall_fmap, Forall_true. }
  done.
Qed.


Lemma detached_ext r s1 s2 :
  recorders s1 = recorders s2 → detached r s1 → detached r s2.
Proof. unfold detached. by intros ->. Qed.

Lemma detached_alter r r' f s recs :
  (∀ rec, rec_onstop rec = false →
          (∀ blob mimeType, rec_promise rec ≠ Resolved blob mimeType) →
          rec_onstop (f rec) = false ∧
          ∀ blob mimeType, rec_promise (f rec) ≠ Resolved blob mimeType) →
  recorders s = alter f r' recs →
  (∃ rec, recs !! r = Some rec ∧ rec_onstop rec = false ∧
          ∀ blob mimeType, rec_promise rec ≠ Resolved blob mimeType) →
  detached r s.
Proof.
  intros Hf Hs (rec & Hr & Hon & Hpr). unfold detached. rewrite Hs.
  destruct (decide (r' = r)) as [->|Hne].
  - exists (f rec). rewrite list_lookup_alter_eq, Hr. split; [done|].
    by apply Hf.
  - exists rec. by rewrite list_lookup_alter_ne.
Qed.

Lemma detached_MediaRecorder_stop r r' s :
  detached r s → detached r (MediaRecorder_stop r' s).
Proof.
  intros Hd. unfold MediaRecorder_stop.
  destruct (recorders s !! r') as [rec'|] eqn:Hr'; [|done].
  destruct (decide (rec_state rec' = rec_inactive)); [done|].
  destruct Hd as (rec & Hr & Hon & Hpr). unfold detached. simpl.
  destruct (decide (r' = r)) as [->|Hne].
  - exists (set_rec_state rec_inactive rec).
    rewrite list_lookup_insert_eq by (by eapply lookup_lt_Some).
    assert (rec' = rec) as -> by congruence. done.
  - exists rec. by rewrite list_lookup_insert_ne.
Qed.

Lemma detached_catch r err s :
  detached r s → detached r (fst (startRecording_catch err s)).
Proof.
  unfold startRecording_catch. simpl. by destruct (includes _ _).
Qed.

Lemma detached_step r e s : detached r s → detached r (step e s).
Proof.
  intros Hd. pose proof Hd as (rec & Hr & Hon & Hpr).
  pose proof (lookup_lt_Some _ _ _ Hr) as Hlt.
  destruct e as [|a o| | |r' data|r'|r'|r' err]; simpl.
  - unfold startRecording_begin. by destruct (already_recording _).
  - destruct (decide (pending s = 0)); [done|].
    unfold startRecording_resume. destruct a as [tracks|err].
    + unfold startRecording_granted. destruct o as [mimeType|err].
      * simpl. eapply detached_alter; [|reflexivity|]; [by intros|].
        exists rec. by rewrite lookup_app_l.
      * apply detached_catch. exists rec. simpl. by rewrite lookup_app_l.
    + by apply detached_catch.
  - unfold stopRecording. destruct (mediaRecorderRef s); [|done].
    destruct (decide _); [|done]. by apply detached_MediaRecorder_stop.
  - unfold cancelRecording.
    apply (detached_ext r
      (match mediaRecorderRef s with
       | Some r0 =>
           match alter (set_rec_onstop false) r0 (recorders s) !! r0 with
           | Some rec0 =>
               if decide (rec_state rec0 = rec_recording)
               then MediaRecorder_stop r0
                      (set_recorders
                         (alter (set_rec_onstop false) r0 (recorders s)) s)
               else set_recorders
                      (alter (set_rec_onstop false) r0 (recorders s)) s
           | None =>
               set_recorders (alter (set_rec_onstop false) r0 (recorders s)) s
           end
       | None => s
       end)).
    { simpl. by destruct (streamRef _). }
    destruct (mediaRecorderRef s) as [r0|]; [|done].
    assert (detached r
              (set_recorders (alter (set_rec_onstop false) r0 (recorders s)) s))
      as Hd'.
    { eapply detached_alter; [|reflexivity|by exists rec]. by intros. }
    destruct (alter _ _ _ !! r0); [|done].
    destruct (decide _); [|done]. by apply detached_MediaRecorder_stop.
  - destruct (decide _); [|done]. unfold ondataavailable.
    by destruct (decide _).
  - by destruct (decide _).
  - unfold dispatch_stop. destruct (recorders s !! r') as [rec'|] eqn:Hr'; [|done].
    assert (detached r
              (set_recorders
                 (<[r' := set_rec_state rec_inactive rec']> (recorders s)) s))
      as Hd'.
    { unfold detached. simpl. destruct (decide (r' = r)) as [->|Hne].
      - exists (set_rec_state rec_inactive rec).
        rewrite list_lookup_insert_eq by done.
        assert (rec' = rec) as -> by congruence. done.
      - exists rec. by rewrite list_lookup_insert_ne. }
    destruct (rec_onstop rec') eqn:Hon'; [|done].
    assert (r' ≠ r) as Hne by (intros ->; congruence).
    unfold onstop.
    destruct (mediaRecorderRef _ ≫= _) as [current|]; [|done].
    destruct (recorders (set_recorders _ _) !! r') as [rec0|] eqn:Hr0; [|done].
    unfold detached. simpl. exists rec.
    rewrite list_lookup_alter_ne, list_lookup_insert_ne by done. done.
  - destruct (decide _); [|done].
    destruct (onerror_eq r' err s) as (rejected & name & ->). simpl.
    eapply detached_alter; [|reflexivity|by exists rec].
    intros rec0 Hon0 Hpr0. split; [done|]. simpl.
    destruct (rec_promise rec0); [done|apply Hpr0|done].
Qed.

Lemma detached_run r events s : detached r s → detached r (run events s).
Proof.
  revert s. induction events as [|e l IH]; intros s Hd; [done|].
  rewrite run_cons. by apply IH, detached_step.
Qed.

Lemma detached_not_delivered r s : detached r s → ¬ delivered r s.
Proof.
  intros (rec & Hr & _ & Hpr) (rec' & blob & mimeType & Hr' & Hres).
  assert (rec' = rec) as -> by congruence. by eapply Hpr.
Qed.

(** C5.  Once [cancelRecording] has run on a session whose promise is still
    pending (for instance after [stopRecording], before the [stop] event),
    the session's [onstop] is detached, and no later sequence of calls and
    events, its own [stop] event included, resolves its promise with a
    payload. *)
Theorem cancel_discards_payload (s : State) (r : nat) (rec : MediaRecorder)
    (events : list Event) :
  mediaRecorderRef s = Some r → recorders s !! r = Some rec →
  rec_promise rec = Pending →
  ¬ delivered r (run events (cancelRecording s)) ∧
  uncaught (cancelRecording s) = uncaught s ∧
  ∃ rec', recorders (cancelRecording s) !! r = Some rec' ∧
          rec_onstop rec' = false ∧ rec_promise rec' = Pending.
Proof.
  intros Hmr Hr Hpr.
  assert (recorders (cancelRecording s) !! r = Some (cancelled rec)) as Hc.
  { rewrite cancelRecording_eq. simpl. by rewrite Hmr, list_lookup_alter_eq, Hr. }
  split; [|split].
  - apply detached_not_delivered, detached_run. exists (cancelled rec).
    split; [done|]. split; [done|]. simpl. by rewrite Hpr.
  - by rewrite cancelRecording_eq.
  - by exists (cancelled rec).
Qed.

Lemma component_run_app l1 l2 c :
  component_run (l1 ++ l2) c = component_run l2 (component_run l1 c).
Proof. apply foldl_app. Qed.

Lemma component_run_cons e l c :
  component_run (e :: l) c = component_run l (component_step e c).
Proof. reflexivity. Qed.

Lemma MediaRecorder_stop_status r s :
  status (MediaRecorder_stop r s) = status s.
Proof.
  unfold MediaRecorder_stop. destruct (recorders s !! r); [|done].
  by destruct (decide _).
Qed.

Lemma stopRecording_status cs s : status (stopRecording cs s) = status s.
Proof.
  unfold stopRecording. destruct (mediaRecorderRef s); [|done].
  destruct (decide _); [|done]. apply MediaRecorder_stop_status.
Qed.

Lemma effect_same c : effect (status (hook c)) c = c.
Proof. unfold effect. by rewrite decide_True. Qed.

Lemma component_step_Tick c : component_step Tick c = tick c.
Proof.
  simpl. unfold tick. destruct (timer c); [|apply effect_same].
  destruct (decide _); unfold effect; simpl.
  - by rewrite stopRecording_status, decide_True.
  - by rewrite decide_True.
Qed.

Lemma duration_step e c :
  duration c ≤ MAX_DURATION_SECONDS →
  duration (component_step e c) ≤ MAX_DURATION_SECONDS.
Proof.
  intros Hd. destruct e as [|e].
  - rewrite component_step_Tick. unfold tick. destruct (timer c); [|done].
    destruct (decide _); simpl; lia.
  - simpl. unfold effect. simpl. destruct (decide _); [done|].
    destruct (decide _); simpl; [unfold MAX_DURATION_SECONDS; lia|done].
Qed.

Lemma duration_run events c :
  duration c ≤ MAX_DURATION_SECONDS →
  duration (component_run events c) ≤ MAX_DURATION_SECONDS.
Proof.
  revert c. induction events as [|e l IH]; intros c Hd; [done|].
  rewrite component_run_cons. by apply IH, duration_step.
Qed.

Lemma ticks_below_cap n c :
  timer c = true → duration c + n < MAX_DURATION_SECONDS →
  component_run (replicate n Tick) c =
  {| hook := hook c; duration := duration c + n; timer := true |}.
Proof.
  revert c. induction n as [|n IH]; intros c Ht Hd.
  - simpl. rewrite Nat.add_0_r. destruct c. simpl in Ht. by subst.
  - simpl replicate. rewrite component_run_cons, component_step_Tick.
    unfold tick at 1. rewrite Ht. rewrite decide_False by lia.
    rewrite IH; simpl; [|done|lia]. f_equal. lia.
Qed.

Lemma timer_step e c :
  timer c = bool_decide (status (hook c) = recording) →
  timer (component_step e c) =
  bool_decide (status (hook (component_step e c)) = recording).
Proof.
  intros Hinv. destruct e as [|e].
  - rewrite component_step_Tick. unfold tick.
    destruct (timer c) eqn:Ht; [|by rewrite Ht].
    destruct (decide _); simpl; by rewrite ?stopRecording_status.
  - simpl. unfold effect. simpl.
    destruct (decide (status (step e (hook c)) = status (hook c))) as [Heq|];
      simpl; [by rewrite Heq|].
    destruct (decide _) as [Heq|]; simpl;
      [by rewrite Heq|by rewrite bool_decide_eq_false_2].
Qed.

Lemma timer_run events c :
  timer c = bool_decide (status (hook c) = recording) →
  timer (component_run events c) =
  bool_decide (status (hook (component_run events c)) = recording).
Proof.
  revert c. induction events as [|e l IH]; intros c Hinv; [done|].
  rewrite component_run_cons. by apply IH, timer_step.
Qed.

Lemma tick_duration c :
  timer c = true →
  duration (component_step Tick c) =
  Nat.min (duration c + 1) MAX_DURATION_SECONDS.
Proof.
  intros Ht. rewrite component_step_Tick. unfold tick. rewrite Ht.
  destruct (decide _); simpl; lia.
Qed.

(** C3.  While the status is [recording] the interval runs; each tick adds
    one to the elapsed seconds, which never exceed 300.  From the start of a
    recording session the count after [n < 300] ticks is [n]; the 300th tick
    calls [stopRecording] exactly as a press on Stop would, and when the
    recorder's [stop] event follows, the status is [stopped], the interval
    is cleared and the session's promise holds the finalized payload, with
    no call from outside. *)
Theorem duration_cap (c : Component) (r : nat) (rec : MediaRecorder)
    (tracks : MediaStream) :
  timer c = true → duration c = 0 → status (hook c) = recording →
  mediaRecorderRef (hook c) = Some r → recorders (hook c) !! r = Some rec →
  rec_state rec = rec_recording → rec_onstop rec = true →
  rec_promise rec = Pending → streams (hook c) !! rec_stream rec = Some tracks →
  let capped := component_run (replicate MAX_DURATION_SECONDS Tick) c in
  let finalized := component_step (Hook (Stopped r)) capped in
  let payload := new_Blob (audioChunksRef (hook c)) (reported_type rec) in
  (∀ n, n < MAX_DURATION_SECONDS →
        component_run (replicate n Tick) c =
        {| hook := hook c; duration := n; timer := true |}) ∧
  (∀ events, duration (component_run events c) ≤ MAX_DURATION_SECONDS) ∧
  (∀ events,
     let c' := component_run events mounted in
     duration c' ≤ MAX_DURATION_SECONDS ∧
     (timer c' = true ↔ status (hook c') = recording) ∧
     (timer c' = true →
      duration (component_step Tick c') =
      Nat.min (duration c' + 1) MAX_DURATION_SECONDS)) ∧
  duration capped = MAX_DURATION_SECONDS ∧
  hook capped = stopRecording (status (hook c)) (hook c) ∧
  recorders (hook capped) !! r = Some (set_rec_state rec_inactive rec) ∧
  status (hook finalized) = stopped ∧ timer finalized = false ∧
  (∃ rec', recorders (hook finalized) !! r = Some rec' ∧
           rec_promise rec' = Resolved payload (reported_type rec)) ∧
  streams (hook finalized) !! rec_stream rec = Some (stop_tracks tracks) ∧
  uncaught (hook finalized) = uncaught (hook c).
Proof.
  intros Ht Hd Hst Hmr Hr Hrs Hon Hpr Hstr capped finalized payload.
  assert (Hbelow : ∀ n, n < MAX_DURATION_SECONDS →
            component_run (replicate n Tick) c =
            {| hook := hook c; duration := n; timer := true |}).
  { intros n Hn. rewrite ticks_below_cap by (rewrite ?Hd; fast_done).
    by rewrite Hd. }
  set (st := stopRecording recording (hook c)).
  assert (Hcap : capped =
            {| hook := st; duration := MAX_DURATION_SECONDS; timer := true |}).
  { subst capped. change MAX_DURATION_SECONDS with (299 + 1) at 1.
    rewrite replicate_add, component_run_app, Hbelow
      by (unfold MAX_DURATION_SECONDS; lia).
    simpl replicate. rewrite component_run_cons, component_step_Tick.
    unfold tick. simpl. reflexivity. }
  destruct (finalize_after_stop (hook c) r rec tracks [] []
              Hst Hmr Hr Hrs Hon Hpr Hstr)
    as (Hreq & Hstop & Hdel & _ & _ & Hstreams & _ & _ & _ & Hunc).
  change (run (map (DataAvailable r) [] ++ [CallStop]) (hook c))
    with (stopRecording (status (hook c)) (hook c)) in Hreq, Hstop, Hdel, Hstreams, Hunc.
  rewrite Hst in Hreq, Hstop, Hdel, Hstreams, Hunc. fold st in Hreq, Hstop, Hdel, Hstreams, Hunc.
  change (run (map (DataAvailable r) [] ++ [Stopped r]) st)
    with (dispatch_stop r st) in Hstop, Hdel, Hstreams, Hunc.
  change (kept ([] ++ [])) with (@nil Blob) in Hdel.
  rewrite app_nil_r in Hdel. fold payload in Hdel.
  assert (Hfin : finalized =
            {| hook := dispatch_stop r st; duration := MAX_DURATION_SECONDS;
               timer := false |}).
  { subst finalized. rewrite Hcap. unfold component_step, effect.
    cbn [hook duration timer].
    change (step (Stopped r) st) with (dispatch_stop r st).
    rewrite Hstop. subst st. rewrite stopRecording_status, Hst.
    rewrite !decide_False by discriminate. reflexivity. }
  split; [exact Hbelow|].
  split.
  { intros events. apply duration_run. rewrite Hd. apply Nat.le_0_l. }
  split.
  { intros events c'. split; [|split].
    - apply duration_run. apply Nat.le_0_l.
    - subst c'. rewrite (timer_run events mounted) by reflexivity.
      apply bool_decide_eq_true.
    - apply tick_duration. }
  rewrite Hfin, Hcap. cbn [hook duration timer]. rewrite Hst.
  repeat split; assumption || reflexivity.
Qed.

(** C2, the code at the failing input.  A second [startRecording] during a
    recording session returns at the guard and acquires nothing: recorder,
    stream and chunk buffer are unchanged.  But the two resets placed before
    the guard have run: the status is now [inactive] although the recorder
    still records, and [stopRecording], which looks at the status, no longer
    stops it. *)
Theorem start_while_recording_resets_status :
  status recording_session = recording ∧
  already_recording recording_session = true ∧
  let '(s', proceeds) := startRecording_begin recording_session in
  proceeds = false ∧
  status s' = inactive ∧ status s' ≠ status recording_session ∧
  recorders s' = recorders recording_session ∧
  streams s' = streams recording_session ∧
  mediaRecorderRef s' = mediaRecorderRef recording_session ∧
  streamRef s' = streamRef recording_session ∧
  audioChunksRef s' = audioChunksRef recording_session ∧
  already_recording s' = true ∧
  stopRecording (status s') s' = s'.
Proof. repeat split; done. Qed.

Lemma start_while_recording (s : State) :
  already_recording s = true →
  startRecording_begin s = (setError None (setStatus inactive s), false).
Proof.
  intros Hrec. unfold startRecording_begin.
  by rewrite already_recording_setError, already_recording_setStatus, Hrec.
Qed.

Lemma effect_hook previous c : hook (effect previous c) = hook c.
Proof. unfold effect. by repeat destruct (decide _). Qed.

Lemma effect_starts previous c :
  status (hook c) = recording → previous ≠ recording →
  effect previous c = {| hook := hook c; duration := 0; timer := true |}.
Proof.
  intros Hs Hp. unfold effect. rewrite Hs.
  rewrite decide_False by congruence. by rewrite decide_True.
Qed.

(** Pressing Start in the component: the call passes the guard, the device
    is granted, and the effect keyed on the status starts the interval with
    the elapsed seconds at 0. *)
Lemma start_in_component c tracks mimeType :
  already_recording (hook c) = false →
  let c' :=
    component_run
      [Hook CallStart; Hook (Resume (Granted tracks) (Runs mimeType))] c in
  status (hook c') = recording ∧ duration c' = 0 ∧ timer c' = true.
Proof.
  intros Hrec c'.
  set (h1 := set_pending (S (pending (hook c)))
               (setError None (setStatus inactive (hook c)))).
  set (c1 := component_step (Hook CallStart) c).
  assert (hook c1 = h1) as Hh1.
  { subst c1. unfold component_step. rewrite effect_hook. cbn [hook].
    unfold step. by rewrite start_begin_proceeds. }
  assert (c' = effect (status h1)
                 {| hook := step (Resume (Granted tracks) (Runs mimeType)) h1;
                    duration := duration c1; timer := timer c1 |}) as Hc'.
  { subst c'.
    change (component_run _ c)
      with (component_step (Hook (Resume (Granted tracks) (Runs mimeType))) c1).
    unfold component_step. by rewrite Hh1. }
  assert (status (step (Resume (Granted tracks) (Runs mimeType)) h1) = recording)
    as Hst.
  { unfold step. rewrite decide_False by (subst h1; simpl; discriminate).
    unfold startRecording_resume. by rewrite startRecording_granted_runs. }
  rewrite Hc', effect_starts; [done|exact Hst|subst h1; simpl; discriminate].
Qed.

(** C8, the code at the failing input.  [startRecording] never assigns the
    chunk buffer; it is emptied by [onstop] and by [cancelRecording] only.
    Since [cancelRecording] leaves [ondataavailable] attached, the last
    fragment of the recorder it stops lands in the buffer it has just
    emptied, whether that fragment arrives while the next call waits for the
    device or before that call is made.  The next session is granted the
    device and records, with the fragment of the cancelled session in its
    buffer, and its payload begins with that fragment.  A session started
    after one that was stopped and finalized does begin with an empty
    buffer, and with the elapsed seconds back at 0. *)
Theorem start_keeps_stale_fragments :
  let s := run restart_after_cancel initial in
  status s = recording ∧ mediaRecorderRef s = Some 1 ∧ streamRef s = Some 1 ∧
  recorders s !! 0 =
    Some {| rec_state := rec_inactive; rec_mimeType := "audio/webm";
            rec_stream := 0; rec_onstop := false; rec_promise := Pending |} ∧
  recorders s !! 1 =
    Some {| rec_state := rec_recording; rec_mimeType := "audio/webm";
            rec_stream := 1; rec_onstop := true; rec_promise := Pending |} ∧
  audioChunksRef s = [fragment Byte.x01] ∧
  audioChunksRef (run restart_after_cancel_late initial) = [fragment Byte.x01] ∧
  (∃ rec', recorders (run finish_session s) !! 1 = Some rec' ∧
           rec_promise rec' =
             Resolved {| blob_bytes := [Byte.x01; Byte.x02];
                         blob_type := "audio/webm" |} "audio/webm") ∧
  let c := component_run restart_after_stop mounted in
  status (hook c) = recording ∧ duration c = 0 ∧ timer c = true ∧
  audioChunksRef (hook c) = [] ∧
  duration (component_run (take 7 restart_after_stop) mounted) = 2.
Proof.
  cbv zeta. repeat split; try (vm_compute; reflexivity).
  eexists. split; vm_compute; reflexivity.
Qed.


(** C5, witness: [cancelRecording] after [stopRecording], then the [stop]
    event. *)
Lemma cancel_discards_payload_session :
  (mediaRecorderRef stop_requested = Some 0 ∧
   recorders stop_requested !! 0 = Some (set_rec_state rec_inactive session_recorder) ∧
   rec_promise (set_rec_state rec_inactive session_recorder) = Pending) ∧
  ¬ delivered 0 (run [Stopped 0] (cancelRecording stop_requested)).
Proof.
  split; [repeat split|].
  exact (proj1 (cancel_discards_payload stop_requested 0
                  (set_rec_state rec_inactive session_recorder) [Stopped 0]
                  eq_refl eq_refl eq_refl)).
Defined.

(** C3, witness: the component after Start, 300 ticks, then the [stop]
    event. *)
Lemma duration_cap_session :
  (timer recording_component = true ∧ duration recording_component = 0 ∧
   status (hook recording_component) = recording ∧
   mediaRecorderRef (hook recording_component) = Some 0 ∧
   recorders (hook recording_component) !! 0 = Some session_recorder ∧
   rec_state session_recorder = rec_recording ∧
   rec_onstop session_recorder = true ∧
   rec_promise session_recorder = Pending ∧
   streams (hook recording_component) !! rec_stream session_recorder
     = Some [true]) ∧
  status (hook (component_step (Hook (Stopped 0))
                  (component_run (replicate MAX_DURATION_SECONDS Tick)
                     recording_component))) = stopped.
Proof.
  split; [repeat split|].
  destruct (duration_cap recording_component 0 session_recorder [true]
              eq_refl eq_refl eq_refl eq_refl eq_refl eq_refl eq_refl eq_refl
              eq_refl)
    as (_ & _ & _ & _ & _ & _ & Hstatus & _).
  exact Hstatus.
Defined.

End Controller.

(** ** The edit distance as a metric *)
Module Metric.
Import Scorer Levenshtein.

Section MetricFacts.
Context {A : Type} `{EqDecision A}.

Lemma edits_zero (a b : list A) : edits 0 a b → a = b.
Proof. by inversion 1. Qed.

Lemma edits_trans n m (a b c : list A) :
  edits n a b → edits m b c → edits (n + m) a c.
Proof.
  induction 1 as [a|n a b b' Hab Hbb' IH]; intros Hbc; [done|].
  simpl. eapply edits_step; [exact Hab|]. by apply IH.
Qed.

Lemma edit1_length (a b : list A) :
  edit1 a b → length a ≤ S (length b) ∧ length b ≤ S (length a).
Proof. destruct 1; rewrite !length_app; simpl; lia. Qed.

Lemma edits_length n (a b : list A) :
  edits n a b → length a ≤ length b + n ∧ length b ≤ length a + n.
Proof.
  induction 1 as [a|n a b c Hab _ IH]; [lia|].
  apply edit1_length in Hab. lia.
Qed.

Lemma lev_refl (a : list A) : lev a a = 0.
Proof.
  pose proof (lev_lower_bound 0 a a (edits_refl a)). lia.
Qed.

(** X1.  The distance the table yields is 0 exactly when the two strings
    are the same string. *)
Theorem distance_zero_iff_equal (a b : list A) :
  calculateLevenshteinDistance a b = Some 0 ↔ a = b.
Proof.
  rewrite calculateLevenshteinDistance_lev. split.
  - intros [= Hd]. apply edits_zero. rewrite <- Hd. apply lev_edits.
  - intros ->. by rewrite lev_refl.
Qed.

(** X2.  The distance obeys the triangle inequality: going from [a] to [c]
    never takes more edits than going through a third string [b]. *)
Theorem distance_triangle (a b c : list A) :
  ∃ ac ab bc,
    calculateLevenshteinDistance a c = Some ac ∧
    calculateLevenshteinDistance a b = Some ab ∧
    calculateLevenshteinDistance b c = Some bc ∧
    ac ≤ ab + bc.
Proof.
  exists (lev a c), (lev a b), (lev b c).
  rewrite !calculateLevenshteinDistance_lev. repeat split.
  apply lev_lower_bound. eapply edits_trans; apply lev_edits.
Qed.

(** X3.  The distance is at least the difference of the two lengths, and it
    is the length of the other string when one of the two is empty. *)
Theorem distance_at_least_length_difference (a b : list A) :
  ∃ d, calculateLevenshteinDistance a b = Some d ∧
       length a - length b ≤ d ∧ length b - length a ≤ d ∧
       (a = [] → d = length b) ∧ (b = [] → d = length a).
Proof.
  exists (lev a b). rewrite calculateLevenshteinDistance_lev.
  pose proof (edits_length _ _ _ (lev_edits a b)).
  repeat split; try lia.
  - intros ->. apply lev_nil_l.
  - intros ->. apply lev_nil_r.
Qed.

Lemma lev_common_head x (a b : list A) : lev (x :: a) (x :: b) = lev a b.
Proof.
  rewrite lev_cons_cons, decide_True by done. unfold min3.
  pose proof (lev_uncons_l_le x a b) as H1.
  pose proof (lev_uncons_l_le x b a) as H2.
  rewrite (lev_sym (x :: b) a), (lev_sym b a) in H2.
  pose proof (lev_uncons_l_le x a (x :: b)) as H3.
  pose proof (lev_uncons_l_le x b (x :: a)) as H4.
  rewrite (lev_sym (x :: b) (x :: a)), (lev_sym b (x :: a)) in H4.
  lia.
Qed.

Lemma lev_common_prefix (p a b : list A) : lev (p ++ a) (p ++ b) = lev a b.
Proof. induction p as [|x p IH]; [done|]. simpl app. by rewrite lev_common_head. Qed.

(** X4.  Text that both strings begin with, and text that both end with,
    does not count: the distance is that of the parts in between. *)
Theorem distance_ignores_common_ends (p q a b : list A) :
  calculateLevenshteinDistance (p ++ a ++ q) (p ++ b ++ q) =
  calculateLevenshteinDistance a b.
Proof.
  rewrite !calculateLevenshteinDistance_lev. f_equal.
  rewrite lev_common_prefix, <- lev_rev, !rev_app_distr, lev_common_prefix.
  apply lev_rev.
Qed.

End MetricFacts.
End Metric.

(** ** Bounds on a rounded percentage *)
Module Percent.
Import Scorer Rounding.
Local Open Scope Z_scope.

Lemma exact_percent_ge k m c :
  0 < m → c * m ≤ 100 * k → (inject_Z c <= exact_percent k m)%Q.
Proof.
  intros Hm Hc. unfold exact_percent.
  apply Qle_shift_div_l.
  - change 0%Q with (inject_Z 0). by rewrite <- Zlt_Qlt.
  - rewrite <- inject_Z_mult, <- Zle_Qle. done.
Qed.

Lemma exact_percent_le k m c :
  0 < m → 100 * k ≤ c * m → (exact_percent k m <= inject_Z c)%Q.
Proof.
  intros Hm Hc. unfold exact_percent.
  apply Qle_shift_div_r.
  - change 0%Q with (inject_Z 0). by rewrite <- Zlt_Qlt.
  - rewrite <- inject_Z_mult, <- Zle_Qle. done.
Qed.

Lemma round_half_up_ge x c : (inject_Z c <= x)%Q → c ≤ round_half_up x.
Proof.
  intros Hx. unfold round_half_up.
  rewrite <- (Qfloor_Z c). apply Qfloor_resp_le. lra.
Qed.

Lemma round_half_up_le x c : (x <= inject_Z c)%Q → round_half_up x ≤ c.
Proof.
  intros Hx. unfold round_half_up.
  assert (Qfloor (x + (1 # 2)) < c + 1); [|lia].
  rewrite Zlt_Qlt. eapply Qle_lt_trans; [apply Qfloor_le|].
  rewrite inject_Z_plus. change (inject_Z 1) with 1%Q. lra.
Qed.

Lemma tie_above x c :
  (inject_Z c <= x)%Q → is_tie x → c ≤ round_half_up x - 1.
Proof.
  intros Hx Ht. unfold is_tie in Ht.
  assert (c < round_half_up x); [|lia].
  rewrite Zlt_Qlt, Ht. lra.
Qed.

(** The percentage the code computes is at least [c] when the exact
    percentage is. *)
Lemma percent_at_least k m c :
  0 ≤ k ≤ m → 0 < m < 2 ^ 44 → c * m ≤ 100 * k →
  ∃ r, Math_round (mul (div (of_int k) (of_int m)) (of_int 100)) = Some r ∧
       c ≤ r ≤ 100 ∧
       (¬ is_tie (exact_percent k m) → r = round_half_up (exact_percent k m)) ∧
       (is_tie (exact_percent k m) →
        r = round_half_up (exact_percent k m) ∨
        r = round_half_up (exact_percent k m) - 1).
Proof.
  intros Hk Hm Hc.
  destruct (percent_round k m Hk Hm) as (r & Hr & Hrange & Hnt & Ht).
  exists r. split; [done|]. split; [|done].
  split; [|lia].
  pose proof (exact_percent_ge k m c ltac:(lia) Hc) as Hx.
  destruct (Qeq_dec (inject_Z (round_half_up (exact_percent k m)))
              (exact_percent k m + (1 # 2))) as [Htie|Hntie].
  - pose proof (tie_above _ _ Hx Htie). pose proof (round_half_up_ge _ _ Hx).
    destruct (Ht Htie); lia.
  - rewrite (Hnt Hntie). by apply round_half_up_ge.
Qed.

(** ... and at most [c] when the exact percentage is. *)
Lemma percent_at_most k m c :
  0 ≤ k ≤ m → 0 < m < 2 ^ 44 → 100 * k ≤ c * m →
  ∃ r, Math_round (mul (div (of_int k) (of_int m)) (of_int 100)) = Some r ∧
       0 ≤ r ≤ c.
Proof.
  intros Hk Hm Hc.
  destruct (percent_round k m Hk Hm) as (r & Hr & Hrange & Hnt & Ht).
  exists r. split; [done|]. split; [lia|].
  pose proof (exact_percent_le k m c ltac:(lia) Hc) as Hx.
  pose proof (round_half_up_le _ _ Hx).
  destruct (Qeq_dec (inject_Z (round_half_up (exact_percent k m)))
              (exact_percent k m + (1 # 2))) as [Htie|Hntie].
  - destruct (Ht Htie); lia.
  - rewrite (Hnt Hntie). done.
Qed.

(** Both bounds at once. *)
Lemma percent_between k m lo hi :
  0 ≤ k ≤ m → 0 < m < 2 ^ 44 → lo * m ≤ 100 * k → 100 * k ≤ hi * m →
  ∃ r, Math_round (mul (div (of_int k) (of_int m)) (of_int 100)) = Some r ∧
       lo ≤ r ≤ hi ∧ 0 ≤ r ≤ 100 ∧
       (¬ is_tie (exact_percent k m) → r = round_half_up (exact_percent k m)) ∧
       (is_tie (exact_percent k m) →
        r = round_half_up (exact_percent k m) ∨
        r = round_half_up (exact_percent k m) - 1).
Proof.
  intros Hk Hm Hlo Hhi.
  destruct (percent_at_least k m lo Hk Hm Hlo) as (r & Hr & Hrange & Hexact).
  destruct (percent_at_most k m hi Hk Hm Hhi) as (r' & Hr' & Hrange').
  assert (r' = r) as -> by congruence.
  exists r. repeat split; try tauto; lia.
Qed.

End Percent.

(** ** Normalisation and the extremes of the similarity *)
Module Normalisation.
Import Scorer Levenshtein Rounding Similarity Metric Percent.

Lemma trim_start_white ws s :
  Forall (λ c, is_white_space c = true) ws → trim_start (ws ++ s) = trim_start s.
Proof. induction 1 as [|c ws Hc _ IH]; [done|]. simpl. by rewrite Hc. Qed.

Lemma trim_start_all_white ws :
  Forall (λ c, is_white_space c = true) ws → trim_start ws = [].
Proof.
  intros Hws. rewrite <- (app_nil_r ws). by rewrite trim_start_white.
Qed.

Lemma trim_start_app s ws :
  Forall (λ c, is_white_space c = true) ws →
  trim_start (s ++ ws) =
  match trim_start s with [] => [] | t => t ++ ws end.
Proof.
  intros Hws. induction s as [|c s IH]; simpl.
  - by apply trim_start_all_white.
  - destruct (is_white_space c); [exact IH|done].
Qed.

Lemma trim_pad before after s :
  Forall (λ c, is_white_space c = true) before →
  Forall (λ c, is_white_space c = true) after →
  trim (before ++ s ++ after) = trim s.
Proof.
  intros Hb Ha. unfold trim.
  rewrite trim_start_white, trim_start_app by done.
  destruct (trim_start s) as [|c t] eqn:Hs; [done|].
  rewrite rev_app_distr, trim_start_white; [done|].
  by apply Forall_rev.
Qed.

Section NormalisationFacts.
Variable toLowerCase : jsstring → jsstring.

(** X5.  Two texts with the same normal form (equal after trimming and
    lower-casing, so in particular texts that differ only in case or in
    surrounding white space) score 100. *)
Theorem similarity_same_normal_form (a b : jsstring) :
  toLowerCase (trim a) = toLowerCase (trim b) →
  (Z.of_nat (length (toLowerCase (trim a))) < 2 ^ 44)%Z →
  calculateTextSimilarity toLowerCase a b = Some 100%Z.
Proof.
  intros Heq Hlen. rewrite calculateTextSimilarity_eq. cbv zeta.
  rewrite <- Heq, lev_refl, Nat.max_id, Z.sub_0_r.
  destruct (decide _) as [|Hne]; [done|].
  destruct (percent_at_least (Z.of_nat (length (toLowerCase (trim a))))
              (Z.of_nat (length (toLowerCase (trim a)))) 100)
    as (r & -> & Hr & _); [lia|lia|lia|].
  simpl. f_equal. lia.
Qed.

(** X6.  When one of the two normalised texts is empty and the other is
    not, the score is 0, whichever side is the empty one. *)
Theorem similarity_against_empty (a b : jsstring) :
  length (toLowerCase (trim b)) = 0 →
  0 < length (toLowerCase (trim a)) →
  (Z.of_nat (length (toLowerCase (trim a))) < 2 ^ 53)%Z →
  calculateTextSimilarity toLowerCase a b = Some 0%Z ∧
  calculateTextSimilarity toLowerCase b a = Some 0%Z.
Proof.
  intros Hb Ha Hlen.
  assert (calculateTextSimilarity toLowerCase a b = Some 0%Z) as Hab.
  { rewrite calculateTextSimilarity_eq. cbv zeta.
    apply nil_length_inv in Hb. rewrite Hb, lev_nil_r. simpl length.
    rewrite Nat.max_0_r, Z.sub_diag.
    destruct (decide _) as [|Hne]; [lia|].
    rewrite percent_zero by lia. done. }
  split; [done|].
  rewrite calculateTextSimilarity_eq. cbv zeta.
  apply nil_length_inv in Hb. rewrite Hb, lev_nil_l. simpl length.
  rewrite Nat.max_0_l, Z.sub_diag.
  destruct (decide _) as [|Hne]; [lia|].
  rewrite percent_zero by lia. done.
Qed.

(** X7.  White space around either text does not change the score. *)
Theorem similarity_ignores_outer_white_space
    (before after before' after' a b : jsstring) :
  Forall (λ c, is_white_space c = true) (before ++ after ++ before' ++ after') →
  calculateTextSimilarity toLowerCase (before ++ a ++ after)
    (before' ++ b ++ after') =
  calculateTextSimilarity toLowerCase a b.
Proof.
  rewrite !Forall_app. intros (Hb & Ha & Hb' & Ha').
  unfold calculateTextSimilarity. by rewrite !trim_pad.
Qed.

End NormalisationFacts.
End Normalisation.

(** ** The clock of the recorder *)
Module Clock.
Import Scorer Rounding Formatting.
Local Open Scope Z_scope.

(** [Math.floor] is [⌊x⌋] on the value of a finite number. *)
Lemma Math_floor_finite s m e :
  Math_floor (S754_finite s m e) =
  Some (Qfloor (F2Q (if s then Z.neg m else Z.pos m) e)).
Proof.
  unfold Math_floor. f_equal. set (v := if s then Z.neg m else Z.pos m).
  clearbody v. symmetry. destruct e as [|k|k].
  - apply Qfloor_unique; unfold F2Q, bpow; simpl;
      rewrite ?inject_Z_plus; change (inject_Z 1) with 1%Q; lra.
  - apply Qfloor_unique; unfold F2Q; rewrite (bpow_inject (Z.pos k)) by lia;
      rewrite ?inject_Z_plus, ?inject_Z_mult; change (inject_Z 1) with 1%Q; lra.
  - change (- Z.neg k) with (Z.pos k).
    set (W := 2 ^ Z.pos k).
    assert (0 < W) as HW by (apply Z.pow_pos_nonneg; lia).
    pose proof (Z.div_mod v W ltac:(lia)) as Hdm.
    pose proof (Z.mod_pos_bound v W HW) as Hmod.
    set (y := F2Q v (Z.neg k)).
    assert (y * inject_Z W == inject_Z v)%Q as Hy.
    { subst y W. unfold F2Q.
      rewrite <- (bpow_inject (Z.pos k)) by lia.
      assert (bpow (Z.neg k) * bpow (Z.pos k) == 1)%Q as Hinv.
      { rewrite <- bpow_add. replace (Z.neg k + Z.pos k) with 0 by lia.
        reflexivity. }
      transitivity (inject_Z v * (bpow (Z.neg k) * bpow (Z.pos k)))%Q; [ring|].
      rewrite Hinv. ring. }
    assert (0 < inject_Z W)%Q as HW' by (by rewrite <- (Zlt_Qlt 0)).
    apply Qfloor_unique.
    + apply (Qmult_le_r _ _ (inject_Z W)); [done|].
      rewrite Hy, <- inject_Z_mult, <- Zle_Qle. nia.
    + apply (Qmult_lt_r _ _ (inject_Z W)); [done|].
      rewrite Hy, <- inject_Z_mult, <- Zlt_Qlt. nia.
Qed.

(** The quotient by 60 computed on numbers and then floored is the integer
    quotient. *)
Lemma floor_div_60 n :
  0 ≤ n < 2 ^ 44 → Math_floor (div (of_int n) (of_int 60)) = Some (n / 60).
Proof.
  intros Hn. destruct (decide (n = 0)) as [->|Hn0]; [reflexivity|].
  destruct (of_int_pos n) as (mk & ek & -> & Hmk & Hek & Hvk); [lia|].
  destruct (of_int_pos 60) as (ms & es & -> & Hms & Hes & Hvs); [lia|].
  set (q := n / 60).
  pose proof (Z.div_mod n 60 ltac:(lia)) as Hdm.
  pose proof (Z.mod_pos_bound n 60 ltac:(lia)) as Hmod. fold q in Hdm.
  set (v := (inject_Z n * / 60)%Q).
  assert (v * 60 == inject_Z n)%Q as Hv by (subst v; field).
  assert (inject_Z q <= v)%Q as Hqv.
  { apply (Qmult_le_r _ _ 60); [lra|]. rewrite Hv.
    change 60%Q with (inject_Z 60). rewrite <- inject_Z_mult, <- Zle_Qle. lia. }
  assert (v <= inject_Z q + (59 # 60))%Q as Hvq.
  { apply (Qmult_le_r _ _ 60); [lra|]. rewrite Hv.
    assert (inject_Z n <= inject_Z (60 * q + 59))%Q as Hle
      by (rewrite <- Zle_Qle; lia).
    rewrite inject_Z_plus, inject_Z_mult in Hle.
    change (inject_Z 60) with 60%Q in Hle. change (inject_Z 59) with 59%Q in Hle.
    lra. }
  assert (v < bpow 39)%Q as Hv39.
  { assert (bpow 39 == inject_Z (2 ^ 39))%Q as -> by reflexivity.
    apply (Qmult_lt_r _ _ 60); [lra|]. rewrite Hv.
    change 60%Q with (inject_Z 60). rewrite <- inject_Z_mult, <- Zlt_Qlt. lia. }
  destruct (div_normal mk ek ms es v) as
    (mq & eq & E & -> & Hmq & Heq & HE & [Hbin _] & [Hn1 Hn2] & _ & Hdown);
    [done|done|lia|lia|by rewrite Hvk, Hvs|].
  assert (E ≤ -14) as HE14.
  { assert (E + 52 < 39); [|lia]. apply bpow_lt_inv. lra. }
  assert (bpow E <= bpow (-14))%Q as HbE by (by apply bpow_le).
  assert (bpow (-14) == 1 # 16384)%Q as Hb14 by reflexivity.
  rewrite Math_floor_finite. f_equal.
  set (f := F2Q (Z.pos mq) eq) in *.
  apply Qfloor_unique.
  - specialize (Hdown (q * 2 ^ (- E))). rewrite F2Q_shift in Hdown by lia.
    replace (E + - E) with 0 in Hdown by lia.
    assert (F2Q q 0 == inject_Z q)%Q as Hq0 by (unfold F2Q, bpow; simpl; ring).
    rewrite Hq0 in Hdown. by apply Hdown.
  - rewrite inject_Z_plus. change (inject_Z 1) with 1%Q. lra.
Qed.

Lemma two_digits (m : nat) :
  (m < 100)%nat →
  padStart 2 "0" (toString (Z.of_nat m)) =
  String (digit (m / 10)) (String (digit (m mod 10)) EmptyString).
Proof.
  intros Hm.
  assert (forallb
            (λ m, String.eqb (padStart 2 "0" (toString (Z.of_nat m)))
                    (String (digit (m / 10))
                       (String (digit (m mod 10)) EmptyString)))
            (seq 0 100) = true) as Hall by (vm_compute; reflexivity).
  rewrite forallb_forall in Hall. apply String.eqb_eq, Hall, in_seq. lia.
Qed.

Lemma formatTime_eq (seconds : nat) :
  Z.of_nat seconds < 2 ^ 44 →
  formatTime seconds =
  Some (padStart 2 "0" (toString (Z.of_nat (seconds / 60))) ++ ":" ++
        padStart 2 "0" (toString (Z.of_nat (seconds mod 60))))%string.
Proof.
  intros Hs. unfold formatTime. rewrite floor_div_60 by lia.
  rewrite Nat2Z.inj_div. reflexivity.
Qed.

Lemma formatTime_below_100_minutes (seconds : nat) :
  (seconds < 60 * 100)%nat →
  formatTime seconds = Some (clock (seconds / 60) (seconds mod 60)).
Proof.
  intros Hs. rewrite formatTime_eq by lia.
  assert (seconds / 60 < 100)%nat by (apply Nat.Div0.div_lt_upper_bound; lia).
  assert (seconds mod 60 < 60)%nat by (apply Nat.mod_upper_bound; lia).
  rewrite !two_digits by lia. reflexivity.
Qed.

Lemma digit_inj (d d' : nat) :
  (d < 10)%nat → (d' < 10)%nat → digit d = digit d' → d = d'.
Proof.
  intros Hd Hd' Heq. unfold digit in Heq.
  apply (f_equal nat_of_ascii) in Heq.
  rewrite !nat_ascii_embedding in Heq by lia. lia.
Qed.

Import Recorder Controller.

(** X8.  For fewer than 6000 seconds [formatTime] shows two digits of
    minutes, a colon and two digits of seconds, the seconds below 60; every
    elapsed time the recorder component reaches is shown in this form and
    is at most 05:00. *)
Theorem formatTime_clock (seconds : nat) :
  (seconds < 60 * 100)%nat →
  formatTime seconds = Some (clock (seconds / 60) (seconds mod 60)) ∧
  (seconds mod 60 < 60)%nat ∧
  formatTime MAX_DURATION_SECONDS = Some "05:00"%string ∧
  ∀ events,
    let shown := duration (component_run events mounted) in
    (shown ≤ MAX_DURATION_SECONDS)%nat ∧
    formatTime shown = Some (clock (shown / 60) (shown mod 60)).
Proof.
  intros Hs. split; [by apply formatTime_below_100_minutes|].
  split; [apply Nat.mod_upper_bound; lia|]. split; [reflexivity|].
  intros events shown.
  assert (shown ≤ MAX_DURATION_SECONDS)%nat as Hle.
  { apply duration_run. simpl. unfold MAX_DURATION_SECONDS. lia. }
  split; [done|]. apply formatTime_below_100_minutes.
  unfold MAX_DURATION_SECONDS in Hle. lia.
Qed.

(** X9.  Below 6000 seconds no two elapsed times are shown alike. *)
Theorem formatTime_injective (s1 s2 : nat) :
  (s1 < 60 * 100)%nat → (s2 < 60 * 100)%nat →
  formatTime s1 = formatTime s2 → s1 = s2.
Proof.
  intros H1 H2. rewrite !formatTime_below_100_minutes by done.
  assert (s1 / 60 < 100)%nat by (apply Nat.Div0.div_lt_upper_bound; lia).
  assert (s2 / 60 < 100)%nat by (apply Nat.Div0.div_lt_upper_bound; lia).
  assert (s1 mod 60 < 60)%nat by (apply Nat.mod_upper_bound; lia).
  assert (s2 mod 60 < 60)%nat by (apply Nat.mod_upper_bound; lia).
  unfold clock. intros [= Ha Hb Hc Hd].
  assert (s1 / 60 / 10 < 10 ∧ s2 / 60 / 10 < 10)%nat as [? ?]
    by (split; apply Nat.Div0.div_lt_upper_bound; lia).
  assert ((s1 / 60) mod 10 < 10 ∧ (s2 / 60) mod 10 < 10)%nat as [? ?]
    by (split; apply Nat.mod_upper_bound; lia).
  assert (s1 mod 60 / 10 < 10 ∧ s2 mod 60 / 10 < 10)%nat as [? ?]
    by (split; apply Nat.Div0.div_lt_upper_bound; lia).
  assert ((s1 mod 60) mod 10 < 10 ∧ (s2 mod 60) mod 10 < 10)%nat as [? ?]
    by (split; apply Nat.mod_upper_bound; lia).
  assert (s1 / 60 / 10 = s2 / 60 / 10)%nat as Ha' by (by apply digit_inj).
  assert ((s1 / 60) mod 10 = (s2 / 60) mod 10)%nat as Hb'
    by (by apply digit_inj).
  assert (s1 mod 60 / 10 = s2 mod 60 / 10)%nat as Hc' by (by apply digit_inj).
  assert ((s1 mod 60) mod 10 = (s2 mod 60) mod 10)%nat as Hd'
    by (by apply digit_inj).
  rewrite (Nat.div_mod_eq s1 60), (Nat.div_mod_eq s2 60).
  rewrite (Nat.div_mod_eq (s1 / 60) 10), (Nat.div_mod_eq (s2 / 60) 10).
  rewrite (Nat.div_mod_eq (s1 mod 60) 10), (Nat.div_mod_eq (s2 mod 60) 10).
  by rewrite Ha', Hb', Hc', Hd'.
Qed.

End Clock.

(** ** The figures of the analysis report *)
Module Figures.
Import Scorer Rounding Percent Formatting Report.
Local Open Scope string_scope.
Local Open Scope list_scope.
Local Open Scope Z_scope.

(** On a number that rounds to a positive integer below [10^21],
    [toFixed(0)] is that integer in decimal. *)
Lemma toFixed0_positive x r :
  Math_round x = Some r → 0 < r < 10 ^ 21 → toFixed0 x = Some (toString r).
Proof.
  intros Hr Hpos. destruct x as [s|s| |s m e]; try done.
  - injection Hr as <-. lia.
  - destruct s.
    + assert (r < 1); [|lia].
      assert (r = Qfloor (F2Q (Z.neg m) e + (1 # 2))) as ->
        by (rewrite Math_round_finite in Hr; congruence).
      rewrite Zlt_Qlt. eapply Qle_lt_trans; [apply Qfloor_le|].
      assert (F2Q (Z.neg m) e < 0)%Q; [|change (inject_Z 1) with 1%Q; lra].
      unfold F2Q. pose proof (bpow_pos e).
      assert (inject_Z (Z.neg m) < 0)%Q by (by rewrite <- (Zlt_Qlt _ 0)). nra.
    + unfold toFixed0. rewrite Hr. simpl.
      destruct (r <? 10 ^ 21) eqn:Hlt; [done|]. apply Z.ltb_ge in Hlt. lia.
Qed.

(** The percentage of a part of a whole is not negative. *)
Lemma percent_sign k m :
  0 ≤ k ≤ m → 0 < m < 2 ^ 53 →
  match mul (div (of_int k) (of_int m)) (of_int 100) with
  | S754_zero false | S754_finite false _ _ => True
  | _ => False
  end.
Proof.
  intros Hk Hm.
  destruct (of_int_pos m) as (mm & em & -> & Hmm & Hem & Hvm); [lia|].
  destruct (decide (k = 0)) as [->|Hk0]; [done|].
  destruct (of_int_pos k) as (mk & ek & -> & Hmk & Hek & Hvk); [lia|].
  rewrite of_int_100.
  assert (0 < inject_Z m)%Q as Hmpos by (rewrite <- (Zlt_Qlt 0); lia).
  set (v := (inject_Z k * / inject_Z m)%Q).
  assert (v * inject_Z m == inject_Z k)%Q as Hv by (subst v; field; lra).
  destruct (div_normal mk ek mm em v) as
    (mq & eq & E & -> & Hmq & Heq & HE & _);
    [done|done|lia|lia|by rewrite Hvk, Hvm|].
  destruct (mul_normal mq eq 7036874417766400 (-46)) as
    (mp & ep & E' & -> & _); [done|lia|lia|lia|done].
Qed.

(** [toFixed(0)] of such a percentage is the rounded integer in decimal. *)
Lemma toFixed0_percent k m r :
  0 ≤ k ≤ m → 0 < m < 2 ^ 53 →
  Math_round (mul (div (of_int k) (of_int m)) (of_int 100)) = Some r →
  0 ≤ r ≤ 100 →
  toFixed0 (mul (div (of_int k) (of_int m)) (of_int 100)) = Some (toString r).
Proof.
  intros Hk Hm Hr Hrange. pose proof (percent_sign k m Hk Hm) as Hsign.
  destruct (mul _ _) as [[|]|[|]| |[|] mp ep]; try done.
  - by injection Hr as <-.
  - unfold toFixed0. rewrite Hr. simpl.
    destruct (r <? 10 ^ 21) eqn:Hlt; [done|]. apply Z.ltb_ge in Hlt. lia.
Qed.

Lemma scoreMap_cases key :
  (key = "Excellent" ∧ scoreMap key = Entry 4) ∨
  (key = "Good" ∧ scoreMap key = Entry 3) ∨
  (key = "Fair" ∧ scoreMap key = Entry 2) ∨
  (key = "Poor" ∧ scoreMap key = Entry 1) ∨
  ((key ∉ ratings) ∧ (scoreMap key = Inherited ∨ scoreMap key = Missing)).
Proof.
  unfold scoreMap.
  destruct (decide (key = "Excellent")); [by left|right].
  destruct (decide (key = "Good")); [by left|right].
  destruct (decide (key = "Fair")); [by left|right].
  destruct (decide (key = "Poor")); [by left|right].
  split; [|destruct (decide _); auto].
  unfold ratings. rewrite !elem_of_cons, elem_of_nil. tauto.
Qed.

(** A word is worth between 0 and 4 points, and a rated word at least 1. *)
Lemma points_bounds w : 0 ≤ points w ≤ 4 ∧ (rated w → 1 ≤ points w).
Proof.
  unfold points, rated.
  destruct (scoreMap_cases (accuracy w))
    as [[_ ->]|[[_ ->]|[[_ ->]|[[_ ->]|[Hw [-> | ->]]]]]]; split; done || lia.
Qed.

(** A rated word that is not challenging is worth at least 3 points. *)
Lemma points_no_challenge w :
  rated w → ¬ (accuracy w = "Fair" ∨ accuracy w = "Poor") → 3 ≤ points w.
Proof.
  unfold points, rated. intros Hrated Hw.
  destruct (scoreMap_cases (accuracy w))
    as [[_ ->]|[[_ ->]|[[? _]|[[? _]|[? _]]]]]; try lia; tauto.
Qed.

Lemma rated_numeric w : rated w → numeric w.
Proof.
  unfold rated, numeric. intros Hrated.
  destruct (scoreMap_cases (accuracy w))
    as [[_ ->]|[[_ ->]|[[_ ->]|[[_ ->]|[? _]]]]]; done.
Qed.

(** Once the accumulator is a string it stays one. *)
Lemma add_score_Concatenation words :
  foldl add_score Concatenation words = Concatenation.
Proof. induction words as [|w words IH]; [done|]. exact IH. Qed.

Lemma add_score_numeric n w :
  numeric w → add_score (Sum n) w = Sum (n + points w).
Proof.
  unfold numeric, add_score, points. intros Hw.
  destruct (scoreMap_cases (accuracy w))
    as [[_ ->]|[[_ ->]|[[_ ->]|[[_ ->]|[_ [Hi | ->]]]]]]; done.
Qed.

Lemma totalScore_from n words :
  Forall numeric words →
  foldl add_score (Sum n) words = Sum (n + sum_points words).
Proof.
  intros Hall. revert n.
  induction Hall as [|w words Hw _ IH]; intros n.
  - simpl. f_equal. lia.
  - change (foldl add_score (Sum n) (w :: words))
      with (foldl add_score (add_score (Sum n) w) words).
    rewrite add_score_numeric, IH by done. f_equal.
    change (sum_points (w :: words)) with (points w + sum_points words). lia.
Qed.

(** Without an inherited member the total is the sum of the points. *)
Lemma totalScore_numeric words :
  Forall numeric words → totalScore words = Sum (sum_points words).
Proof. intros Hall. unfold totalScore. by rewrite totalScore_from. Qed.

(** With one, it is a string. *)
Lemma totalScore_inherited words :
  Exists (λ w, scoreMap (accuracy w) = Inherited) words →
  totalScore words = Concatenation.
Proof.
  unfold totalScore. generalize 0. intros n Hex. revert n.
  induction Hex as [w words Hw|w words _ IH]; intros n;
    change (foldl add_score (Sum n) (w :: words))
      with (foldl add_score (add_score (Sum n) w) words).
  - unfold add_score at 2. rewrite Hw. apply add_score_Concatenation.
  - destruct (add_score (Sum n) w) as [n'|]; [apply IH|].
    apply add_score_Concatenation.
Qed.

Lemma sum_points_bounds words :
  0 ≤ sum_points words ≤ maxScore words ∧
  (Forall rated words → Z.of_nat (length words) ≤ sum_points words).
Proof.
  unfold maxScore. induction words as [|w words [IH1 IH2]]; [done|].
  simpl sum_points. simpl length.
  destruct (points_bounds w) as [Hw1 Hw2]. split; [lia|].
  intros [Hw Hall]%Forall_cons. specialize (IH2 Hall). specialize (Hw2 Hw). lia.
Qed.

Lemma sum_points_no_challenge words :
  Forall rated words → challengingWords words = [] →
  3 * Z.of_nat (length words) ≤ sum_points words.
Proof.
  unfold challengingWords. induction 1 as [|w words Hw _ IH]; [done|].
  rewrite filter_cons. simpl sum_points. simpl length.
  destruct (decide _) as [Hc|Hc]; [done|]. intros Hnil.
  specialize (IH Hnil). pose proof (points_no_challenge w Hw Hc). lia.
Qed.

Lemma sum_points_all k words :
  Forall (λ w, points w = k) words →
  sum_points words = k * Z.of_nat (length words).
Proof.
  induction 1 as [|w words Hw _ IH]; [simpl; lia|].
  simpl sum_points. simpl length. rewrite IH, Hw. lia.
Qed.

Lemma overallAccuracy_between words lo hi :
  (0 < length words)%nat → Z.of_nat (length words) < 2 ^ 42 →
  Forall numeric words →
  lo * maxScore words ≤ 100 * sum_points words →
  100 * sum_points words ≤ hi * maxScore words →
  ∃ p, overallAccuracy words = Some (Text (toString p)) ∧ lo ≤ p ≤ hi ∧
       0 ≤ p ≤ 100 ∧
       let exact := exact_percent (sum_points words) (maxScore words) in
       (¬ is_tie exact → p = round_half_up exact) ∧
       (is_tie exact →
        p = round_half_up exact ∨ p = round_half_up exact - 1).
Proof.
  intros Hlen Hbound Hnum Hlo Hhi.
  destruct (sum_points_bounds words) as [Hb _].
  assert (0 < maxScore words < 2 ^ 44) as Hmax by (unfold maxScore; lia).
  destruct (percent_between (sum_points words) (maxScore words) lo hi)
    as (p & Hp & Hrange & H100 & Hexact); [done|done|done|done|].
  exists p. split; [|done]. unfold overallAccuracy.
  destruct (0 <? maxScore words) eqn:Hpos; [|apply Z.ltb_ge in Hpos; lia].
  rewrite totalScore_numeric by done. simpl to_number.
  rewrite (toFixed0_percent _ _ p) by (done || lia). done.
Qed.

(** With an inherited member among the ratings the accuracy shown is
    [NaN]. *)
Lemma overallAccuracy_NaN words :
  Z.of_nat (length words) < 2 ^ 42 →
  Exists (λ w, scoreMap (accuracy w) = Inherited) words →
  overallAccuracy words = Some (Text "NaN").
Proof.
  intros Hbound Hex. unfold overallAccuracy.
  assert (0 < length words)%nat as Hlen
    by (destruct Hex; simpl; lia).
  destruct (0 <? maxScore words) eqn:Hpos;
    [|apply Z.ltb_ge in Hpos; unfold maxScore in Hpos; lia].
  rewrite totalScore_inherited by done. simpl to_number.
  destruct (of_int_pos (maxScore words)) as (mm & em & -> & _);
    [unfold maxScore; lia|].
  reflexivity.
Qed.

(** With words, what is shown is always text. *)
Lemma overallAccuracy_text words :
  (0 < length words)%nat → Z.of_nat (length words) < 2 ^ 42 →
  ∃ text, overallAccuracy words = Some (Text text).
Proof.
  intros Hlen Hbound.
  destruct (decide (Forall numeric words)) as [Hnum|Hex].
  - destruct (sum_points_bounds words) as [Hb _].
    destruct (overallAccuracy_between words 0 100) as (p & Hp & _);
      [done|done|done|lia|lia|].
    by eexists.
  - exists "NaN". apply overallAccuracy_NaN; [done|].
    apply not_Forall_Exists in Hex; [|apply _].
    eapply Exists_impl; [exact Hex|]. intros w Hw. unfold numeric in Hw.
    by destruct (decide (scoreMap (accuracy w) = Inherited)).
Qed.

(** X10.  Without words the accuracy shown is the number 0.  With words
    whose ratings are among the four of [types.ts] it is a whole percentage
    between 25 and 100 in decimal: the exact percentage of the total score
    in four points per word, rounded half up (or, when that percentage lies
    exactly halfway between two integers, possibly the integer below).  Any
    other rating counts for nothing, so that in general the percentage lies
    between 0 and 100; but a rating that names a member of
    [Object.prototype] turns the total into a string, and the accuracy
    shown is [NaN]. *)
Theorem overallAccuracy_range (words : list WordFeedback) :
  (0 < length words)%nat → Z.of_nat (length words) < 2 ^ 42 →
  overallAccuracy [] = Some (Numeral 0) ∧
  (Forall rated words →
   ∃ total p, totalScore words = Sum total ∧
       overallAccuracy words = Some (Text (toString p)) ∧ 25 ≤ p ≤ 100 ∧
       let exact := exact_percent total (maxScore words) in
       (¬ is_tie exact → p = round_half_up exact) ∧
       (is_tie exact →
        p = round_half_up exact ∨ p = round_half_up exact - 1)) ∧
  (Forall numeric words →
   ∃ total p, totalScore words = Sum total ∧
       overallAccuracy words = Some (Text (toString p)) ∧ 0 ≤ p ≤ 100 ∧
       let exact := exact_percent total (maxScore words) in
       (¬ is_tie exact → p = round_half_up exact) ∧
       (is_tie exact →
        p = round_half_up exact ∨ p = round_half_up exact - 1)) ∧
  (Exists (λ w, scoreMap (accuracy w) = Inherited) words →
   overallAccuracy words = Some (Text "NaN")).
Proof.
  intros Hlen Hbound. split; [reflexivity|].
  destruct (sum_points_bounds words) as [Hb Hrated].
  split; [|split].
  - intros Hall. specialize (Hrated Hall).
    assert (Forall numeric words) as Hnum
      by (eapply Forall_impl; [exact Hall|apply rated_numeric]).
    destruct (overallAccuracy_between words 25 100)
      as (p & Hp & Hrange & _ & Hexact);
      [done|done|done|unfold maxScore; lia|lia|].
    exists (sum_points words), p. by rewrite totalScore_numeric.
  - intros Hnum.
    destruct (overallAccuracy_between words 0 100)
      as (p & Hp & Hrange & _ & Hexact); [done|done|done|lia|lia|].
    exists (sum_points words), p. by rewrite totalScore_numeric.
  - by apply overallAccuracy_NaN.
Qed.

(** X11.  When every word is [Excellent] the accuracy shown is 100, and
    when every word is [Poor] it is 25.  When the ratings are among the
    four and no word is challenging ([Fair] or [Poor]) it is at least 75.
    But when no rating is known to [scoreMap] the accuracy shown is 0,
    although no word is challenging either. *)
Theorem overallAccuracy_extremes (words : list WordFeedback) :
  (0 < length words)%nat → Z.of_nat (length words) < 2 ^ 42 →
  (Forall (λ w, accuracy w = "Excellent") words →
   overallAccuracy words = Some (Text "100")) ∧
  (Forall (λ w, accuracy w = "Poor") words →
   overallAccuracy words = Some (Text "25")) ∧
  (Forall rated words → challengingWords words = [] →
   ∃ p, overallAccuracy words = Some (Text (toString p)) ∧ 75 ≤ p ≤ 100) ∧
  (Forall (λ w, scoreMap (accuracy w) = Missing) words →
   overallAccuracy words = Some (Text "0") ∧ challengingWords words = []).
Proof.
  intros Hlen Hbound. destruct (sum_points_bounds words) as [Hb _].
  assert (∀ k (P : WordFeedback → Prop),
            (∀ w, P w → numeric w ∧ points w = k) → Forall P words →
            ∃ p, overallAccuracy words = Some (Text (toString p)) ∧
                 p = 25 * k) as Hall.
  { intros k P HP HPs.
    assert (Forall numeric words) as Hnum
      by (eapply Forall_impl; [exact HPs|]; intros w Hw; by apply HP).
    assert (sum_points words = k * Z.of_nat (length words)) as Hsum.
    { apply sum_points_all. eapply Forall_impl; [exact HPs|].
      intros w Hw. by apply HP. }
    destruct (overallAccuracy_between words (25 * k) (25 * k))
      as (p & Hp & Hrange & _);
      [done|done|done|unfold maxScore in *; lia|unfold maxScore in *; lia|].
    exists p. split; [done|lia]. }
  split; [|split; [|split]].
  - intros HP.
    destruct (Hall 4 (λ w, accuracy w = "Excellent")) as (p & -> & ->);
      [|done|done].
    intros w Hw. unfold numeric, points. by rewrite Hw.
  - intros HP.
    destruct (Hall 1 (λ w, accuracy w = "Poor")) as (p & -> & ->);
      [|done|done].
    intros w Hw. unfold numeric, points. by rewrite Hw.
  - intros Hrated Hnone.
    pose proof (sum_points_no_challenge words Hrated Hnone).
    assert (Forall numeric words) as Hnum
      by (eapply Forall_impl; [exact Hrated|apply rated_numeric]).
    destruct (overallAccuracy_between words 75 100) as (p & -> & Hp & _);
      [done|done|done|unfold maxScore in *; lia|unfold maxScore in *; lia|].
    by exists p.
  - intros HP. split.
    + destruct (Hall 0 (λ w, scoreMap (accuracy w) = Missing))
        as (p & -> & ->); [|done|done].
      intros w Hw. unfold numeric, points. by rewrite Hw.
    + unfold challengingWords. clear Hall Hb Hlen Hbound.
      induction HP as [|w words Hw _ IH]; [done|].
      rewrite filter_cons, IH. destruct (decide _) as [[Hc|Hc]|]; [| |done].
      * by rewrite Hc in Hw.
      * by rewrite Hc in Hw.
Qed.

(** X12.  The number of filled stars is the fluency score clamped to
    [[0, 5]], and the filled stars come first. *)
Theorem stars_clamped (fluency_score : Z) :
  let filled := Z.to_nat (Z.max 0 (Z.min 5 fluency_score)) in
  stars fluency_score = replicate filled true ++ replicate (5 - filled) false.
Proof.
  intros filled. unfold stars. simpl seq. simpl map.
  assert (fluency_score ≤ 0 ∨ fluency_score = 1 ∨ fluency_score = 2 ∨
          fluency_score = 3 ∨ fluency_score = 4 ∨ 5 ≤ fluency_score)
    as Hcases by lia.
  destruct Hcases as [H|[H|[H|[H|[H|H]]]]].
  - replace filled with 0%nat by lia.
    by rewrite !bool_decide_eq_false_2 by lia.
  - subst. reflexivity.
  - subst. reflexivity.
  - subst. reflexivity.
  - subst. reflexivity.
  - replace filled with 5%nat by lia.
    by rewrite !bool_decide_eq_true_2 by lia.
Qed.

End Figures.

(** ** From the recording to the downloaded file *)
Module Download.
Import Recorder DataURL.
Local Open Scope string_scope.

Lemma prefix_nil_r p : String.prefix p EmptyString = true → p = EmptyString.
Proof. by destruct p. Qed.

Lemma prefix_append p s : String.prefix p (p ++ s) = true.
Proof.
  induction p as [|c p IH]; [by destruct s|].
  change (String.prefix (String c p) (String c p ++ s))
    with (if ascii_dec c c then String.prefix p (p ++ s) else false).
  by destruct (ascii_dec c c).
Qed.

Lemma includes_cons search c s :
  includes search (String c s) =
  String.prefix search (String c s) || includes search s.
Proof. reflexivity. Qed.





Lemma append_empty_r (a : string) : a ++ EmptyString = a.
Proof. induction a as [|x a IH]; [done|]. simpl. by rewrite IH. Qed.




Lemma substring_all s : substring 0 (String.length s) s = s.
Proof. induction s as [|c s IH]; [done|]. simpl. by rewrite IH. Qed.

Lemma prefix_same_line p : ∀ x,
  String.prefix p (same_line x) = true → String.prefix p x = true.
Proof.
  induction p as [|a p IH]; intros [|c x]; simpl; try done.
  destruct (is_line_terminator c); [done|]. simpl.
  destruct (ascii_dec a c); [apply IH|done].
Qed.

Lemma includes_same_line p x :
  includes p (same_line x) = true → includes p x = true.
Proof.
  induction x as [|c x IH]; [done|].
  change (same_line (String c x))
    with (if is_line_terminator c then EmptyString else String c (same_line x)).
  destruct (is_line_terminator c) eqn:Hc.
  - intros Hp. apply prefix_nil_r in Hp. by subst.
  - rewrite !includes_cons. intros [Hp|Hi]%orb_true_iff; apply orb_true_iff.
    + left. apply prefix_same_line. simpl. by rewrite Hc.
    + right. by apply IH.
Qed.

Lemma same_line_app m rest :
  one_line m = true → same_line (m ++ rest) = m ++ same_line rest.
Proof.
  induction m as [|c m IH]; [done|]. simpl.
  intros [Hc Hm]%andb_true_iff. apply negb_true_iff in Hc.
  by rewrite Hc, IH.
Qed.

Lemma greedy_capture_none line :
  includes ";base64," line = false → greedy_capture line = None.
Proof.
  induction line as [|c line IH]; [done|].
  rewrite includes_cons. intros [Hp Hi]%orb_false_elim.
  change (greedy_capture (String c line)) with
    (match greedy_capture line with
     | Some capture => Some (String c capture)
     | None => if String.prefix ";base64," (String c line)
               then Some EmptyString else None
     end).
  by rewrite (IH Hi), Hp.
Qed.

Lemma greedy_capture_app m line capture :
  greedy_capture line = Some capture →
  greedy_capture (m ++ line) = Some (m ++ capture).
Proof.
  intros Hc. induction m as [|c m IH]; [done|]. simpl. by rewrite IH.
Qed.

Lemma greedy_capture_separator line :
  includes ";base64," line = false →
  greedy_capture (";base64," ++ line) = Some EmptyString.
Proof.
  intros Hl.
  assert (greedy_capture ("base64," ++ line) = None) as Hrest.
  { apply greedy_capture_none. simpl. exact Hl. }
  change (greedy_capture (";base64," ++ line)) with
    (match greedy_capture ("base64," ++ line) with
     | Some capture => Some (String ";" capture)
     | None => if String.prefix ";base64," (";base64," ++ line)
               then Some EmptyString else None
     end).
  by rewrite Hrest, prefix_append.
Qed.

Lemma match_data_url_unfold s :
  match_data_url s =
  match (if String.prefix "data:" s
         then greedy_capture (same_line (drop_string 5 s)) else None) with
  | Some capture => Some capture
  | None =>
      match s with
      | EmptyString => None
      | String _ s' => match_data_url s'
      end
  end.
Proof. by destruct s. Qed.

Lemma match_data_url_none url :
  includes "data:" url = false → match_data_url url = None.
Proof.
  induction url as [|c url IH]; [done|].
  rewrite includes_cons. intros [Hp Hi]%orb_false_elim.
  rewrite match_data_url_unfold, Hp. by apply IH.
Qed.

Lemma match_data_url_dataUri mimeType data :
  one_line mimeType = true → includes ";base64," data = false →
  match_data_url (dataUri mimeType data) = Some mimeType.
Proof.
  intros Hm Hd. unfold dataUri.
  set (rest := mimeType ++ ";base64," ++ data).
  change ("data:" ++ rest) with
    (String "d" (String "a" (String "t" (String "a" (String ":" rest))))).
  assert (drop_string 5
            (String "d" (String "a" (String "t" (String "a" (String ":" rest)))))
          = rest) as Hdrop.
  { unfold drop_string. simpl String.length. simpl substring.
    rewrite Nat.sub_0_r. apply substring_all. }
  assert (greedy_capture (same_line rest) = Some mimeType) as Hcap.
  { subst rest. rewrite same_line_app by done.
    change (same_line (";base64," ++ data)) with (";base64," ++ same_line data).
    rewrite (greedy_capture_app _ _ EmptyString).
    - by rewrite append_empty_r.
    - apply greedy_capture_separator.
      destruct (includes ";base64," (same_line data)) eqn:Hi; [|done].
      apply includes_same_line in Hi. congruence. }
  set (url := String "d" _) in *.
  assert (String.prefix "data:" url = true) as Hp
    by apply (prefix_append "data:").
  rewrite match_data_url_unfold.
  by rewrite Hp, Hdrop, Hcap.
Qed.

(** X14.  [handleDownload] recovers from the data URL exactly the MIME type
    that [handleAudioReady] put into it (when the type is on one line and
    the data holds no [;base64,]) and names the file after it: [.webm] for
    a type containing [webm], [.mp3] for one containing [mpeg] or [mp3],
    [.audio] otherwise.  A URL without [data:] is named [.webm]. *)
Theorem download_name_of_data_uri (mimeType data : string) :
  one_line mimeType = true → includes ";base64," data = false →
  match_data_url (dataUri mimeType data) = Some mimeType ∧
  download_name (dataUri mimeType data) =
    "speakwise_recording." ++
    (if includes "webm" mimeType then "webm"
     else if includes "mpeg" mimeType || includes "mp3" mimeType then "mp3"
     else "audio") ∧
  download_name (dataUri "audio/mp3" data) = "speakwise_recording.mp3" ∧
  download_name (dataUri DEFAULT_MIME_TYPE data) = "speakwise_recording.webm" ∧
  ∀ url, includes "data:" url = false →
         download_name url = "speakwise_recording.webm".
Proof.
  intros Hm Hd.
  pose proof (match_data_url_dataUri mimeType data Hm Hd) as Hmatch.
  split; [done|]. split; [unfold download_name; by rewrite Hmatch|].
  split; [unfold download_name;
          by rewrite (match_data_url_dataUri "audio/mp3" data)|].
  split; [unfold download_name;
          by rewrite (match_data_url_dataUri DEFAULT_MIME_TYPE data)|].
  intros url Hurl. unfold download_name.
  by rewrite match_data_url_none.
Qed.

End Download.

(** ** Invariants of the recording controller *)
Module Sessions.
Import Recorder Controller RecorderNotions.
Local Open Scope string_scope.
Local Open Scope list_scope.

Section Keeps.
Variable P : MediaRecorder → Prop.
Hypothesis P_state : ∀ v rec, P rec → P (set_rec_state v rec).
Hypothesis P_onstop : ∀ v rec, P rec → P (set_rec_onstop v rec).
Hypothesis P_settle : ∀ p rec, P rec → P (settle p rec).

Lemma keeps_ext r s1 s2 : recorders s1 = recorders s2 → keeps P r s1 → keeps P r s2.
Proof. unfold keeps. by intros ->. Qed.

Lemma keeps_alter r r' f s recs :
  (∀ rec, P rec → P (f rec)) →
  recorders s = alter f r' recs →
  (∃ rec, recs !! r = Some rec ∧ P rec) → keeps P r s.
Proof.
  intros Hf Hs (rec & Hr & HP). unfold keeps. rewrite Hs.
  destruct (decide (r' = r)) as [->|Hne].
  - exists (f rec). rewrite list_lookup_alter_eq, Hr. split; [done|].
    by apply Hf.
  - exists rec. by rewrite list_lookup_alter_ne.
Qed.

Lemma keeps_insert r r' v s recs rec' :
  recs !! r' = Some rec' →
  recorders s = <[r' := set_rec_state v rec']> recs →
  (∃ rec, recs !! r = Some rec ∧ P rec) → keeps P r s.
Proof.
  intros Hr' Hs (rec & Hr & HP). unfold keeps. rewrite Hs.
  destruct (decide (r' = r)) as [->|Hne].
  - exists (set_rec_state v rec).
    rewrite list_lookup_insert_eq by (by eapply lookup_lt_Some).
    assert (rec' = rec) as -> by congruence. split; [done|]. by apply P_state.
  - exists rec. by rewrite list_lookup_insert_ne.
Qed.

Lemma keeps_MediaRecorder_stop r r' s :
  keeps P r s → keeps P r (MediaRecorder_stop r' s).
Proof.
  intros Hk. unfold MediaRecorder_stop.
  destruct (recorders s !! r') as [rec'|] eqn:Hr'; [|done].
  destruct (decide (rec_state rec' = rec_inactive)); [done|].
  by eapply keeps_insert.
Qed.

Lemma keeps_catch r err s :
  keeps P r s → keeps P r (fst (startRecording_catch err s)).
Proof.
  unfold startRecording_catch. simpl. by destruct (includes _ _).
Qed.

Lemma keeps_cancelRecording r s : keeps P r s → keeps P r (cancelRecording s).
Proof.
  intros Hk. unfold cancelRecording.
  apply (keeps_ext r
    (match mediaRecorderRef s with
     | Some r0 =>
         match alter (set_rec_onstop false) r0 (recorders s) !! r0 with
         | Some rec0 =>
             if decide (rec_state rec0 = rec_recording)
             then MediaRecorder_stop r0
                    (set_recorders
                       (alter (set_rec_onstop false) r0 (recorders s)) s)
             else set_recorders
                    (alter (set_rec_onstop false) r0 (recorders s)) s
         | None =>
             set_recorders (alter (set_rec_onstop false) r0 (recorders s)) s
         end
     | None => s
     end)).
  { simpl. by destruct (streamRef _). }
  destruct (mediaRecorderRef s) as [r0|]; [|done].
  assert (keeps P r
            (set_recorders (alter (set_rec_onstop false) r0 (recorders s)) s))
    as Hk'.
  { eapply keeps_alter; [|reflexivity|exact Hk]. apply P_onstop. }
  destruct (alter _ _ _ !! r0); [|done].
  destruct (decide _); [|done]. by apply keeps_MediaRecorder_stop.
Qed.

Lemma keeps_onstop r r' s : keeps P r s → keeps P r (onstop r' s).
Proof.
  intros Hk. unfold onstop.
  destruct (mediaRecorderRef _ ≫= _) as [current|]; [|done].
  destruct (recorders s !! r') as [rec0|] eqn:Hr0; [|done].
  eapply keeps_alter; [|reflexivity|exact Hk]. intros rec. apply P_settle.
Qed.

Lemma keeps_step r e s : keeps P r s → keeps P r (step e s).
Proof.
  intros Hk. pose proof Hk as (rec & Hr & HP).
  destruct e as [|a o| | |r' data|r'|r'|r' err]; simpl.
  - unfold startRecording_begin. by destruct (already_recording _).
  - destruct (decide (pending s = 0)); [done|].
    unfold startRecording_resume. destruct a as [tracks|err].
    + unfold startRecording_granted. destruct o as [mimeType|err].
      * simpl. eapply keeps_alter; [|reflexivity|]; [apply P_state|].
        exists rec. by rewrite lookup_app_l by (by eapply lookup_lt_Some).
      * apply keeps_catch. exists rec. simpl.
        by rewrite lookup_app_l by (by eapply lookup_lt_Some).
    + by apply keeps_catch.
  - unfold stopRecording. destruct (mediaRecorderRef s); [|done].
    destruct (decide _); [|done]. by apply keeps_MediaRecorder_stop.
  - by apply keeps_cancelRecording.
  - destruct (decide _); [|done]. unfold ondataavailable.
    by destruct (decide _).
  - by destruct (decide _).
  - unfold dispatch_stop.
    destruct (recorders s !! r') as [rec'|] eqn:Hr'; [|done].
    assert (keeps P r
              (set_recorders
                 (<[r' := set_rec_state rec_inactive rec']> (recorders s)) s))
      as Hk' by (by eapply keeps_insert).
    destruct (rec_onstop rec'); [|done]. by apply keeps_onstop.
  - destruct (decide _); [|done].
    destruct (onerror_eq r' err s) as (rejected & name & ->). simpl.
    eapply keeps_alter; [|reflexivity|exact Hk]. intros rec0. apply P_settle.
Qed.

Lemma keeps_run r events s : keeps P r s → keeps P r (run events s).
Proof.
  revert s. induction events as [|e l IH]; intros s Hk; [done|].
  rewrite run_cons. by apply IH, keeps_step.
Qed.

End Keeps.

(** A settled promise is not touched by anything the hook does. *)
Lemma promise_kept (p : Promise) r events s :
  p ≠ Pending →
  keeps (λ rec, rec_promise rec = p) r s →
  keeps (λ rec, rec_promise rec = p) r (run events s).
Proof.
  intros Hp. apply keeps_run; try done.
  intros q rec Hrec. simpl. rewrite Hrec. by destruct p.
Qed.

(** X16.  An [error] event of the recorder of a pending session records
    [Recording error: name] and rejects the session's promise.  The name and
    the rejection are those of the event's [error] when it is an [Error] or
    any other truthy value; when it is missing or falsy they are those of
    the [Error] created in its place, named [Error].  The handler leaves the
    status, the recorder's state, the chunk buffer and the tracks as they
    are, and no later call or event delivers a payload for that session. *)
Theorem recorder_error (s : State) (r : nat) (rec : MediaRecorder)
    (reported : Thrown) (events : list Event) :
  recorders s !! r = Some rec → rec_promise rec = Pending →
  let s' := step (Errored r reported) s in
  let rejected_with thrown :=
    recorders s' !! r =
      Some {| rec_state := rec_state rec; rec_mimeType := rec_mimeType rec;
              rec_stream := rec_stream rec; rec_onstop := rec_onstop rec;
              rec_promise := Rejected thrown |} in
  (∀ name message, reported = JsError name message →
     error s' = Some ("Recording error: " ++ name)%string ∧
     rejected_with reported) ∧
  (∀ name, reported = JsValue name →
     error s' = Some ("Recording error: " ++ name)%string ∧
     rejected_with reported) ∧
  (reported = JsFalsy →
     error s' = Some "Recording error: Error" ∧
     rejected_with (JsError "Error" "MediaRecorder error")) ∧
  status s' = status s ∧ audioChunksRef s' = audioChunksRef s ∧
  streams s' = streams s ∧ streamRef s' = streamRef s ∧
  ¬ delivered r (run events s').
Proof.
  intros Hr Hp s' rejected_with.
  pose proof (lookup_lt_Some _ _ _ Hr) as Hlt.
  assert (s' = onerror r reported s) as Hs'
    by (subst s'; simpl; by rewrite decide_True).
  assert (∀ thrown name,
            onerror r reported s =
            set_recorders (alter (settle (Rejected thrown)) r (recorders s))
              (setError (Some ("Recording error: " ++ name)%string) s) →
            error s' = Some ("Recording error: " ++ name)%string ∧
            rejected_with thrown) as Hcase.
  { intros thrown name Heq. subst rejected_with. rewrite Hs', Heq.
    split; [done|]. simpl. rewrite list_lookup_alter_eq, Hr. simpl.
    unfold settle. by rewrite Hp. }
  split; [|split; [|split]].
  - intros name message ->. by apply Hcase.
  - intros name ->. by apply Hcase.
  - intros ->. by apply Hcase.
  - destruct (onerror_eq r reported s) as (thrown & name & Heq).
    destruct (Hcase thrown name Heq) as [_ Hrej]. subst rejected_with.
    rewrite Hs', Heq. repeat (split; [done|]).
    intros (rec' & blob & mimeType & Hrec' & Hres).
    destruct (promise_kept (Rejected thrown) r events
                (onerror r reported s)) as (rec'' & Hrec'' & Hrej'');
      [done| |].
    + rewrite <- Hs'. eexists. split; [exact Hrej|done].
    + rewrite <- Heq in Hrec'. congruence.
Qed.

Lemma well_formed_ext s s' :
  mediaRecorderRef s' = mediaRecorderRef s → streamRef s' = streamRef s →
  recorders s' = recorders s → streams s' = streams s →
  uncaught s' = uncaught s → well_formed s → well_formed s'.
Proof.
  unfold well_formed, refs_valid, no_TypeError.
  by intros -> -> -> -> ->.
Qed.

Lemma well_formed_recorders f r s :
  (∀ rec, recorders s !! r = Some rec → rec_stream (f rec) = rec_stream rec) →
  well_formed s → well_formed (set_recorders (alter f r (recorders s)) s).
Proof.
  intros Hf ((Hmr & Hsr & Hrecs) & Hunc). split; [|done].
  unfold refs_valid. simpl. rewrite length_alter. split; [|split; [done|]].
  - destruct (mediaRecorderRef s); [done|].
    apply length_zero_iff_nil. rewrite length_alter. by rewrite Hmr.
  - apply Forall_alter; [done|]. intros rec Hr. by rewrite Hf.
Qed.

Lemma well_formed_MediaRecorder_stop r s :
  well_formed s → well_formed (MediaRecorder_stop r s).
Proof.
  intros Hwf. unfold MediaRecorder_stop.
  destruct (recorders s !! r) as [rec|] eqn:Hr; [|done].
  destruct (decide _).
  - destruct Hwf as [Hrefs Hunc]. split; [done|].
    unfold no_TypeError. simpl. apply Forall_app. split; [done|].
    by repeat constructor.
  - rewrite list_insert_alter.
    apply (well_formed_recorders (λ _, set_rec_state rec_inactive rec));
      [|done].
    intros rec' Hr'. by assert (rec' = rec) as -> by congruence.
Qed.

Lemma well_formed_catch err s :
  well_formed s → well_formed (fst (startRecording_catch err s)).
Proof.
  unfold startRecording_catch. simpl.
  destruct (includes _ _); by apply (well_formed_ext s).
Qed.

Lemma well_formed_new_session tracks mimeType state s :
  well_formed s →
  well_formed
    (set_mediaRecorderRef (Some (length (recorders s)))
       (set_recorders
          (recorders s ++
           [{| rec_state := state; rec_mimeType := mimeType;
               rec_stream := length (streams s); rec_onstop := true;
               rec_promise := Pending |}])
          (setStatus recording
             (set_streamRef (Some (length (streams s)))
                (set_streams (streams s ++ [tracks]) s))))).
Proof.
  intros ((Hmr & Hsr & Hrecs) & Hunc). split; [|done].
  unfold refs_valid. simpl. rewrite !length_app. simpl.
  split; [lia|]. split; [intros sid [= <-]; lia|].
  apply Forall_app. split.
  - eapply Forall_impl; [exact Hrecs|]. simpl. intros rec Hrec. lia.
  - repeat constructor. simpl. lia.
Qed.

Lemma well_formed_granted tracks o s :
  well_formed s → well_formed (fst (startRecording_granted tracks o s)).
Proof.
  intros Hwf. destruct o as [mimeType|err].
  - rewrite startRecording_granted_runs. simpl.
    eapply well_formed_ext; [..|by apply
      (well_formed_new_session tracks mimeType rec_recording s)]; done.
  - unfold startRecording_granted. apply well_formed_catch.
    by apply (well_formed_new_session tracks EmptyString rec_inactive s).
Qed.

Lemma well_formed_cancelRecording s :
  well_formed s → well_formed (cancelRecording s).
Proof.
  intros ((Hmr & Hsr & Hrecs) & Hunc). rewrite cancelRecording_eq.
  split; [|done]. unfold refs_valid. simpl.
  split; [|split; [done|]].
  - destruct (mediaRecorderRef s) as [r|]; [|done]. by rewrite length_alter.
  - assert (length
              match streamRef s with
              | Some sid => alter stop_tracks sid (streams s)
              | None => streams s
              end = length (streams s)) as ->
      by (destruct (streamRef s); by rewrite ?length_alter).
    destruct (mediaRecorderRef s) as [r|]; [|done].
    apply Forall_alter; [done|]. by intros rec _.
Qed.

Lemma well_formed_onstop r s :
  is_Some (recorders s !! r) → well_formed s → well_formed (onstop r s).
Proof.
  intros [rec Hr] Hwf. pose proof Hwf as ((Hmr & Hsr & Hrecs) & Hunc).
  unfold onstop.
  destruct (mediaRecorderRef s) as [r0|] eqn:Hr0; simpl;
    [|by rewrite Hmr in Hr].
  destruct (lookup_lt_is_Some_2 (recorders s) r0 ltac:(lia)) as [current ->].
  rewrite Hr. split; [|done]. unfold refs_valid. simpl.
  rewrite !length_alter, Hr0. split; [done|]. split; [done|].
  apply Forall_alter; [done|]. by intros rec' _.
Qed.

Lemma well_formed_step e s : well_formed s → well_formed (step e s).
Proof.
  intros Hwf.
  destruct e as [|a o| | |r' data|r'|r'|r' err]; simpl.
  - unfold startRecording_begin.
    destruct (already_recording _); by apply (well_formed_ext s).
  - destruct (decide (pending s = 0)); [done|].
    unfold startRecording_resume.
    assert (well_formed (set_pending (Init.Nat.pred (pending s)) s)) as Hwf'
      by (by apply (well_formed_ext s)).
    destruct a as [tracks|err];
      [by apply well_formed_granted|by apply well_formed_catch].
  - unfold stopRecording. destruct (mediaRecorderRef s); [|done].
    destruct (decide _); [|done]. by apply well_formed_MediaRecorder_stop.
  - by apply well_formed_cancelRecording.
  - destruct (decide _); [|done]. unfold ondataavailable.
    destruct (decide _); [|done]. by apply (well_formed_ext s).
  - destruct (decide _); [|done]. by apply (well_formed_ext s).
  - unfold dispatch_stop.
    destruct (recorders s !! r') as [rec'|] eqn:Hr'; [|done].
    assert (well_formed
              (set_recorders
                 (<[r' := set_rec_state rec_inactive rec']> (recorders s)) s))
      as Hwf'.
    { rewrite list_insert_alter.
      apply (well_formed_recorders (λ _, set_rec_state rec_inactive rec'));
        [|done].
      intros rec0 Hr0. by assert (rec0 = rec') as -> by congruence. }
    destruct (rec_onstop rec'); [|done].
    apply well_formed_onstop; [|done]. simpl.
    apply lookup_lt_is_Some. rewrite length_insert.
    by eapply lookup_lt_Some.
  - destruct (decide _); [|done].
    destruct (onerror_eq r' err s) as (rejected & name & ->).
    apply (well_formed_recorders _ r' (setError _ s)); [done|].
    by apply (well_formed_ext s).
Qed.

Lemma well_formed_run events s : well_formed s → well_formed (run events s).
Proof.
  revert s. induction events as [|e l IH]; intros s Hwf; [done|].
  rewrite run_cons. by apply IH, well_formed_step.
Qed.

(** X17.  Whatever is called and whatever the browser delivers, starting
    from the hook's initial state: [mediaRecorderRef] is [null] only while
    no recorder has been created and otherwise points at the recorder
    created last, [streamRef] and the handlers' closures point at existing
    streams, and no [TypeError] escapes (the non-null assertions in
    [onstop] never meet [null]). *)
Theorem refs_stay_valid (events : list Event) :
  let s := run events initial in
  refs_valid s ∧ no_TypeError s ∧
  (∀ r, mediaRecorderRef s = Some r → is_Some (recorders s !! r)) ∧
  (mediaRecorderRef s = None → recorders s = []) ∧
  (∀ sid, streamRef s = Some sid → is_Some (streams s !! sid)).
Proof.
  intros s.
  assert (well_formed s) as [Hrefs Hunc].
  { apply well_formed_run. split; [|by constructor].
    split; [done|]. split; [done|]. constructor. }
  split; [done|]. split; [done|].
  destruct Hrefs as (Hmr & Hsr & _). split; [|split].
  - intros r Hr. rewrite Hr in Hmr. apply lookup_lt_is_Some. lia.
  - intros Hnone. by rewrite Hnone in Hmr.
  - intros sid Hsid. by apply lookup_lt_is_Some, Hsr.
Qed.





End Sessions.

(** ** The file uploader *)
Module Uploads.
Import Formatting DataURL Uploader.
Local Open Scope string_scope.
Local Open Scope list_scope.

Lemma upload_run_cons e l s : run (e :: l) s = run l (step e s).
Proof. reflexivity. Qed.

Lemma finished_after_finish (l : list (File * bool)) : ∀ i file,
  l !! i = Some (file, false) →
  length (filter (λ r, r.2 = true) (alter (λ r, (r.1, true)) i l)) =
  S (length (filter (λ r, r.2 = true) l)).
Proof.
  induction l as [|[f b] l IH]; intros [|i] file Hi; simplify_eq/=.
  - by rewrite (filter_cons_False _ (file, false)) by done.
  - rewrite !filter_cons.
    destruct (decide _); simpl; by rewrite (IH i file).
Qed.

Lemma accepted_after_finish (l : list (File * bool)) i :
  Forall (λ r, accepted r.1) l →
  Forall (λ r, accepted r.1) (alter (λ r, (r.1, true)) i l).
Proof. intros Hl. apply Forall_alter; [done|]. by intros [f b] _. Qed.

Lemma size_limit (n : N) :
  (MAX_FILE_SIZE_BYTES <? n)%N = false ↔ (n ≤ 10485760)%N.
Proof. rewrite N.ltb_ge. reflexivity. Qed.

Lemma consistent_handleFileChange files s :
  consistent s → consistent (handleFileChange files s).
Proof.
  intros (Hread & Hup & Hunc & Hcount & Hmsg). unfold handleFileChange.
  destruct (files ≫= head) as [file|]; [|done].
  destruct (file_type file =? "audio/mpeg") eqn:Htype; simpl.
  - destruct (MAX_FILE_SIZE_BYTES <? file_size file)%N eqn:Hsize.
    + repeat split; try done. by right.
    + repeat split; try done; simpl.
      * apply Forall_app. split; [done|]. repeat constructor; simpl.
        -- by apply String.eqb_eq.
        -- by apply size_limit.
      * unfold finished_reads. simpl. rewrite filter_app.
        rewrite (filter_cons_False _ (file, false)) by done.
        rewrite filter_nil, app_nil_r. exact Hcount.
      * by left.
  - repeat split; try done. by right.
Qed.

Lemma consistent_step e s : consistent s → consistent (step e s).
Proof.
  intros Hs. pose proof Hs as (Hread & Hup & Hunc & Hcount & Hmsg).
  destruct e as [files|i result|i]; simpl.
  - by apply consistent_handleFileChange.
  - destruct (readers s !! i) as [[file [|]]|] eqn:Hi; try done.
    repeat split; simpl; try done.
    + by apply accepted_after_finish.
    + apply Forall_app. split; [done|]. by repeat constructor.
    + unfold finished_reads in *. simpl.
      rewrite (finished_after_finish _ _ file) by done.
      rewrite length_app. simpl. lia.
  - destruct (readers s !! i) as [[file [|]]|] eqn:Hi; try done.
    repeat split; simpl; try done.
    + by apply accepted_after_finish.
    + apply Forall_app. split; [done|]. by repeat constructor.
    + unfold finished_reads in *. simpl.
      rewrite (finished_after_finish _ _ file) by done.
      rewrite length_app. simpl. lia.
    + by right.
Qed.

Lemma consistent_run events s : consistent s → consistent (run events s).
Proof.
  revert s. induction events as [|e l IH]; intros s Hs; [done|].
  rewrite upload_run_cons. by apply IH, consistent_step.
Qed.

Lemma consistent_initial : consistent initial.
Proof.
  split; [constructor|]. split; [constructor|]. split; [constructor|].
  split; [done|by left].
Qed.

(** X20.  Whatever files are chosen and however the reads end, a reader is
    only ever created for a file of type [audio/mpeg] of at most 10 MiB
    (10485760 bytes); every call of [onUploadComplete] announces
    [audio/mp3]; and every read that has ended has either made one such
    call or raised a [TypeError], never both and never twice. *)
Theorem uploads_only_from_accepted_files (events : list Event) :
  let s := run events initial in
  Forall (λ r, file_type r.1 = "audio/mpeg" ∧ (file_size r.1 ≤ 10485760)%N)
         (readers s) ∧
  Forall (λ a, mimeType a = "audio/mp3") (uploaded s) ∧
  Forall (λ name, name = "TypeError") (uncaught s) ∧
  length (uploaded s) + length (uncaught s) = finished_reads s ∧
  length (uploaded s) ≤ length (readers s).
Proof.
  intros s.
  destruct (consistent_run events initial consistent_initial)
    as (Hread & Hup & Hunc & Hcount & _).
  fold s in Hread, Hup, Hunc, Hcount.
  repeat split; try done.
  pose proof (length_filter (λ r : File * bool, r.2 = true) (readers s)).
  unfold finished_reads in Hcount. lia.
Qed.

(** X21.  The uploader never shows an error message and a file name
    together: at every moment one of the two is unset. *)
Theorem error_or_file_name (events : list Event) :
  let s := run events initial in
  error s = None ∨ fileName s = None.
Proof.
  intros s.
  by destruct (consistent_run events initial consistent_initial)
    as (_ & _ & _ & _ & Hmsg).
Qed.

(** X22.  A read that fails shows [Failed to read the file.], clears the
    file name and uploads nothing; the [loadend] handler that runs after
    the [error] handler finds a [null] result and raises a [TypeError].
    The reader is then finished: later events for it change nothing. *)
Theorem failed_read (s : State) (reader : nat) (file : File) :
  readers s !! reader = Some (file, false) →
  let s' := step (Fail reader) s in
  error s' = Some "Failed to read the file." ∧ fileName s' = None ∧
  uploaded s' = uploaded s ∧ uncaught s' = uncaught s ++ ["TypeError"] ∧
  readers s' !! reader = Some (file, true) ∧
  (∀ result, step (Load reader result) s' = s') ∧
  step (Fail reader) s' = s'.
Proof.
  intros Hr s'.
  assert (s' = onloadend None (onerror (finish reader s))) as ->
    by (subst s'; simpl; by rewrite Hr).
  assert (readers (onloadend None (onerror (finish reader s))) !! reader =
          Some (file, true)) as Hr'.
  { simpl. by rewrite list_lookup_alter_eq, Hr. }
  repeat split; try done.
  - intros result. unfold step. by rewrite Hr'.
  - unfold step. by rewrite Hr'.
Qed.

(** X23.  What [handleFileChange] does with the first file of the list: a
    file of another type is refused with the type message whatever its
    size; an [audio/mpeg] file of more than 10485760 bytes is refused with
    [File is too large. Maximum size is 10MB.]; any other [audio/mpeg]
    file, one of exactly 10485760 bytes included, gets a reader and its
    name is shown.  The other files of the list are ignored, and an empty
    or missing list changes nothing. *)
Theorem handleFileChange_validation (s : State) (file : File)
    (others : list File) :
  let s' := handleFileChange (Some (file :: others)) s in
  (file_type file ≠ "audio/mpeg" →
   error s' = Some "Invalid file type. Please upload an MP3 file." ∧
   fileName s' = None ∧ readers s' = readers s) ∧
  (file_type file = "audio/mpeg" → (10485760 < file_size file)%N →
   error s' = Some "File is too large. Maximum size is 10MB." ∧
   fileName s' = None ∧ readers s' = readers s) ∧
  (file_type file = "audio/mpeg" → (file_size file ≤ 10485760)%N →
   error s' = None ∧ fileName s' = Some (file_name file) ∧
   readers s' = readers s ++ [(file, false)]) ∧
  uploaded s' = uploaded s ∧ uncaught s' = uncaught s ∧
  handleFileChange (Some []) s = s ∧ handleFileChange None s = s.
Proof.
  intros s'. subst s'. unfold handleFileChange.
  change (Some (file :: others) ≫= head) with (Some file).
  change (Some [] ≫= head) with (@None File).
  change (None ≫= head) with (@None File). cbv iota beta.
  destruct (file_type file =? "audio/mpeg") eqn:Htype.
  - apply String.eqb_eq in Htype.
    destruct (MAX_FILE_SIZE_BYTES <? file_size file)%N eqn:Hsize; simpl.
    + apply N.ltb_lt in Hsize.
      change MAX_FILE_SIZE_BYTES with 10485760%N in Hsize.
      repeat split; try done; intros; try done; lia.
    + apply size_limit in Hsize. repeat split; try done; intros; try done; lia.
  - apply String.eqb_neq in Htype. simpl. repeat split; done.
Qed.

End Uploads.

(** ** The application around the report *)
Module Application.
Import Scorer Formatting Report DataURL App Figures.
Local Open Scope string_scope.
Local Open Scope list_scope.

Lemma app_run_cons e l s : run (e :: l) s = run l (step e s).
Proof. reflexivity. Qed.

Lemma sound_catch err s : sound s → sound (handleAudioReady_catch err s).
Proof. by intros (Hwords & Hurl & Hres). Qed.

Lemma sound_step e s : sound s → sound (step e s).
Proof.
  intros Hs. pose proof Hs as (Hwords & Hurl & Hres).
  destruct e as [v|key| | | |cs ck a|o|]; simpl; try done.
  - unfold handleAudioReady_begin.
    destruct (decide _); [done|]. destruct (no_key ck); [done|].
    split; [done|]. split; [|done].
    intros url [= <-]. by eexists _, _.
  - destruct (decide _); [done|]. unfold handleAudioReady_resume.
    destruct o as [[result|]|err]; try by apply sound_catch.
    destruct (decide _) as [Hlen|]; [|by apply sound_catch].
    split; [|split; [done|by eexists]].
    intros result' [= <-]. intros Hnil. rewrite Hnil in Hlen. simpl in Hlen. lia.
Qed.

Lemma sound_run events s : sound s → sound (run events s).
Proof.
  revert s. induction events as [|e l IH]; intros s Hs; [done|].
  rewrite app_run_cons. by apply IH, sound_step.
Qed.

Lemma sound_initial storedKey : sound (initial storedKey).
Proof. by repeat split. Qed.

(** X24.  Whenever the application renders a report, the report has at
    least one word and the audio URL is a data URL built by
    [handleAudioReady]; so the accuracy the report shows is never the
    number 0 of the empty case but the text that [toFixed(0)] made: a
    percentage between 25 and 100 when the ratings are among the four of
    [types.ts], and between 0 and 100 when none of them names an inherited
    member.  Whenever the status is [results], an analysis is stored. *)
Theorem shown_report_has_words (storedKey : option string)
    (events : list Event) (report : AnalysisReport) (url : string) :
  shown_report (run events (initial storedKey)) = Some (report, url) →
  (Z.of_nat (length (word_by_word_feedback report)) < 2 ^ 42)%Z →
  word_by_word_feedback report ≠ [] ∧
  (∃ mimeType data, url = dataUri mimeType data) ∧
  (∃ text, overallAccuracy (word_by_word_feedback report) = Some (Text text)) ∧
  (Forall rated (word_by_word_feedback report) →
   ∃ p, overallAccuracy (word_by_word_feedback report) =
          Some (Text (toString p)) ∧ (25 ≤ p ≤ 100)%Z) ∧
  (Forall numeric (word_by_word_feedback report) →
   ∃ p, overallAccuracy (word_by_word_feedback report) =
          Some (Text (toString p)) ∧ (0 ≤ p ≤ 100)%Z) ∧
  ∀ events',
    App.status (run events' (initial storedKey)) = results →
    is_Some (analysis (run events' (initial storedKey))).
Proof.
  intros Hshown Hlen.
  destruct (sound_run events _ (sound_initial storedKey))
    as (Hwords & Hurl & _).
  unfold shown_report in Hshown.
  destruct (no_key _); [done|].
  destruct (App.status _); try done.
  destruct (analysis _) as [result|] eqn:Hresult; [|done].
  destruct (audioURL _) as [audio|] eqn:Haudio; [|done].
  injection Hshown as -> ->.
  specialize (Hwords report eq_refl). specialize (Hurl url eq_refl).
  assert (0 < length (word_by_word_feedback report)) as Hpos
    by (destruct (word_by_word_feedback report); [done|simpl; lia]).
  destruct (sum_points_bounds (word_by_word_feedback report))
    as [Hb Hrated].
  split; [done|]. split; [done|].
  split; [by apply overallAccuracy_text|]. split; [|split].
  - intros Hall. specialize (Hrated Hall).
    destruct (overallAccuracy_between (word_by_word_feedback report) 25 100)
      as (p & Hp & Hrange & _); try done.
    + eapply Forall_impl; [exact Hall|apply rated_numeric].
    + unfold maxScore. lia.
    + lia.
    + by exists p.
  - intros Hnum.
    destruct (overallAccuracy_between (word_by_word_feedback report) 0 100)
      as (p & Hp & Hrange & _); try done; [lia..|].
    by exists p.
  - intros events'.
    by destruct (sound_run events' _ (sound_initial storedKey)) as (_ & _ & ?).
Qed.

End Application.

(** ** The speed of the spoken model *)
Module Speed.
Import Scorer Rounding Speech.
Local Open Scope Z_scope.

(** Rounding an exact non-negative mantissa never yields [NaN]. *)
Lemma binary_round_aux_not_nan s m e :
  0 ≤ m → binary_round_aux prec emax s m e loc_Exact ≠ S754_nan.
Proof.
  intros Hm. unfold binary_round_aux.
  destruct (shr_fexp_located (F2Q m e) m e loc_Exact Hm (located_exact m e))
    as (r' & e' & -> & [Hr' Hloc'] & _).
  pose proof (round_nearest_even_located _ _ _ _ Hloc') as Hround.
  cbv zeta in Hround. destruct Hround as ([HM|HM] & _).
  all: set (M := round_nearest_even _ _) in *.
  all: assert (0 ≤ M) as HM0 by lia.
  all: destruct (shr_fexp_located (F2Q M e') M e' loc_Exact HM0
                   (located_exact M e')) as (r'' & e'' & -> & [Hr'' _] & _).
  all: destruct (shr_m r'') as [|p|p]; [done| |lia].
  all: by destruct (_ <=? _).
Qed.

Lemma binary_normalize_not_nan m e szero :
  binary_normalize prec emax m e szero ≠ S754_nan.
Proof.
  destruct m as [|p|p]; simpl; [done| |].
  all: unfold binary_round; destruct (shl_align _ _ _) as [mz ez].
  all: by apply binary_round_aux_not_nan.
Qed.

(** The sum of two finite numbers is a number. *)
Lemma add_finite_not_nan sx mx ex sy my ey :
  add (S754_finite sx mx ex) (S754_finite sy my ey) ≠ S754_nan.
Proof. unfold add. simpl. apply binary_normalize_not_nan. Qed.

(** Comparing the other way round gives the opposite answer. *)
Lemma SFcompare_antisym x y c :
  SFcompare x y = Some c → SFcompare y x = Some (CompOpp c).
Proof.
  destruct x as [sx|sx| |sx mx ex], y as [sy|sy| |sy my ey]; simpl;
    try done; intros [= <-]; f_equal;
    try (by destruct sx); try (by destruct sy); try (by destruct sx, sy).
  destruct sx, sy; try done.
  - rewrite (Z.compare_antisym ex ey). destruct (ex ?= ey); simpl; try done.
    f_equal. exact (eq_sym (Pos.compare_cont_antisym mx my Eq)).
  - rewrite (Z.compare_antisym ex ey). destruct (ex ?= ey); simpl; try done.
    exact (eq_sym (Pos.compare_cont_antisym mx my Eq)).
Qed.

Lemma in_range_half : in_range half.
Proof. split; [by eexists _, _|by split]. Qed.

Lemma in_range_two : in_range two.
Proof. split; [by eexists _, _|by split]. Qed.

(** What [updateRate] stores is within range, for any number. *)
Lemma updateRate_in_range newRate :
  newRate ≠ S754_nan → in_range (updateRate newRate).
Proof.
  intros Hnan. unfold updateRate, Math_min.
  destruct (SFcompare two newRate) as [[| |]|] eqn:Htwo;
    try exact in_range_two.
  - unfold Math_max.
    destruct (SFcompare half newRate) as [[| |]|] eqn:Hhalf;
      try exact in_range_half.
    + split; [|split].
      * destruct newRate as [s|s| |s m e]; try done; try (by destruct s).
        destruct s; [done|]. by eexists _, _.
      * unfold SFleb. by rewrite Hhalf.
      * unfold SFleb. by rewrite (SFcompare_antisym _ _ _ Htwo).
    + by destruct newRate.
  - by destruct newRate.
Qed.

Lemma press_in_range rate p : in_range rate → in_range (press rate p).
Proof.
  intros ((m & e & ->) & _). destruct p; apply updateRate_in_range;
    apply add_finite_not_nan.
Qed.

(** X25.  The speaking rate never leaves [[0.5, 2]]: it starts at 0.9, and
    after any sequence of presses on Faster and Slower it is a finite
    number [r] with [0.5 <= r <= 2].  More generally [updateRate] stores a
    number in that range whatever number it is given, the infinities
    included; only [NaN] is stored as it is. *)
Theorem rate_stays_in_range (presses : list Press) :
  in_range (foldl press INITIAL_RATE presses) ∧
  (∀ newRate, newRate ≠ S754_nan → in_range (updateRate newRate)) ∧
  updateRate S754_nan = S754_nan ∧
  updateRate (S754_infinity false) = two ∧
  updateRate (S754_infinity true) = half.
Proof.
  split; [|split; [apply updateRate_in_range|by repeat split]].
  assert (in_range INITIAL_RATE) as Hinit
    by (split; [by eexists _, _|by split]).
  revert Hinit. generalize INITIAL_RATE.
  induction presses as [|p presses IH]; intros rate Hrate; [done|].
  simpl. by apply IH, press_in_range.
Qed.

End Speed.

(** ** The properties at work on concrete inputs *)
Module Examples.
Import Scorer Samples.
Local Open Scope string_scope.
Local Open Scope list_scope.

(** X5, witness: [" Hello"] against ["hello "]. *)
Lemma similarity_same_normal_form_hello :
  ascii_toLowerCase (trim (utf16 " Hello")) =
  ascii_toLowerCase (trim (utf16 "hello ")) ∧
  (Z.of_nat (length (ascii_toLowerCase (trim (utf16 " Hello")))) < 2 ^ 44)%Z ∧
  calculateTextSimilarity ascii_toLowerCase (utf16 " Hello") (utf16 "hello ")
    = Some 100%Z.
Proof.
  split; [by vm_compute|]. split; [by vm_compute|].
  apply Normalisation.similarity_same_normal_form; by vm_compute.
Defined.

(** X6, witness: ["abc"] against a blank text. *)
Lemma similarity_against_empty_blank :
  length (ascii_toLowerCase (trim (utf16 "  "))) = 0 ∧
  0 < length (ascii_toLowerCase (trim (utf16 "abc"))) ∧
  (Z.of_nat (length (ascii_toLowerCase (trim (utf16 "abc")))) < 2 ^ 53)%Z ∧
  calculateTextSimilarity ascii_toLowerCase (utf16 "abc") (utf16 "  ")
    = Some 0%Z ∧
  calculateTextSimilarity ascii_toLowerCase (utf16 "  ") (utf16 "abc")
    = Some 0%Z.
Proof.
  split; [by vm_compute|]. split; [vm_compute; lia|]. split; [by vm_compute|].
  apply Normalisation.similarity_against_empty;
    [by vm_compute|vm_compute; lia|by vm_compute].
Defined.

(** X7, witness: ["kitten"] and ["sitting"] with blanks around them. *)
Lemma similarity_ignores_outer_white_space_kitten :
  Forall (λ c, is_white_space c = true)
    (utf16 " " ++ utf16 "  " ++ [] ++ utf16 " ") ∧
  calculateTextSimilarity ascii_toLowerCase
    (utf16 " " ++ utf16 "kitten" ++ utf16 "  ")
    ([] ++ utf16 "sitting" ++ utf16 " ") =
  calculateTextSimilarity ascii_toLowerCase (utf16 "kitten") (utf16 "sitting").
Proof.
  assert (Forall (λ c, is_white_space c = true)
            (utf16 " " ++ utf16 "  " ++ [] ++ utf16 " ")) as Hws
    by (repeat constructor).
  split; [exact Hws|].
  exact (Normalisation.similarity_ignores_outer_white_space ascii_toLowerCase
           (utf16 " ") (utf16 "  ") [] (utf16 " ")
           (utf16 "kitten") (utf16 "sitting") Hws).
Defined.

Import Formatting.

(** X8, witness: 125 seconds. *)
Lemma formatTime_clock_125 :
  125 < 60 * 100 ∧ formatTime 125 = Some "02:05".
Proof.
  split; [lia|].
  exact (proj1 (Clock.formatTime_clock 125 ltac:(lia))).
Defined.

(** X9, witness: 61 seconds, twice. *)
Lemma formatTime_injective_61 :
  61 < 60 * 100 ∧ formatTime 61 = formatTime 61 ∧ 61 = 61.
Proof.
  split; [lia|]. split; [reflexivity|].
  exact (Clock.formatTime_injective 61 61 ltac:(lia) ltac:(lia) eq_refl).
Defined.

Import Report.


(** X10, witness: a [Poor] and a [Fair] word. *)
Lemma overallAccuracy_range_two_words :
  0 < length two_words ∧ (Z.of_nat (length two_words) < 2 ^ 42)%Z ∧
  Forall rated two_words ∧
  ∃ p, overallAccuracy two_words = Some (Text (toString p)) ∧
       (25 ≤ p ≤ 100)%Z.
Proof.
  assert (0 < length two_words) as H1 by (simpl; lia).
  assert (Z.of_nat (length two_words) < 2 ^ 42)%Z as H2 by (by vm_compute).
  assert (Forall rated two_words) as H3
    by (repeat constructor; by vm_compute).
  split; [exact H1|]. split; [exact H2|]. split; [exact H3|].
  destruct (Figures.overallAccuracy_range two_words H1 H2)
    as (_ & Hrated & _).
  destruct (Hrated H3) as (total & p & _ & Hp & Hrange & _).
  exists p. split; [exact Hp|exact Hrange].
Defined.

(** X11, witness: two [Excellent] words. *)
Lemma overallAccuracy_extremes_fluent :
  0 < length fluent_words ∧ (Z.of_nat (length fluent_words) < 2 ^ 42)%Z ∧
  Forall (λ w, accuracy w = "Excellent") fluent_words ∧
  overallAccuracy fluent_words = Some (Text "100").
Proof.
  assert (0 < length fluent_words) as H1 by (simpl; lia).
  assert (Z.of_nat (length fluent_words) < 2 ^ 42)%Z as H2 by (by vm_compute).
  assert (Forall (λ w, accuracy w = "Excellent") fluent_words) as H3
    by (by repeat constructor).
  split; [exact H1|]. split; [exact H2|]. split; [exact H3|].
  exact (proj1 (Figures.overallAccuracy_extremes fluent_words H1 H2) H3).
Defined.

Import Recorder DataURL.


(** X14, witness: a recording whose type names its codec. *)
Lemma download_name_of_data_uri_opus :
  one_line "audio/webm;codecs=opus" = true ∧
  includes ";base64," "AAAA" = false ∧
  download_name "data:audio/webm;codecs=opus;base64,AAAA" =
    "speakwise_recording.webm".
Proof.
  split; [reflexivity|]. split; [reflexivity|].
  exact (proj1 (proj2 (Download.download_name_of_data_uri
                         "audio/webm;codecs=opus" "AAAA" eq_refl eq_refl))).
Defined.

Import RecorderNotions.

(** X16, witness: an [error] event without [error] in the recording
    session. *)
Lemma recorder_error_session :
  recorders recording_session !! 0 = Some session_recorder ∧
  rec_promise session_recorder = Pending ∧
  error (step (Errored 0 JsFalsy) recording_session) =
    Some "Recording error: Error" ∧
  status (step (Errored 0 JsFalsy) recording_session) = recording ∧
  streams (step (Errored 0 JsFalsy) recording_session) !! 0 = Some [true].
Proof.
  split; [reflexivity|]. split; [reflexivity|].
  destruct (Sessions.recorder_error recording_session 0 session_recorder
              JsFalsy [] eq_refl eq_refl)
    as (_ & _ & Hfalsy & Hstatus & _ & Hstreams & _).
  split; [exact (proj1 (Hfalsy eq_refl))|].
  split; [exact Hstatus|]. rewrite Hstreams. reflexivity.
Defined.


(** X22, witness: the read of an accepted file fails. *)
Lemma failed_read_song :
  Uploader.readers (Uploader.step (Uploader.Change (Some [song]))
                      Uploader.initial) !! 0 = Some (song, false) ∧
  Uploader.uploaded
    (Uploader.step (Uploader.Fail 0)
       (Uploader.step (Uploader.Change (Some [song])) Uploader.initial)) = [] ∧
  Uploader.uncaught
    (Uploader.step (Uploader.Fail 0)
       (Uploader.step (Uploader.Change (Some [song])) Uploader.initial)) =
    ["TypeError"].
Proof.
  split; [reflexivity|].
  destruct (Uploads.failed_read
              (Uploader.step (Uploader.Change (Some [song])) Uploader.initial)
              0 song eq_refl) as (_ & _ & Hup & Hunc & _).
  split; [exact Hup|exact Hunc].
Defined.

(** X24, witness: a script, a recording and an analysis of two words. *)
Lemma shown_report_has_words_session :
  App.shown_report (App.run report_session (App.initial (Some "key"))) =
    Some (two_word_report, "data:audio/webm;base64,AAAA") ∧
  (Z.of_nat (length (App.word_by_word_feedback two_word_report)) < 2 ^ 42)%Z ∧
  App.word_by_word_feedback two_word_report ≠ [].
Proof.
  assert (App.shown_report (App.run report_session (App.initial (Some "key"))) =
          Some (two_word_report, "data:audio/webm;base64,AAAA")) as H1
    by reflexivity.
  assert (Z.of_nat (length (App.word_by_word_feedback two_word_report))
          < 2 ^ 42)%Z as H2 by (by vm_compute).
  split; [exact H1|]. split; [exact H2|].
  exact (proj1 (Application.shown_report_has_words (Some "key") report_session
                  two_word_report _ H1 H2)).
Defined.

End Examples.
